(** * POI matching pipeline: text normalisation, spatial candidates,
      name matching, address and category scoring.

    The development follows the Python sources
      - [2.match_func/match_by_name.py]            (clean_name, extract_prinmary_str, match_by_name)
      - [2.match_func/search_spatial_candidates.py] (search_spatial_candidates)
      - [2.match_func/calculate_similarity_check.py] (calculate_similarity_check)
      - [address_score_check.py]                    (clean_name, address_score_check)
      - [match_by_name.py], [search_spatial_candidates.py]  (the earlier matcher and finder)
      - [4.analysis_funcs/process_stats_v.py], [summarize_category_match_rate.py],
        [summarize_match_miss_by_dist_bin.py]       (the summaries)
      - [query_osm_poi.py], [query_google_poi.py]   (build_address, normalize_nulls,
                                                     extract_from_tags, circle_center)
    Python strings are lists of Unicode code points.  What the sources import
    from other packages (the Unicode database, rapidfuzz's scorers, scipy's
    k-d tree, the sentence encoder) enters as a parameter. *)

From Stdlib Require Import Ascii NArith ZArith QArith Qabs Qround Lia Lqa List Sorting.Sorted.
From stdpp Require Import base option list sorting gmap strings.

Set Default Proof Using "Type".

(** A Python [str]: a sequence of code points. *)
Abbreviation pystr := (list N).

(** The identifier of a record: a text or an integer.  The components
    compare identifiers, use them as dictionary keys and, in one place, turn
    them into text. *)
Inductive ident :=
  | IdText (s : pystr)
  | IdInt (z : Z).

#[global] Instance ident_eq_dec : EqDecision ident.
Proof. solve_decision. Defined.

#[global] Instance ident_countable : Countable ident.
Proof.
  refine (inj_countable' (fun i => match i with IdText s => inl s | IdInt z => inr z end)
            (fun x => match x with inl s => IdText s | inr z => IdInt z end) _).
  now intros [s|z].
Defined.

(** ** Code points *)
Module Char.
Open Scope N_scope.

Definition SPACE : N := 32.
Definition APOSTROPHE : N := 39.
Definition LPAREN : N := 40.
Definition RPAREN : N := 41.
Definition LETTER_S : N := 83.
Definition UNDERSCORE : N := 95.

Definition is_ascii (c : N) : bool := c <? 128.

Definition ascii_lower (c : N) : bool := (97 <=? c) && (c <=? 122).
Definition ascii_upper_letter (c : N) : bool := (65 <=? c) && (c <=? 90).
Definition ascii_digit (c : N) : bool := (48 <=? c) && (c <=? 57).

(** [str.upper] on an ASCII code point. *)
Definition ascii_toupper (c : N) : N := if ascii_lower c then c - 32 else c.

(** [str.isalnum] on an ASCII code point. *)
Definition ascii_isalnum (c : N) : bool :=
  ascii_digit c || ascii_upper_letter c || ascii_lower c.

(** [str.isspace] on an ASCII code point: TAB, LF, VT, FF, CR,
    FS, GS, RS, US and SPACE. *)
Definition ascii_isspace (c : N) : bool :=
  ((9 <=? c) && (c <=? 13)) || ((28 <=? c) && (c <=? 32)).

(** The part of the Unicode database the normaliser consults
    ([unicodedata], [str.upper], and the classes behind [\w] and [\s]),
    asked only about code points above 127. *)
Record UnicodeData := {
  ud_decomposition : N -> list N;   (* full compatibility decomposition *)
  ud_combining : N -> bool;         (* unicodedata.combining(c) != 0 *)
  ud_upper : N -> list N;           (* full upper-case mapping *)
  ud_isalnum : N -> bool;
  ud_isspace : N -> bool
}.

Section WithUnicode.
Variable ud : UnicodeData.

Definition decomposition (c : N) : list N :=
  if is_ascii c then [c] else ud_decomposition ud c.
Definition combining (c : N) : bool :=
  if is_ascii c then false else ud_combining ud c.
Definition toupper (c : N) : list N :=
  if is_ascii c then [ascii_toupper c] else ud_upper ud c.
(** [\w] *)
Definition is_word (c : N) : bool :=
  if is_ascii c then ascii_isalnum c || (c =? UNDERSCORE) else ud_isalnum ud c.
(** [\s], [str.isspace] *)
Definition is_space (c : N) : bool :=
  if is_ascii c then ascii_isspace c else ud_isspace ud c.
End WithUnicode.

(** Upper-casing never yields an ASCII lower-case letter (true of the
    Unicode database). *)
Definition upper_sane (ud : UnicodeData) : Prop :=
  forall c d, is_ascii c = false -> In d (ud_upper ud c) -> ascii_lower d = false.

(** An excerpt of the Unicode database, enough for the examples:
    Latin-1 and Latin Extended-A letters, the combining diacritical marks,
    CJK unified ideographs, and a few spaces. *)
Definition excerpt_decomposition (c : N) : list N :=
  if c =? 233 then [101; 769]        (* e-acute = e + combining acute *)
  else if c =? 201 then [69; 769]
  else if c =? 252 then [117; 776]   (* u-diaeresis *)
  else if c =? 160 then [32]         (* no-break space *)
  else [c].
Definition excerpt_combining (c : N) : bool := (768 <=? c) && (c <=? 879).
Definition excerpt_upper (c : N) : list N :=
  if c =? 223 then [83; 83]          (* sharp s *)
  else if c =? 248 then [216]        (* o-slash *)
  else if c =? 322 then [321]        (* l-stroke *)
  else [c].
Definition excerpt_isalnum (c : N) : bool :=
  ((192 <=? c) && (c <=? 591) && negb (c =? 215) && negb (c =? 247))
  || ((19968 <=? c) && (c <=? 40959)).
Definition excerpt_isspace (c : N) : bool :=
  (c =? 160) || ((8192 <=? c) && (c <=? 8202)) || (c =? 12288).

Definition ucd_excerpt : UnicodeData :=
  {| ud_decomposition := excerpt_decomposition;
     ud_combining := excerpt_combining;
     ud_upper := excerpt_upper;
     ud_isalnum := excerpt_isalnum;
     ud_isspace := excerpt_isspace |}.
End Char.

(** ASCII literals as code-point lists. *)
Fixpoint cps (s : string) : pystr :=
  match s with
  | EmptyString => []
  | String a r => Ascii.N_of_ascii a :: cps r
  end.

(** [str(n)] of a non-negative integer: its decimal digits. *)
Fixpoint digits_of (fuel : nat) (n : N) (acc : pystr) : pystr :=
  match fuel with
  | O => acc
  | S fuel' =>
      let acc' := (48 + n mod 10)%N :: acc in
      if (n / 10 =? 0)%N then acc' else digits_of fuel' (n / 10)%N acc'
  end.

(** [str(z)] of an integer; a number has no more decimal than binary
    digits. *)
Definition str_of_int (z : Z) : pystr :=
  match z with
  | Z0 => digits_of 1 0 []
  | Zpos p => digits_of (S (N.to_nat (N.log2 (Npos p)))) (Npos p) []
  | Zneg p => 45%N :: digits_of (S (N.to_nat (N.log2 (Npos p)))) (Npos p) []
  end.

(** [str(i)] of an identifier, as [astype(str)] gives it.  (In a column
    that pandas holds as floats the text of an integer ends in [.0]; the one
    reader of this text asks only whether it is blank.) *)
Definition astype_str (i : ident) : pystr :=
  match i with
  | IdText s => s
  | IdInt z => str_of_int z
  end.

(** ** Text Normalizer *)
Module Text.
Import Char.
Open Scope N_scope.

Section WithUnicode.
Variable ud : UnicodeData.

Abbreviation is_word := (Char.is_word ud).
Abbreviation is_space := (Char.is_space ud).

(** [unicodedata.normalize("NFKD", s)] followed by dropping every
    combining mark.  Canonical reordering only permutes combining
    marks, all of which are dropped, so the composite is the per-code-point
    decomposition filtered. *)
Definition strip_accents (s : pystr) : pystr :=
  List.filter (fun c => negb (combining ud c)) (flat_map (decomposition ud) s).

(** [s.upper()] *)
Definition upper (s : pystr) : pystr := flat_map (toupper ud) s.

(** [re.sub(r"\([^)]*\)", '', s)].  [inside] is set between an opening
    parenthesis that has a closing one ahead and that closing one. *)
Fixpoint sub_parens (inside : bool) (s : pystr) : pystr :=
  match s with
  | [] => []
  | c :: r =>
      if inside then
        if c =? RPAREN then sub_parens false r else sub_parens true r
      else if (c =? LPAREN) && existsb (N.eqb RPAREN) r then sub_parens true r
      else c :: sub_parens false r
  end.

(** Is the first code point a word character?  (False at the end.) *)
Definition head_is_word (s : pystr) : bool :=
  match s with
  | [] => false
  | c :: _ => is_word c
  end.

(** [re.sub(r"\b'S\b", '', s)].  [prev_word] tells whether the code point
    before the cursor, in the subject string, is a word character. *)
Fixpoint sub_apos_s (prev_word : bool) (s : pystr) : pystr :=
  match s with
  | [] => []
  | a :: r =>
      match r with
      | b :: r' =>
          if prev_word && (a =? APOSTROPHE) && (b =? LETTER_S) && negb (head_is_word r')
          then sub_apos_s true r'
          else a :: sub_apos_s (is_word a) r
      | [] => [a]
      end
  end.

(** [re.sub(r"\bS\b", '', s)] *)
Fixpoint sub_s (prev_word : bool) (s : pystr) : pystr :=
  match s with
  | [] => []
  | a :: r =>
      if negb prev_word && (a =? LETTER_S) && negb (head_is_word r)
      then sub_s true r
      else a :: sub_s (is_word a) r
  end.

(** [s.encode("ascii", errors="ignore").decode()] *)
Definition ascii_only (s : pystr) : pystr := List.filter is_ascii s.

(** [re.sub(r"[^\w\s]", " ", s)] *)
Definition blank_special (c : N) : N :=
  if is_word c || is_space c then c else SPACE.
Definition sub_special (s : pystr) : pystr := map blank_special s.

(** [re.sub(r"\s+", " ", s)].  [in_run] is set inside a run of
    white space whose replacement has been emitted. *)
Fixpoint sub_spaces (in_run : bool) (s : pystr) : pystr :=
  match s with
  | [] => []
  | c :: r =>
      if is_space c then
        if in_run then sub_spaces true r else SPACE :: sub_spaces true r
      else c :: sub_spaces false r
  end.

(** [s.strip()] *)
Fixpoint lstrip (s : pystr) : pystr :=
  match s with
  | [] => []
  | c :: r => if is_space c then lstrip r else s
  end.
Fixpoint rstrip (s : pystr) : pystr :=
  match s with
  | [] => []
  | c :: r =>
      match rstrip r with
      | [] => if is_space c then [] else [c]
      | r' => c :: r'
      end
  end.
Definition strip (s : pystr) : pystr := rstrip (lstrip s).

(** The steps shared by every copy of [clean_name]: from the ASCII
    encoding on. *)
Definition finish (s : pystr) : pystr :=
  strip (sub_spaces false (sub_special (ascii_only s))).

(** The steps before the possessive rule. *)
Definition prepare (s : pystr) : pystr :=
  sub_parens false (upper (strip_accents s)).

(** [clean_name] of [2.match_func/match_by_name.py], on a [str]. *)
Definition clean_name (s : pystr) : pystr :=
  finish (sub_s false (sub_apos_s false (prepare s))).

(** [clean_name] of [address_score_check.py] (the same body is in the
    earlier [match_by_name.py]): no possessive rule. *)
Definition address_clean_name (s : pystr) : pystr :=
  finish (prepare s).

(** A column value handed to [clean_name]: a [str], or anything else
    (None, NaN, a number), for which [isinstance(s, str)] fails. *)
Definition clean_name_value (v : option pystr) : pystr :=
  match v with
  | Some s => clean_name s
  | None => []
  end.
Definition address_clean_name_value (v : option pystr) : pystr :=
  match v with
  | Some s => address_clean_name s
  | None => []
  end.

(** Is the first code point white space?  (False at the end.) *)
Definition head_is_space (s : pystr) : bool :=
  match s with
  | [] => false
  | c :: _ => is_space c
  end.

(** Does [\bS\b] match somewhere in [s]? *)
Fixpoint has_word_S (prev_word : bool) (s : pystr) : bool :=
  match s with
  | [] => false
  | a :: r =>
      (negb prev_word && (a =? LETTER_S) && negb (head_is_word r))
      || has_word_S (is_word a) r
  end.

(** Does [\b'S\b] match somewhere in [s]? *)
Fixpoint has_apos_S (prev_word : bool) (s : pystr) : bool :=
  match s with
  | [] => false
  | a :: r =>
      match r with
      | b :: r' =>
          (prev_word && (a =? APOSTROPHE) && (b =? LETTER_S) && negb (head_is_word r'))
          || has_apos_S (is_word a) r
      | [] => false
      end
  end.

(** The number of letters S. *)
Definition count_S (s : pystr) : nat := length (List.filter (N.eqb LETTER_S) s).

(** White space occurs only as single SPACE code points. *)
Fixpoint single_spaced (prev_space : bool) (s : pystr) : bool :=
  match s with
  | [] => true
  | c :: r =>
      if is_space c then (c =? SPACE) && negb prev_space && single_spaced true r
      else single_spaced false r
  end.

(** [name.split()]: the maximal runs of non-space code points.  [tok] is
    the token being read. *)
Fixpoint split_from (tok : pystr) (s : pystr) : list pystr :=
  match s with
  | [] => match tok with [] => [] | _ => [tok] end
  | c :: r =>
      if is_space c then
        match tok with
        | [] => split_from [] r
        | _ => tok :: split_from [] r
        end
      else split_from (tok ++ [c]) r
  end.
Definition split (s : pystr) : list pystr := split_from [] s.

(** [sep.join(l)] *)
Fixpoint join (sep : pystr) (l : list pystr) : pystr :=
  match l with
  | [] => []
  | t :: r =>
      match r with
      | [] => t
      | _ => t ++ sep ++ join sep r
      end
  end.

(** A token: not empty, and free of white space. *)
Definition token_ok (t : pystr) : Prop :=
  t <> [] /\ Forall (fun c => is_space c = false) t.

(** The module-level constant [NON_PRIMARY_TOKENS] is not defined in the
    files at hand: the exclusion set is a parameter. *)
Variable NON_PRIMARY_TOKENS : gset pystr.

(** [[t for t in tokens if t not in NON_PRIMARY_TOKENS]] *)
Definition core_tokens (name : pystr) : list pystr :=
  filter (fun t => t ∉ NON_PRIMARY_TOKENS) (split name).

Definition extract_prinmary_str (name : pystr) : pystr :=
  let core := core_tokens name in
  if (length core =? 1)%nat && (length (hd [] core) <? 3)%nat then name
  else match core with
       | _ :: _ => join [SPACE] core
       | [] => name
       end.
End WithUnicode.
End Text.

(** ** Name Matcher *)
Module NameMatcher.
Import Char Text.
Open Scope Q_scope.

(** Scores are the floats of rapidfuzz read as rationals; only their order
    is used. *)
Definition Qltb (a b : Q) : bool := negb (Qle_bool b a).

(** Python's [max] of two numbers: the first one unless the second is
    greater. *)
Definition py_max (a b : Q) : Q := if Qltb a b then b else a.

(** A comparison record: the identifier, name and category columns. *)
Record comp_row := {
  comp_id : ident;
  comp_name : option pystr;
  comp_cat : option pystr
}.

(** A reference record after the spatial search. *)
Record ref_row := {
  ref_name : option pystr;
  cand_ids : list ident;
  cand_dist_m : list Q
}.

(** The five columns [match_by_name] adds; [None] is [pd.NA]. *)
Record match_fields := {
  matched_id : option ident;
  name_score : option Q;
  location_distance : option Q;
  matched_name : option pystr;
  matched_cat_main : option pystr
}.

Definition unmatched (score : option Q) : match_fields :=
  {| matched_id := None; name_score := score; location_distance := None;
     matched_name := None; matched_cat_main := None |}.

(** [series.to_dict()] of a column indexed by the identifiers: a later row
    overrides an earlier one with the same identifier. *)
Definition to_dict {V} (kvs : list (ident * V)) : gmap ident V :=
  foldl (fun m kv => <[kv.1 := kv.2]> m) ∅ kvs.

(** One entry of [process.extract]: the choice, its score and its index. *)
Definition choice : Type := pystr * Q * nat.
Definition choice_score (c : choice) : Q := c.1.2.
Definition choice_pos (c : choice) : nat := c.2.

(** Insertion into a list ordered by descending score, before the first
    entry that does not score higher: of two equal scores the earlier
    index stays first. *)
Fixpoint insert_choice (x : choice) (l : list choice) : list choice :=
  match l with
  | [] => [x]
  | y :: r =>
      if Qltb (choice_score x) (choice_score y) then y :: insert_choice x r
      else x :: l
  end.

(** The order of [process.extract]: higher score first, equal scores by
    ascending index. *)
Definition ranks_before (x y : choice) : Prop :=
  choice_score y < choice_score x \/
  (choice_score x == choice_score y /\ (choice_pos x < choice_pos y)%nat).

Section WithScorers.
Variable ud : UnicodeData.
Variable NON_PRIMARY_TOKENS : gset pystr.

(** The four scorers of [rapidfuzz.fuzz]. *)
Variables WRatio partial_ratio token_sort_ratio token_set_ratio : pystr -> pystr -> Q.

(** [process.extract(query, choices, scorer=fuzz.WRatio, limit=limit)]:
    every choice is scored, the entries are ordered by descending score
    (equal scores by ascending index) and the first [limit] are returned. *)
Definition scored_choices (query : pystr) (choices : list pystr) : list choice :=
  imap (fun i c => (c, WRatio query c, i)) choices.
Definition ranked_choices (query : pystr) (choices : list pystr) : list choice :=
  foldr insert_choice [] (scored_choices query choices).
Definition process_extract (query : pystr) (choices : list pystr) (limit : nat) : list choice :=
  take limit (ranked_choices query choices).

(** [max(wr, pr, ts, tset)] *)
Definition combined (query name : pystr) (wr : Q) : Q :=
  py_max (py_max (py_max wr (partial_ratio query name)) (token_sort_ratio query name))
         (token_set_ratio query name).

(** The combined score of a candidate name. *)
Definition combined_score (query name : pystr) : Q :=
  combined query name (WRatio query name).

(** The selection as the specification words it: position [pos] holds a
    candidate whose combined score [s] is the greatest of the whole list, and
    no earlier candidate reaches it. *)
Definition best_overall (query : pystr) (names : list pystr) (s : Q) (pos : nat) : Prop :=
  (exists n, names !! pos = Some n /\ s = combined_score query n) /\
  (forall i n, names !! i = Some n -> combined_score query n <= s) /\
  (forall i n, (i < pos)%nat -> names !! i = Some n -> combined_score query n < s).

(** The body of the loop over [top_matches]. *)
Definition best_step (query : pystr) (st : Q * option nat) (m : choice) : Q * option nat :=
  let c := combined query m.1.1 m.1.2 in
  if Qltb st.1 c then (c, Some m.2) else st.
Definition best_match (query : pystr) (top_matches : list choice) : Q * option nat :=
  foldl (best_step query) (-1, None) top_matches.

Definition query_of (row : ref_row) : pystr :=
  extract_prinmary_str ud NON_PRIMARY_TOKENS (clean_name_value ud (ref_name row)).

Section WithComparison.
Variable compared_gdf : list comp_row.
Variable threshold : Q.

Definition id_to_name_clean : gmap ident pystr :=
  to_dict (map (fun c => (comp_id c,
                          extract_prinmary_str ud NON_PRIMARY_TOKENS
                            (clean_name_value ud (comp_name c)))) compared_gdf).
Definition id_to_name_raw : gmap ident (option pystr) :=
  to_dict (map (fun c => (comp_id c, comp_name c)) compared_gdf).
Definition id_to_cat : gmap ident (option pystr) :=
  to_dict (map (fun c => (comp_id c, comp_cat c)) compared_gdf).

(** [[id_to_name_clean.get(cid, '') for cid in row["cand_ids"]]] *)
Definition cand_names (row : ref_row) : list pystr :=
  map (fun cid => default [] (id_to_name_clean !! cid)) (cand_ids row).

(** [top_matches]: the five candidates [process.extract] ranks first. *)
Definition top_matches (row : ref_row) : list choice :=
  process_extract (query_of row) (cand_names row) 5.

(** The winner the loop settles on: [(best_score, best_pos)]. *)
Definition select_best (row : ref_row) : Q * option nat :=
  best_match (query_of row) (top_matches row).

(** One iteration of the loop over the reference rows.  [None] is an
    exception (an index that is [None] or out of range).  The query is a
    [str] whatever the name was, so of the guard
    [not isinstance(query, str) or not row["cand_ids"]] only the second
    disjunct can hold. *)
Definition match_row (row : ref_row) : option match_fields :=
  match cand_ids row with
  | [] => Some (unmatched None)
  | _ :: _ =>
      let '(score, best_pos) := select_best row in
      if Qle_bool threshold score then
        pos ← best_pos;
        cid ← cand_ids row !! pos;
        d ← cand_dist_m row !! pos;
        Some {| matched_id := Some cid;
                name_score := Some score;
                location_distance := Some d;
                matched_name := mjoin (id_to_name_raw !! cid);
                matched_cat_main := mjoin (id_to_cat !! cid) |}
      else Some (unmatched (Some score))
  end.

(** The new columns, row by row. *)
Definition match_by_name (reference_gdf : list ref_row) : option (list match_fields) :=
  mapM match_row reference_gdf.

(** [process.extractOne(query, choices, scorer=fuzz.WRatio)]: the first
    choice with the greatest score. *)
Definition process_extractOne (query : pystr) (choices : list pystr) : option choice :=
  head (ranked_choices query choices).
End WithComparison.
End WithScorers.
End NameMatcher.

(** ** Spatial Candidate Finder *)
Module Spatial.
Import NameMatcher.
Open Scope Q_scope.

(** What the candidate list [c] made of the query row [r] must satisfy:
    as many identifiers as distances, at most [k] of them, ascending
    distances none above [max_dist], no identifier twice, and every neighbour
    of the row within [max_dist] (the bound included) kept. *)
Definition row_ok (cmp_ids : list ident) (k : nat) (max_dist : Q)
    (r : list nat * list Q) (c : list ident * list Q) : Prop :=
  length c.1 = length c.2 /\
  (length c.1 <= k)%nat /\
  Sorted Qle c.2 /\
  Forall (fun d => d <= max_dist) c.2 /\
  NoDup c.1 /\
  (forall j d, (j, d) ∈ zip r.1 r.2 -> d <= max_dist ->
     exists cid, cmp_ids !! j = Some cid /\ (cid, d) ∈ zip c.1 c.2).

Section Finder.
(** Geometries, and the planar coordinates [to_crs] projects them to. *)
Context {geom point : Type}.
Variable to_crs : geom -> point.

(** [cKDTree(cmp_xy).query(ref_xy, k=k)]: the arrays [dist] and [idx], one
    row per reference point (after the reshape when [k = 1]); [None] when
    the library raises. *)
Variable tree_query :
  list point -> list point -> nat -> option (list (list Q) * list (list nat)).

(** What the k-d tree promises about one query for [k >= 1] neighbours out
    of at least [k] comparison points: it returns one row per reference
    point, [k] neighbours each, by ascending distance, each comparison point
    at most once.  A query for no neighbour is not answered, see
    [query_rejects_zero]. *)
Definition query_contract (cmp_xy ref_xy : list point) (k : nat) : Prop :=
  (0 < k)%nat /\
  exists dist idx,
    tree_query cmp_xy ref_xy k = Some (dist, idx) /\
    length dist = length ref_xy /\
    length idx = length ref_xy /\
    Forall (fun row_dist => length row_dist = k /\ Sorted Qle row_dist) dist /\
    Forall (fun row_idx => length row_idx = k /\ NoDup row_idx /\
                           Forall (fun j => (j < length cmp_xy)%nat) row_idx) idx.

(** [cKDTree.query(x, k=0)] raises ValueError: scipy turns the integer [k]
    into [np.arange(1, k + 1)] and takes [np.max] of it, which has no value
    for an empty array. *)
Definition query_rejects_zero : Prop :=
  forall cmp_xy ref_xy, tree_query cmp_xy ref_xy 0 = None.

(** The inner loop: the neighbours within [max_dist], in the order of the
    query.  [None] is an index error. *)
Fixpoint keep_near (cmp_ids : list ident) (max_dist : Q) (neighbours : list (nat * Q))
  : option (list ident * list Q) :=
  match neighbours with
  | [] => Some ([], [])
  | (j, d) :: rest =>
      if Qle_bool d max_dist then
        cid ← cmp_ids !! j;
        '(ids, dists) ← keep_near cmp_ids max_dist rest;
        Some (cid :: ids, d :: dists)
      else keep_near cmp_ids max_dist rest
  end.

(** [search_spatial_candidates]: the columns [cand_ids] and [cand_dist_m].
    Assigning a column whose length differs from the frame's raises. *)
Definition search_spatial_candidates
    (reference_gdf : list geom) (compared_gdf : list (ident * geom))
    (k : nat) (max_dist : Q) : option (list (list ident * list Q)) :=
  let ref_xy := map to_crs reference_gdf in
  let cmp_xy := map (fun c => to_crs c.2) compared_gdf in
  let k_eff := Nat.min k (length compared_gdf) in
  '(dist, idx) ← tree_query cmp_xy ref_xy k_eff;
  let cmp_ids := map fst compared_gdf in
  cands ← mapM (fun r => keep_near cmp_ids max_dist (zip r.1 r.2)) (zip idx dist);
  guard (length cands = length reference_gdf);;
  Some cands.
End Finder.
End Spatial.

(** ** Address Scorer *)
Module Address.
Import Char Text NameMatcher.
Open Scope Q_scope.

(** A reference record as [address_score_check] reads it. *)
Record addr_row := {
  addr_matched_id : option ident;   (* None: [pd.isna(matched_id)] *)
  addr_simple : option pystr
}.

(** [int(x)] of a float: truncation towards zero. *)
Definition py_int (x : Q) : Z := (Qnum x ÷ Z.pos (Qden x))%Z.

Section WithScorers.
Variable ud : UnicodeData.
Variables WRatio partial_ratio token_sort_ratio token_set_ratio : pystr -> pystr -> Q.

(** [isinstance(a, str) and a.strip()] *)
Definition usable (a : option pystr) : bool :=
  match a with
  | Some s => match strip ud s with [] => false | _ => true end
  | None => false
  end.

(** One iteration of the loop: the score and the matched address. *)
Definition address_score_row (id_to_addr : gmap ident pystr) (row : addr_row)
  : option Z * option pystr :=
  match addr_matched_id row with
  | None => (None, None)
  | Some matched_id =>
      let addr_ref := address_clean_name_value ud (addr_simple row) in
      let addr_cmp := id_to_addr !! matched_id in
      let matched_addr := if usable addr_cmp then addr_cmp else None in
      if negb (usable (Some addr_ref)) then (None, matched_addr)
      else
        match addr_cmp with
        | Some a =>
            if usable addr_cmp then
              (Some (py_int (combined partial_ratio token_sort_ratio token_set_ratio
                               addr_ref a (WRatio addr_ref a))), matched_addr)
            else (None, matched_addr)
        | None => (None, matched_addr)
        end
  end.

(** The columns [address_score] and [matched_address]. *)
Definition address_score_check (reference_gdf : list addr_row)
    (compared_gdf : list (ident * option pystr)) : list (option Z * option pystr) :=
  let id_to_addr :=
    to_dict (map (fun c => (c.1, address_clean_name_value ud c.2)) compared_gdf) in
  map (address_score_row id_to_addr) reference_gdf.
End WithScorers.
End Address.

(** ** Category Semantic Scorer *)
Module Category.
Import Char Text.
Open Scope Q_scope.

(** A record as [calculate_similarity_check] reads it; [None] is a null
    (None, NaN, pd.NA). *)
Record cat_row := {
  cat_matched_id : option ident;
  cat_ref : option pystr;
  cat_cmp : option pystr
}.

Section WithEncoder.
Variable ud : UnicodeData.
(** The sentence encoder, one text at a time, and the cosine of two
    embeddings. *)
Context {embedding : Type}.
Variable encode : pystr -> embedding.
Variable cosine_similarity : embedding -> embedding -> Q.

(** [df[id_col].notna() & (df[id_col].astype(str).str.strip() != '')] *)
Definition gate (row : cat_row) : bool :=
  match cat_matched_id row with
  | Some i => match strip ud (astype_str i) with [] => false | _ => true end
  | None => false
  end.

(** [isna] of a category text: an empty string is not a null. *)
Definition isna (v : option pystr) : bool :=
  match v with
  | Some _ => false
  | None => true
  end.

(** [series.fillna('').astype(str)] *)
Definition fillna (v : option pystr) : pystr := default [] v.

(** [df.loc[mask, result_col] = scores] on a column of nulls. *)
Fixpoint scatter (mask : list bool) (scores : list (option Q)) : list (option Q) :=
  match mask with
  | [] => []
  | true :: mask' =>
      match scores with
      | s :: scores' => s :: scatter mask' scores'
      | [] => None :: scatter mask' []
      end
  | false :: mask' => None :: scatter mask' scores
  end.

(** The column [category_sim]; [None] is NaN. *)
Definition calculate_similarity_check (df : list cat_row) : list (option Q) :=
  let mask := map gate df in
  let temp_df := List.filter gate df in
  let text_missing_mask := map (fun r => isna (cat_ref r) || isna (cat_cmp r)) temp_df in
  let texts_1 := map (fun r => fillna (cat_ref r)) temp_df in
  let texts_2 := map (fun r => fillna (cat_cmp r)) temp_df in
  let emb1 := map encode texts_1 in
  let emb2 := map encode texts_2 in
  let scores := zip_with cosine_similarity emb1 emb2 in
  let scores := zip_with (fun s missing => if missing : bool then None else Some s)
                  scores text_missing_mask in
  scatter mask scores.

(** What one row gets, read off the row alone. *)
Definition row_similarity (r : cat_row) : option Q :=
  if gate r then
    if isna (cat_ref r) || isna (cat_cmp r) then None
    else Some (cosine_similarity (encode (fillna (cat_ref r))) (encode (fillna (cat_cmp r))))
  else None.
End WithEncoder.
End Category.

(** ** Data frames as objects *)
Module Frames.
Import Char Text NameMatcher.
Open Scope Q_scope.

(** A value in a data-frame cell. *)
Inductive cell :=
  | Null                          (* None, NaN, pd.NA *)
  | Txt (s : pystr)
  | Num (q : Q)
  | IdList (l : list ident)
  | NumList (l : list Q)
  | Geometry (x y : Q).

(** A data frame: its number of rows and its columns by name. *)
Record frame := {
  nrows : nat;
  columns : gmap string (list cell)
}.

(** Objects live in a store, addressed by identity. *)
Abbreviation loc := positive.
Abbreviation store := (gmap positive frame).

(** Computations on the store that may raise. *)
Definition M (A : Type) : Type := store -> option (A * store).

#[global] Instance M_ret : MRet M := fun A a σ => Some (a, σ).
#[global] Instance M_bind : MBind M := fun A B f m σ =>
  match m σ with
  | Some (a, σ') => f a σ'
  | None => None
  end.

(** A pure step that may raise. *)
Definition lift {A} (o : option A) : M A := fun σ =>
  match o with
  | Some a => Some (a, σ)
  | None => None
  end.

Definition read (l : loc) : M frame := fun σ =>
  match σ !! l with
  | Some f => Some (f, σ)
  | None => None
  end.

(** [df.copy()]: a new object with the same contents. *)
Definition copy (l : loc) : M loc := fun σ =>
  match σ !! l with
  | Some f => let l' := fresh (dom σ) in Some (l', <[l' := f]> σ)
  | None => None
  end.

(** [df[name] = col]: the object [l] itself is updated. *)
Definition set_column (l : loc) (name : string) (col : list cell) : M unit := fun σ =>
  match σ !! l with
  | Some f =>
      if decide (length col = nrows f) then
        Some ((), <[l := {| nrows := nrows f; columns := <[name := col]> (columns f) |}]> σ)
      else None
  | None => None
  end.

(** [isinstance(v, str)] *)
Definition text_of (c : cell) : option pystr :=
  match c with
  | Txt s => Some s
  | _ => None
  end.
Definition cell_of_text (v : option pystr) : cell :=
  match v with
  | Some s => Txt s
  | None => Null
  end.
Definition cell_of_num (v : option Q) : cell :=
  match v with
  | Some q => Num q
  | None => Null
  end.
Definition cell_of_int (v : option Z) : cell :=
  match v with
  | Some z => Num (inject_Z z)
  | None => Null
  end.

(** [df[name]]: a missing column raises. *)
Definition column (f : frame) (name : string) : option (list cell) := columns f !! name.
(** [row.get(name)] for every row: a missing column reads as nulls. *)
Definition column_get (f : frame) (name : string) : list cell :=
  default (replicate (nrows f) Null) (columns f !! name).

(** The identifier a cell holds: a text, or a number that is an integer;
    a null holds none.  Every record of a collection has an identifier, so
    that reading the identifier column of a collection with a cell that holds
    none ends the run. *)
Definition id_of (c : cell) : option ident :=
  match c with
  | Txt s => Some (IdText s)
  | Num q => if (Z.pos (Qden (Qred q)) =? 1)%Z then Some (IdInt (Qnum (Qred q))) else None
  | _ => None
  end.
Definition cell_of_id (v : option ident) : cell :=
  match v with
  | Some (IdText s) => Txt s
  | Some (IdInt z) => Num (inject_Z z)
  | None => Null
  end.

(** Every object of [σ] is in [σ'] with the same contents. *)
Definition unchanged (σ σ' : store) : Prop :=
  forall l f, σ !! l = Some f -> σ' !! l = Some f.

Section Components.
Variable ud : UnicodeData.
Variable NON_PRIMARY_TOKENS : gset pystr.
Variables WRatio partial_ratio token_sort_ratio token_set_ratio : pystr -> pystr -> Q.
Context {point embedding : Type}.
Variable to_crs : Q * Q -> point.
Variable tree_query :
  list point -> list point -> nat -> option (list (list Q) * list (list nat)).
Variable encode : pystr -> embedding.
Variable cosine_similarity : embedding -> embedding -> Q.

Definition geometry_of (c : cell) : option (Q * Q) :=
  match c with
  | Geometry x y => Some (x, y)
  | _ => None
  end.

(** [search_spatial_candidates(reference_gdf, compared_gdf, k, max_dist, id_col)] *)
Definition search_spatial_candidates_df (reference_gdf compared_gdf : loc)
    (k : nat) (max_dist : Q) (id_col : string) : M loc :=
  ref ← read reference_gdf;
  cmp ← read compared_gdf;
  ref_geom ← lift (column ref "geometry" ≫= mapM geometry_of);
  cmp_geom ← lift (column cmp "geometry" ≫= mapM geometry_of);
  cmp_ids ← lift (column cmp id_col ≫= mapM id_of);
  cands ← lift (Spatial.search_spatial_candidates to_crs tree_query ref_geom
                  (zip cmp_ids cmp_geom) k max_dist);
  result ← copy reference_gdf;
  set_column result "cand_ids" (map (fun c => IdList c.1) cands);;
  set_column result "cand_dist_m" (map (fun c => NumList c.2) cands);;
  mret result.

Definition comp_rows_of (cmp : frame) (comp_id comp_name_col comp_id_col : string)
  : option (list comp_row) :=
  ids ← column cmp comp_id ≫= mapM id_of;
  names ← column cmp comp_name_col;
  cats ← column cmp comp_id_col;
  Some (zip_with (fun i nc => {| NameMatcher.comp_id := i; comp_name := text_of nc.1;
                                 comp_cat := text_of nc.2 |})
          ids (zip names cats)).

Definition ref_row_of (name ids dists : cell) : option ref_row :=
  match ids, dists with
  | IdList li, NumList ld =>
      Some {| ref_name := text_of name; cand_ids := li; cand_dist_m := ld |}
  | _, _ => None
  end.

(** [match_by_name(reference_gdf, compared_gdf, re_name_col, comp_name_col,
    comp_id, comp_id_col, threshold)] *)
Definition match_by_name_df (reference_gdf compared_gdf : loc)
    (re_name_col comp_name_col comp_id comp_id_col : string) (threshold : Q) : M loc :=
  ref ← read reference_gdf;
  cmp ← read compared_gdf;
  comp_rows ← lift (comp_rows_of cmp comp_id comp_name_col comp_id_col);
  ids ← lift (column ref "cand_ids");
  dists ← lift (column ref "cand_dist_m");
  rows ← lift (mapM (fun r => ref_row_of r.1.1 r.1.2 r.2)
                 (zip (zip (column_get ref re_name_col) ids) dists));
  fields ← lift (NameMatcher.match_by_name ud NON_PRIMARY_TOKENS WRatio partial_ratio
                   token_sort_ratio token_set_ratio comp_rows threshold rows);
  result ← copy reference_gdf;
  set_column result "matched_id" (map (fun f => cell_of_id (matched_id f)) fields);;
  set_column result "name_score" (map (fun f => cell_of_num (name_score f)) fields);;
  set_column result "location_distance"
    (map (fun f => cell_of_num (location_distance f)) fields);;
  set_column result "matched_name" (map (fun f => cell_of_text (matched_name f)) fields);;
  set_column result "matched_cat_main"
    (map (fun f => cell_of_text (matched_cat_main f)) fields);;
  mret result.

(** [address_score_check(reference_gdf, compared_gdf, addr_col_ref,
    addr_col_cmp, matched_id_col, id_col, out_col, out_addr_col)] *)
Definition address_score_check_df (reference_gdf compared_gdf : loc)
    (addr_col_ref addr_col_cmp matched_id_col id_col out_col out_addr_col : string) : M loc :=
  ref ← read reference_gdf;
  cmp ← read compared_gdf;
  cmp_ids ← lift (column cmp id_col ≫= mapM id_of);
  cmp_addr ← lift (column cmp addr_col_cmp);
  let rows :=
    zip_with (fun i a => {| Address.addr_matched_id := id_of i;
                            Address.addr_simple := text_of a |})
      (column_get ref matched_id_col) (column_get ref addr_col_ref) in
  let out :=
    Address.address_score_check ud WRatio partial_ratio token_sort_ratio token_set_ratio
      rows (zip cmp_ids (map text_of cmp_addr)) in
  result ← copy reference_gdf;
  set_column result out_col (map (fun o => cell_of_int o.1) out);;
  set_column result out_addr_col (map (fun o => cell_of_text o.2) out);;
  mret result.

(** [calculate_similarity_check(df, cat_col_ref, cat_col_cmp, id_col,
    result_col)]: the column is written into [df], and [df] is returned. *)
Definition calculate_similarity_check_df (df : loc)
    (cat_col_ref cat_col_cmp id_col result_col : string) : M loc :=
  f ← read df;
  ids ← lift (column f id_col);
  refs ← lift (column f cat_col_ref);
  cmps ← lift (column f cat_col_cmp);
  let rows :=
    zip_with (fun i rc => {| Category.cat_matched_id := id_of i;
                             Category.cat_ref := text_of rc.1;
                             Category.cat_cmp := text_of rc.2 |})
      ids (zip refs cmps) in
  let scores := Category.calculate_similarity_check ud encode cosine_similarity rows in
  set_column df result_col (replicate (nrows f) Null);;
  set_column df result_col (map cell_of_num scores);;
  mret df.
End Components.
End Frames.

(** ** Worked inputs *)
Module Demo.
Import Char Text NameMatcher.
Open Scope Q_scope.

(** The four scores of a candidate name against the query STARBUCKS, as
    rapidfuzz computes them ([ratio] is [200 * lcs / (len a + len b)];
    [WRatio] is the plain ratio for names of similar length and 0.9 times the
    partial ratio when one is at least 1.5 times longer):
      - STARBUCKS:          100, 100, 100, 100
      - STARBUCKS RESERVE:   90, 100, 900/13, 100
      - STARBUICKS:        1800/19, 800/9, 1800/19, 1800/19
    Any other pair scores 0 here. *)
Definition demo_scores (query name : pystr) : Q * Q * Q * Q :=
  if decide (query = cps "STARBUCKS") then
    if decide (name = cps "STARBUCKS") then (100, 100, 100, 100)
    else if decide (name = cps "STARBUCKS RESERVE") then (90, 100, 900 # 13, 100)
    else if decide (name = cps "STARBUICKS") then (1800 # 19, 800 # 9, 1800 # 19, 1800 # 19)
    else (0, 0, 0, 0)
  else (0, 0, 0, 0).

Definition demo_WRatio (query name : pystr) : Q := (demo_scores query name).1.1.1.
Definition demo_partial_ratio (query name : pystr) : Q := (demo_scores query name).1.1.2.
Definition demo_token_sort_ratio (query name : pystr) : Q := (demo_scores query name).1.2.
Definition demo_token_set_ratio (query name : pystr) : Q := (demo_scores query name).2.

Definition demo_compared : list comp_row :=
  [ {| comp_id := IdText (cps "c1"); comp_name := Some (cps "Starbucks Reserve"); comp_cat := Some (cps "cafe") |};
    {| comp_id := IdText (cps "c2"); comp_name := Some (cps "Starbucks"); comp_cat := Some (cps "cafe") |};
    {| comp_id := IdText (cps "t1"); comp_name := Some (cps "Starbuicks"); comp_cat := Some (cps "cafe") |};
    {| comp_id := IdText (cps "t2"); comp_name := Some (cps "Starbuicks"); comp_cat := Some (cps "cafe") |};
    {| comp_id := IdText (cps "t3"); comp_name := Some (cps "Starbuicks"); comp_cat := Some (cps "cafe") |};
    {| comp_id := IdText (cps "t4"); comp_name := Some (cps "Starbuicks"); comp_cat := None |};
    {| comp_id := IdText (cps "t5"); comp_name := Some (cps "Starbuicks"); comp_cat := Some (cps "") |};
    {| comp_id := IdText (cps "c3"); comp_name := Some (cps "STARBUCKS"); comp_cat := Some (cps "cafe") |} ].

(** Two candidates with equal combined scores, the nearer one with the
    lower weighted ratio. *)
Definition tie_row : ref_row :=
  {| ref_name := Some (cps "Starbucks");
     cand_ids := [IdText (cps "c1"); IdText (cps "c2")];
     cand_dist_m := [50; 52] |}.

(** Six candidates; the sixth has the lowest weighted ratio and the highest
    combined score. *)
Definition six_row : ref_row :=
  {| ref_name := Some (cps "Starbucks");
     cand_ids := [IdText (cps "t1"); IdText (cps "t2"); IdText (cps "t3"); IdText (cps "t4"); IdText (cps "t5"); IdText (cps "c1")];
     cand_dist_m := [10; 20; 30; 40; 50; 60] |}.

(** Two candidates with the same normalised name, 50 m and 52 m away. *)
Definition same_name_row : ref_row :=
  {| ref_name := Some (cps "Starbucks");
     cand_ids := [IdText (cps "c2"); IdText (cps "c3")];
     cand_dist_m := [50; 52] |}.

(** A reference row without a name and with one candidate. *)
Definition nameless_row : ref_row :=
  {| ref_name := None; cand_ids := [IdText (cps "c2")]; cand_dist_m := [12] |}.

Definition demo_select_best : ref_row -> Q * option nat :=
  select_best ucd_excerpt ∅ demo_WRatio demo_partial_ratio demo_token_sort_ratio
    demo_token_set_ratio demo_compared.
Definition demo_match_row (threshold : Q) : ref_row -> option match_fields :=
  match_row ucd_excerpt ∅ demo_WRatio demo_partial_ratio demo_token_sort_ratio
    demo_token_set_ratio demo_compared threshold.
Definition demo_combined_score : pystr -> pystr -> Q :=
  combined_score demo_WRatio demo_partial_ratio demo_token_sort_ratio demo_token_set_ratio.
Definition demo_cand_names : ref_row -> list pystr :=
  cand_names ucd_excerpt ∅ demo_compared.
Definition demo_top_matches : ref_row -> list choice :=
  top_matches ucd_excerpt ∅ demo_WRatio demo_compared.
Definition demo_best_overall : pystr -> list pystr -> Q -> nat -> Prop :=
  best_overall demo_WRatio demo_partial_ratio demo_token_sort_ratio demo_token_set_ratio.

(** A stand-in for the k-d tree, on points of a line: every comparison point
    is measured, the neighbours are ordered by distance and cut at [k]; like
    scipy's it raises when asked for no neighbour. *)
Definition line_distance (a b : Q) : Q := Qabs (a - b).
Fixpoint insert_neighbour (x : Q * nat) (l : list (Q * nat)) : list (Q * nat) :=
  match l with
  | [] => [x]
  | y :: r => if Qltb y.1 x.1 then y :: insert_neighbour x r else x :: l
  end.
Definition line_query (cmp_xy ref_xy : list Q) (k : nat)
  : option (list (list Q) * list (list nat)) :=
  let rows :=
    map (fun r => take k (foldr insert_neighbour []
                            (imap (fun j c => (line_distance r c, j)) cmp_xy))) ref_xy in
  if decide (k = 0%nat) then None
  else Some (map (map fst) rows, map (map snd) rows).

(** Two reference points, and comparison points at 1000 m and 1000.01 m
    from the first. *)
Definition demo_reference_points : list Q := [0; 300].
Definition demo_compared_points : list (ident * Q) :=
  [(IdText (cps "a"), 1000); (IdText (cps "b"), 100001 # 100); (IdText (cps "c"), 250)].
Definition demo_search (reference : list Q) (compared : list (ident * Q)) (k : nat) (max_dist : Q)
  : option (list (list ident * list Q)) :=
  Spatial.search_spatial_candidates (fun g => g) line_query reference compared k max_dist.

(** A matched frame as the Name Matcher leaves it: the second row has an
    empty matched category, the third a null one, the fourth no match. *)
Definition demo_matched_frame : Frames.frame :=
  {| Frames.nrows := 4;
     Frames.columns :=
       {[ "primary_type"%string :=
            [Frames.Txt (cps "cafe"); Frames.Txt (cps "cafe"); Frames.Txt (cps "cafe");
             Frames.Txt (cps "cafe")];
          "matched_id"%string :=
            [Frames.Txt (cps "c2"); Frames.Txt (cps "t5"); Frames.Txt (cps "t4"); Frames.Null];
          "matched_cat_main"%string :=
            [Frames.Txt (cps "cafe"); Frames.Txt (cps ""); Frames.Null; Frames.Null] ]} |}.
Definition demo_df : positive := 1%positive.

(** Rows as the category scorer reads them: matched to an integer, matched
    to a blank text, and not matched. *)
Definition demo_cat_rows : list Category.cat_row :=
  [ {| Category.cat_matched_id := Some (IdInt 102); Category.cat_ref := Some (cps "cafe");
       Category.cat_cmp := Some (cps "cafe") |};
    {| Category.cat_matched_id := Some (IdText (cps "  ")); Category.cat_ref := Some (cps "cafe");
       Category.cat_cmp := Some (cps "cafe") |};
    {| Category.cat_matched_id := None; Category.cat_ref := Some (cps "cafe");
       Category.cat_cmp := None |} ].
Definition demo_store : gmap positive Frames.frame := {[ demo_df := demo_matched_frame ]}.
End Demo.

(** ** The shape of a normalised text *)
Module TextShape.
Import Char Text.
Open Scope N_scope.

(** The shape of a normalised text: capital letters, digits, underscores
    and spaces only; no space first or last; no two spaces in a row. *)
Definition normal_form (y : pystr) : Prop :=
  Forall (fun c => ascii_upper_letter c = true \/ ascii_digit c = true \/
                   c = UNDERSCORE \/ c = SPACE) y /\
  head y <> Some SPACE /\
  last y <> Some SPACE /\
  (forall i, y !! i = Some SPACE -> y !! S i <> Some SPACE).
End TextShape.

(** ** The earlier Name Matcher *)
Module EarlierMatcher.
Import Char Text NameMatcher.
Open Scope Q_scope.

(** The four columns the earlier [match_by_name.py] adds; [None] is
    [pd.NA]. *)
Record earlier_fields := {
  earlier_matched_id : option ident;
  earlier_name_score : option Q;
  earlier_location_distance : option Q;
  earlier_matched_name : option pystr
}.

Definition earlier_unmatched (score : option Q) : earlier_fields :=
  {| earlier_matched_id := None; earlier_name_score := score;
     earlier_location_distance := None; earlier_matched_name := None |}.

Section WithScorers.
Variable ud : UnicodeData.
Variable NON_PRIMARY_TOKENS : gset pystr.
Variables WRatio partial_ratio token_sort_ratio token_set_ratio : pystr -> pystr -> Q.
Variable compared_gdf : list comp_row.
Variable threshold : Q.

(** The file's own [clean_name] has no possessive rule. *)
Definition earlier_query_of (row : ref_row) : pystr :=
  extract_prinmary_str ud NON_PRIMARY_TOKENS (address_clean_name_value ud (ref_name row)).

Definition earlier_id_to_name_clean : gmap ident pystr :=
  to_dict (map (fun c => (comp_id c,
                          extract_prinmary_str ud NON_PRIMARY_TOKENS
                            (address_clean_name_value ud (comp_name c)))) compared_gdf).

Definition earlier_cand_names (row : ref_row) : list pystr :=
  map (fun cid => default [] (earlier_id_to_name_clean !! cid)) (cand_ids row).

(** One iteration of the loop: [process.extractOne] names one candidate,
    which alone is scored with the other three scorers.  [None] is an
    exception. *)
Definition earlier_match_row (row : ref_row) : option earlier_fields :=
  match cand_ids row with
  | [] => Some (earlier_unmatched None)
  | _ :: _ =>
      m ← process_extractOne WRatio (earlier_query_of row) (earlier_cand_names row);
      name ← earlier_cand_names row !! m.2;
      let score := combined partial_ratio token_sort_ratio token_set_ratio
                     (earlier_query_of row) name m.1.2 in
      if Qle_bool threshold score then
        cid ← cand_ids row !! m.2;
        d ← cand_dist_m row !! m.2;
        Some {| earlier_matched_id := Some cid;
                earlier_name_score := Some score;
                earlier_location_distance := Some d;
                earlier_matched_name := mjoin (id_to_name_raw compared_gdf !! cid) |}
      else Some (earlier_unmatched (Some score))
  end.

Definition earlier_match_by_name (reference_gdf : list ref_row)
  : option (list earlier_fields) :=
  mapM earlier_match_row reference_gdf.
End WithScorers.
End EarlierMatcher.

(** ** The earlier Spatial Candidate Finder *)
Module EarlierSpatial.
Import NameMatcher.
Open Scope Q_scope.

Section Finder.
Context {geom point : Type}.
Variable to_crs : geom -> point.
Variable tree_query :
  list point -> list point -> nat -> option (list (list Q) * list (list nat)).

(** [search_spatial_candidates] of the earlier [search_spatial_candidates.py],
    which has no [max_dist]: every neighbour the query returns is kept.  The
    columns [cand_ids] and [cand_dist_m], row by row; [None] is an exception
    (an index out of range, a column of the wrong length). *)
Definition earlier_search_spatial_candidates
    (reference_gdf : list geom) (compared_gdf : list (ident * geom)) (k : nat)
  : option (list (list ident * list Q)) :=
  let ref_xy := map to_crs reference_gdf in
  let cmp_xy := map (fun c => to_crs c.2) compared_gdf in
  let k_eff := Nat.min k (length compared_gdf) in
  '(dist, idx) ← tree_query cmp_xy ref_xy k_eff;
  let cmp_ids := map fst compared_gdf in
  cand_ids ← mapM (fun row => mapM (fun j => cmp_ids !! j) row) idx;
  guard (length cand_ids = length reference_gdf);;
  guard (length dist = length reference_gdf);;
  Some (zip cand_ids dist).
End Finder.
End EarlierSpatial.

(** ** Analysis: counts by category *)
Module Analysis.
Import Char Text Frames.
Open Scope Q_scope.

(** Python's order on [str]: lexicographic by code point. *)
Fixpoint str_ltb (a b : pystr) : bool :=
  match a, b with
  | _, [] => false
  | [], _ :: _ => true
  | x :: a', y :: b' => (x <? y)%N || ((x =? y)%N && str_ltb a' b')
  end.

Definition str_lt (a b : pystr) : Prop := str_ltb a b = true.

(** The group keys of [groupby]: every key once, in ascending order. *)
Fixpoint insert_key {K} `{EqDecision K} (ltb : K -> K -> bool) (k : K) (l : list K) : list K :=
  match l with
  | [] => [k]
  | h :: t =>
      if decide (k = h) then l
      else if ltb k h then k :: l
      else h :: insert_key ltb k t
  end.

(** [groupby] drops the rows whose key is null. *)
Definition group_keys (col : list (option pystr)) : list pystr :=
  foldr (fun v acc => match v with Some k => insert_key str_ltb k acc | None => acc end) [] col.

(** A record as the summaries read it: the category and the verdict
    column [is_true_match]. *)
Record stat_row := {
  primary_cat : option pystr;
  is_true_match : cell
}.

(** [temp["is_true_match"] == "0"] *)
Definition is_mistake (r : stat_row) : bool :=
  match is_true_match r with
  | Txt s => bool_decide (s = cps "0")
  | _ => false
  end.

(** [temp["is_true_match"].isna()] *)
Definition is_miss (r : stat_row) : bool :=
  match is_true_match r with
  | Null => true
  | _ => false
  end.

(** One row of [process_stats]'s result. *)
Record cat_stats := {
  stats_cat : pystr;
  n_mistake : nat;
  n_miss : nat;
  total_count : nat;
  total_non_match : nat;
  miss_rate : Q;
  stats_source : pystr
}.

(** An integer column divided by an integer column. *)
Definition ratio (a b : nat) : Q := inject_Z (Z.of_nat a) / inject_Z (Z.of_nat b).

(** The rows of a group. *)
Definition group_of (key : pystr) (df : list stat_row) : list stat_row :=
  List.filter (fun r => bool_decide (primary_cat r = Some key)) df.

(** [process_stats(df, source_name)] of [process_stats_v.py]. *)
Definition process_stats (df : list stat_row) (source_name : pystr) : list cat_stats :=
  map (fun key =>
         let g := group_of key df in
         let mistake := length (List.filter is_mistake g) in
         let miss := length (List.filter is_miss g) in
         let total := length g in
         {| stats_cat := key;
            n_mistake := mistake;
            n_miss := miss;
            total_count := total;
            total_non_match := mistake + miss;
            miss_rate := ratio (mistake + miss) total;
            stats_source := source_name |})
      (group_keys (map primary_cat df)).
End Analysis.

(** ** Analysis: match rates and distance bins *)
Module Summaries.
Import Char Text Frames Analysis.
Open Scope Q_scope.

(** *** [summarize_category_match_rate] *)

(** How often [k] occurs in a column. *)
Definition count_of (k : pystr) (col : list (option pystr)) : nat :=
  length (List.filter (fun v => bool_decide (v = Some k)) col).

(** The first entry for a key. *)
Fixpoint lookup_key {V} (k : pystr) (l : list (pystr * V)) : option V :=
  match l with
  | [] => None
  | (k', v) :: r => if decide (k' = k) then Some v else lookup_key k r
  end.

(** One row of the summary. *)
Record rate_row := {
  rate_cat : pystr;
  compare_count : nat;     (* [compare_col], ove_count *)
  ref_count : nat;         (* [ref_col], google_count *)
  cat_per : Q;
  match_rate : Q           (* [cg_m_col] *)
}.

Section MatchRate.
(** [df[true_col].isin(true_values)], value by value. *)
Variable isin_true_values : cell -> bool.


(** The order in which [value_counts] lists the values it counted (by
    descending count; pandas leaves the order of equal counts open). *)
Variable order_counts : list (pystr * nat) -> list (pystr * nat).
(** [sort_values(ref_col, ascending=False)] on the merged rows
    [(category, compare count, reference count, share)]. *)
Variable sort_values : list (pystr * nat * nat * Q) -> list (pystr * nat * nat * Q).

(** [series.value_counts()]: the values that occur, nulls left out, each
    with the number of its occurrences. *)
Definition value_counts (col : list (option pystr)) : list (pystr * nat) :=
  order_counts (map (fun k => (k, count_of k col)) (remove_dups (omap id col))).

Definition summarize_category_match_rate (df : list stat_row) : list rate_row :=
  let df_true := List.filter (fun r => isin_true_values (is_true_match r)) df in
  let g_cat :=
    map (fun kc => (kc.1, (kc.2, ratio kc.2 (length df))))
      (value_counts (map primary_cat df)) in
  let o_cat := value_counts (map primary_cat df_true) in
  let merged :=
    omap (fun kc => g ← lookup_key kc.1 g_cat; Some (kc.1, kc.2, g.1, g.2)) o_cat in
  map (fun m => {| rate_cat := m.1.1.1;
                   compare_count := m.1.1.2;
                   ref_count := m.1.2;
                   cat_per := m.2;
                   match_rate := ratio m.1.1.2 m.1.2 |})
      (sort_values merged).
End MatchRate.

(** *** [summarize_match_miss_by_dist_bin] *)

(** The shares, areas and densities of this summary are binary64 numbers,
    and every operation on them rounds.  [2^e]: *)
Definition pow2 (e : Z) : Q :=
  if (0 <=? e)%Z then inject_Z (2 ^ e) else 1 / inject_Z (2 ^ (- e)).

(** The exponent of a positive rational: the [e] with [2^e <= a < 2^(e+1)]. *)
Definition floor_log2 (a : Q) : Z :=
  let e := (Z.log2 (Qnum a) - Z.log2 (Z.pos (Qden a)))%Z in
  if Qle_bool (pow2 e) a then e else (e - 1)%Z.

(** Rounding to the nearest integer, a tie to the even one. *)
Definition round_half_even (x : Q) : Z :=
  let f := Qfloor x in
  match Qcompare (x - inject_Z f) (1 # 2) with
  | Lt => f
  | Eq => if Z.even f then f else (f + 1)%Z
  | Gt => (f + 1)%Z
  end.

(** The binary64 number nearest to [x] (IEEE 754, round to nearest, ties to
    even): 53 significant bits, and steps of [2^-1074] below [2^-1022].  The
    exponent has no upper bound here; [fdiv] turns a quotient beyond the
    largest binary64 number into an infinity. *)
Definition b64 (x : Q) : Q :=
  if Qeq_bool x 0 then 0
  else
    let a := Qabs x in
    let ulp := pow2 (Z.max (floor_log2 a) (-1022) - 52) in
    let r := Qred (inject_Z (round_half_even (a / ulp)) * ulp) in
    if Qle_bool 0 x then r else - r.

(** A float that a division may produce; [Infinite] is an infinity of
    either sign. *)
Inductive fnum :=
  | Finite (q : Q)
  | Infinite
  | NotANumber.

(** Float division of a count by an area: the rounded quotient, an infinity
    when that is beyond the binary64 numbers; a zero divisor gives an
    infinity, or NaN for [0/0]. *)
Definition fdiv (a b : Q) : fnum :=
  if Qeq_bool b 0 then (if Qeq_bool a 0 then NotANumber else Infinite)
  else
    let q := b64 (a / b) in
    if Qle_bool (pow2 1024) (Qabs q) then Infinite else Finite q.

(** [np.pi], the double nearest to pi. *)
Definition np_pi : Q := 884279719003555 # 281474976710656.

(** A record as the summary reads it: the category, the code of its
    distance bin in the categorical column, the verdict and the name score. *)
Record bin_row := {
  bin_cat : option pystr;
  dist_bin : option nat;
  bin_true_match : cell;
  bin_name_score : option Q
}.

(** The order of the group keys [(category, bin)]. *)
Definition pair_ltb (a b : pystr * nat) : bool :=
  str_ltb a.1 b.1 || (bool_decide (a.1 = b.1) && (a.2 <? b.2)%nat).
Definition pair_lt (a b : pystr * nat) : Prop := pair_ltb a b = true.

(** The observed pairs, each once, in ascending order; a row with a null
    in either key belongs to no group. *)
Definition group_pairs (df : list bin_row) : list (pystr * nat) :=
  foldr (fun r acc =>
           match bin_cat r, dist_bin r with
           | Some c, Some b => insert_key pair_ltb (c, b) acc
           | _, _ => acc
           end) [] df.

Definition bin_group (key : pystr * nat) (df : list bin_row) : list bin_row :=
  List.filter (fun r => bool_decide (bin_cat r = Some key.1 /\ dist_bin r = Some key.2)) df.

(** [x[true_col].eq(v)] *)
Definition true_match_eq (v : pystr) (r : bin_row) : bool :=
  match bin_true_match r with
  | Txt s => bool_decide (s = v)
  | _ => false
  end.
Definition true_match_isna (r : bin_row) : bool :=
  match bin_true_match r with
  | Null => true
  | _ => false
  end.

(** [series.median()]: nulls are skipped; NaN when nothing is left; the
    mean of the two middle values when their number is even. *)
Fixpoint insert_Q (x : Q) (l : list Q) : list Q :=
  match l with
  | [] => [x]
  | y :: r => if Qle_bool x y then x :: l else y :: insert_Q x r
  end.
Definition median (col : list (option Q)) : option Q :=
  let sorted := foldr insert_Q [] (omap id col) in
  let n := length sorted in
  if (n =? 0)%nat then None
  else if Nat.odd n then sorted !! (n / 2)%nat
  else a ← sorted !! (n / 2 - 1)%nat; b ← sorted !! (n / 2)%nat; Some (b64 (b64 (a + b) / 2)).

(** One row of the summary. *)
Record bin_stats := {
  bs_cat : pystr;
  bs_bin : nat;
  n_total : nat;
  n_match : nat;
  n_nonmatch : nat;
  bs_n_mistake : nat;
  bs_n_miss : nat;
  median_name_score : option Q;
  match_c : Q;
  non_match_c : Q;
  bin_id : nat;
  ring_area : Q;
  nonmatch_den : fnum;
  match_den : fnum;
  total_den : fnum
}.

Section DistBins.
(** The intervals of the categorical column, by code: [(left, right)], two
    numbers that binary64 holds exactly. *)
Variable interval_of : nat -> Q * Q.
Variable match_value : pystr.
(** [area_unit == "km2"] *)
Variable km2 : bool.

(** [np.pi * (x.right**2 - x.left**2)], and [area / 1e6]; the bounds of a
    distance bin are far from the range where a square overflows. *)
Definition ring_area_of (b : nat) : Q :=
  let left := (interval_of b).1 in
  let right := (interval_of b).2 in
  let area := b64 (np_pi * b64 (b64 (right * right) - b64 (left * left))) in
  if km2 then b64 (area / 1000000) else area.

Definition count_Q (n : nat) : Q := inject_Z (Z.of_nat n).

Definition summarize_match_miss_by_dist_bin (gdf : list bin_row) : list bin_stats :=
  let keys := group_pairs gdf in
  imap (fun i key =>
          let x := bin_group key gdf in
          let total := length x in
          let matched := length (List.filter (true_match_eq match_value) x) in
          let nonmatch := length (List.filter (fun r => negb (true_match_eq match_value r)) x) in
          let area := ring_area_of key.2 in
          {| bs_cat := key.1;
             bs_bin := key.2;
             n_total := total;
             n_match := matched;
             n_nonmatch := nonmatch;
             bs_n_mistake := length (List.filter (true_match_eq (cps "0")) x);
             bs_n_miss := length (List.filter true_match_isna x);
             median_name_score := median (map bin_name_score x);
             match_c := b64 (ratio matched total);
             non_match_c := b64 (ratio nonmatch total);
             bin_id := S (length (List.filter (fun k => bool_decide (k.1 = key.1)) (take i keys)));
             ring_area := area;
             nonmatch_den := fdiv (count_Q nonmatch) area;
             match_den := fdiv (count_Q matched) area;
             total_den := fdiv (count_Q total) area |})
       keys.
End DistBins.
End Summaries.

(** ** OpenStreetMap records *)
Module Osm.
Import Char Text.
Open Scope N_scope.

(** What a tag column holds in a row: None, NaN, a text, or, after
    [normalize_nulls], [pd.NA]. *)
Inductive tag_value :=
  | NoneValue
  | NaNValue
  | NAValue
  | TextValue (s : pystr).

Section WithUnicode.
Variable ud : UnicodeData.
(** [str.lower] *)
Variable lower : pystr -> pystr.

(** [str(row.get(key, ''))]: [None] is a row without the column. *)
Definition shown (v : option tag_value) : pystr :=
  match v with
  | None => []
  | Some NoneValue => cps "None"
  | Some NaNValue => cps "nan"
  | Some NAValue => cps "<NA>"
  | Some (TextValue s) => s
  end.

(** [s.lower() in ['nan', 'none']] *)
Definition nan_like (s : pystr) : bool :=
  bool_decide (lower s ∈ [cps "nan"; cps "none"]).

(** [num] and [street] after the two tests. *)
Definition address_part (v : option tag_value) : pystr :=
  let s := strip ud (shown v) in
  if nan_like s then [] else s.

(** [build_address(row)], on the three columns it reads. *)
Definition build_address (housenumber street housename : option tag_value) : pystr :=
  let num := address_part housenumber in
  let street := address_part street in
  match num, street with
  | _ :: _, _ :: _ => num ++ [SPACE] ++ street
  | _, _ :: _ => street
  | _, [] =>
      let housename := strip ud (shown housename) in
      match housename with
      | _ :: _ => if nan_like housename then cps "N/A" else housename
      | [] => cps "N/A"
      end
  end.

(** [str.lower] and [str.capitalize] on ASCII texts. *)
Definition ascii_tolower (c : N) : N := if ascii_upper_letter c then c + 32 else c.
Definition capitalize (s : pystr) : pystr :=
  match s with
  | [] => []
  | c :: r => ascii_toupper c :: map ascii_tolower r
  end.

Definition NULL_LIKE : list pystr :=
  [cps "none"; cps "null"; cps "nan"; cps "n/a"; cps "na"; cps ""; cps " "; cps "   "].

(** The texts [normalize_nulls] replaces by name. *)
Definition null_texts : list pystr :=
  map (map ascii_toupper) NULL_LIKE ++ map (map ascii_tolower) NULL_LIKE
  ++ map capitalize NULL_LIKE.

(** [normalize_nulls] on one cell outside the geometry column: a text
    that is blank ([^\s*$]) or one of [null_texts], and every null, becomes
    [pd.NA]. *)
Definition normalize_value (v : tag_value) : tag_value :=
  match v with
  | TextValue s =>
      if forallb (Char.is_space ud) s then NAValue
      else if bool_decide (s ∈ null_texts) then NAValue
      else TextValue s
  | _ => NAValue
  end.
End WithUnicode.

Section Tags.
(** The JSON values that are not null, as [json.loads] returns them, and
    the text of those that are strings. *)
Context {V : Type}.
Variable text_of_json : V -> option pystr.

(** What [json.loads] returns, one level deep; [None] inside is a JSON
    null, Python's [None].  An object keeps the last value of a repeated
    key. *)
Inductive json :=
  | JNull
  | JBool (b : bool)
  | JNumber (q : Q)
  | JString (s : pystr)
  | JArray (l : list (option V))
  | JObject (members : list (pystr * option V)).

(** [json.loads]; [None] when it raises. *)
Variable json_loads : pystr -> option json.

(** [tags_dict[key]] on an object: the last member with the key. *)
Fixpoint member (key : pystr) (members : list (pystr * option V)) : option (option V) :=
  match members with
  | [] => None
  | (k, v) :: r =>
      match member key r with
      | Some w => Some w
      | None => if decide (k = key) then Some v else None
      end
  end.

(** Is [sub] a contiguous part of [s]?  ([sub in s] on texts.) *)
Fixpoint starts_with (sub s : pystr) : bool :=
  match sub, s with
  | [], _ => true
  | _ :: _, [] => false
  | a :: sub', b :: s' => (a =? b)%N && starts_with sub' s'
  end.
Fixpoint contains (sub s : pystr) : bool :=
  starts_with sub s ||
  match s with
  | [] => false
  | _ :: s' => contains sub s'
  end.

(** [key in l] on a list: some element is the text [key]. *)
Definition in_array (key : pystr) (l : list (option V)) : bool :=
  existsb (fun v => bool_decide (v ≫= text_of_json = Some key)) l.

(** The loop over the priority keys.  [Some result] is what the function
    returns from inside the loop or after it; [None] is an exception, which
    the bare [except] turns into the result [None]. *)
Fixpoint first_tag (tags : json) (priority_keys : list pystr) : option (option V) :=
  match priority_keys with
  | [] => Some None
  | key :: rest =>
      match tags with
      | JObject members =>
          match member key members with
          | Some v => Some v
          | None => first_tag tags rest
          end
      | JString s =>
          if contains key s then None          (* a text indexed by a text *)
          else first_tag tags rest
      | JArray l =>
          if in_array key l then None          (* a list indexed by a text *)
          else first_tag tags rest
      | _ => None                              (* [key in tags_dict] raises *)
      end
  end.

(** [extract_from_tags(tag_str, priority_keys)]; the argument [None] is
    a null ([pd.isna]), the result [None] is Python's [None]. *)
Definition extract_from_tags (tag_str : option pystr) (priority_keys : list pystr)
  : option V :=
  match tag_str with
  | None => None
  | Some s =>
      match json_loads s with
      | Some tags => default None (first_tag tags priority_keys)
      | None => None
      end
  end.
End Tags.
End Osm.

(** ** The grid of search circles *)
Module Grid.
Open Scope Q_scope.

(** [np.arange(start, stop, step)] for a positive step:
    [ceil((stop - start) / step)] values, [start + i * step]. *)
Definition arange (start stop step : Q) : list Q :=
  map (fun i => start + inject_Z (Z.of_nat i) * step)
      (seq 0 (Z.to_nat (Qceiling ((stop - start) / step)))).

(** Steps 3 and 4 of [circle_center], on the bounds of the box in the
    projected plane: the centres, row by row from the south, and the circles
    [Point(cx, cy).buffer(R)] as centre and radius. *)
Definition grid_centers (minx miny maxx maxy R : Q) : list (Q * Q) :=
  let xs := arange (minx + R) (maxx + (1 # 1000000000)) (2 * R) in
  let ys := arange (miny + R) (maxy + (1 # 1000000000)) (2 * R) in
  match xs, ys with
  | [], _ => []
  | _, [] => []
  | _, _ => flat_map (fun y => map (fun x => (x, y)) xs) ys
  end.

Definition grid_circles (minx miny maxx maxy R : Q) : list (Q * Q * Q) :=
  map (fun c => (c, R)) (grid_centers minx miny maxx maxy R).

(** The point [p] is in the disc of a circle. *)
Definition in_circle (p : Q * Q) (circle : Q * Q * Q) : Prop :=
  (p.1 - circle.1.1) * (p.1 - circle.1.1) + (p.2 - circle.1.2) * (p.2 - circle.1.2)
    <= circle.2 * circle.2.
End Grid.

(** ** More worked inputs *)
Module FrameSamples.
Import Char Text NameMatcher Frames Demo.
Open Scope Q_scope.

(** The five columns [match_by_name] writes. *)
Definition match_columns : list string :=
  ["matched_id"; "name_score"; "location_distance"; "matched_name"; "matched_cat_main"]%string.

(** A reference frame after the spatial search and a comparison frame. *)
Definition sample_reference_frame : frame :=
  {| nrows := 2;
     columns :=
       {[ "name"%string := [Txt (cps "Starbucks"); Null];
          "cand_ids"%string := [IdList [IdText (cps "c1"); IdText (cps "c2")]; IdList []];
          "cand_dist_m"%string := [NumList [50; 52]; NumList []] ]} |}.
Definition sample_compared_frame : frame :=
  {| nrows := 2;
     columns :=
       {[ "id"%string := [Txt (cps "c1"); Txt (cps "c2")];
          "name"%string := [Txt (cps "Starbucks Reserve"); Txt (cps "Starbucks")];
          "cat_main"%string := [Txt (cps "cafe"); Txt (cps "cafe")] ]} |}.
Definition sample_store : store :=
  {[ 1%positive := sample_reference_frame; 2%positive := sample_compared_frame ]}.

(** The same frames with integers as identifiers, and the reference frame
    as the Name Matcher leaves it. *)
Definition numbered_reference_frame : frame :=
  {| nrows := 2;
     columns :=
       {[ "name"%string := [Txt (cps "Starbucks"); Null];
          "primary_type"%string := [Txt (cps "cafe"); Txt (cps "cafe")];
          "cand_ids"%string := [IdList [IdInt 101; IdInt 102]; IdList []];
          "cand_dist_m"%string := [NumList [50; 52]; NumList []] ]} |}.
Definition numbered_compared_frame : frame :=
  {| nrows := 2;
     columns :=
       {[ "id"%string := [Num 101; Num 102];
          "name"%string := [Txt (cps "Starbucks Reserve"); Txt (cps "Starbucks")];
          "cat_main"%string := [Txt (cps "cafe"); Txt (cps "cafe")] ]} |}.
Definition numbered_store : store :=
  {[ 1%positive := numbered_reference_frame; 2%positive := numbered_compared_frame ]}.
Definition numbered_matched_frame : frame :=
  {| nrows := 2;
     columns :=
       {[ "primary_type"%string := [Txt (cps "cafe"); Txt (cps "cafe")];
          "matched_id"%string := [Num 102; Null];
          "matched_cat_main"%string := [Txt (cps "cafe"); Null] ]} |}.
End FrameSamples.

Module AnalysisSamples.
Import Char Text Frames Analysis Summaries.
Open Scope Q_scope.

(** A stand-in for the two sorts of pandas: insertion by descending key,
    equal keys in the order they come. *)
Fixpoint insert_desc {A} (key : A -> nat) (x : A) (l : list A) : list A :=
  match l with
  | [] => [x]
  | y :: r => if (key y <? key x)%nat then x :: l else y :: insert_desc key x r
  end.
Definition sort_desc {A} (key : A -> nat) (l : list A) : list A :=
  foldr (insert_desc key) [] l.

(** [isin((True, "1"))] on the verdicts of the samples, which are texts
    or nulls. *)
Definition sample_isin (c : cell) : bool :=
  match c with
  | Txt s => bool_decide (s = cps "1")
  | _ => false
  end.

(** Six records: three cafes (two true matches), a bank without a
    verdict, a park with a true match and a true match without a category. *)
Definition sample_records : list stat_row :=
  [ {| primary_cat := Some (cps "cafe"); is_true_match := Txt (cps "1") |};
    {| primary_cat := Some (cps "cafe"); is_true_match := Txt (cps "0") |};
    {| primary_cat := Some (cps "bank"); is_true_match := Null |};
    {| primary_cat := Some (cps "cafe"); is_true_match := Txt (cps "1") |};
    {| primary_cat := Some (cps "park"); is_true_match := Txt (cps "1") |};
    {| primary_cat := None; is_true_match := Txt (cps "1") |} ].

Definition sample_match_rate : list rate_row :=
  summarize_category_match_rate sample_isin (sort_desc snd)
    (sort_desc (fun m : pystr * nat * nat * Q => m.1.2)) sample_records.

(** Records of one category in the bins 3 and 7 of twenty. *)
Definition sample_binned : list bin_row :=
  [ {| bin_cat := Some (cps "cafe"); dist_bin := Some 7%nat;
       bin_true_match := Txt (cps "1"); bin_name_score := Some 90 |};
    {| bin_cat := Some (cps "cafe"); dist_bin := Some 3%nat;
       bin_true_match := Txt (cps "0"); bin_name_score := Some 40 |};
    {| bin_cat := Some (cps "cafe"); dist_bin := Some 7%nat;
       bin_true_match := Null; bin_name_score := None |};
    {| bin_cat := Some (cps "cafe"); dist_bin := None;
       bin_true_match := Txt (cps "1"); bin_name_score := Some 100 |} ].

(** Rings 100 m wide. *)
Definition sample_interval (b : nat) : Q * Q :=
  (inject_Z (Z.of_nat b) * 100, inject_Z (Z.of_nat b) * 100 + 100).

(** The density of [n] records in the ring between 700 m and 800 m. *)
Definition sample_density (n : nat) : Q :=
  b64 (count_Q n / ring_area_of sample_interval false 7).
End AnalysisSamples.

(** * Properties *)

(** ** Code points and the stages of [clean_name] *)
Module TextFacts.
Import Char Text.
Open Scope N_scope.

(** Case analysis on every comparison of code points in sight. *)
Ltac cmpN :=
  repeat match goal with
  | H : context [N.leb ?a ?b] |- _ => destruct (N.leb_spec a b)
  | H : context [N.ltb ?a ?b] |- _ => destruct (N.ltb_spec a b)
  | H : context [N.eqb ?a ?b] |- _ => destruct (N.eqb_spec a b)
  | |- context [N.leb ?a ?b] => destruct (N.leb_spec a b)
  | |- context [N.ltb ?a ?b] => destruct (N.ltb_spec a b)
  | |- context [N.eqb ?a ?b] => destruct (N.eqb_spec a b)
  end;
  simpl in *; try congruence; try lia.

Ltac unfold_char :=
  unfold is_word, is_space, combining, decomposition, toupper, blank_special,
    ascii_isalnum, ascii_isspace, ascii_toupper, ascii_digit,
    ascii_upper_letter, ascii_lower, is_ascii,
    SPACE, APOSTROPHE, LPAREN, RPAREN, LETTER_S, UNDERSCORE in *.

Section Stages.
Variable ud : UnicodeData.

Abbreviation is_word := (Char.is_word ud).
Abbreviation is_space := (Char.is_space ud).

Lemma is_word_S : is_word LETTER_S = true.
Proof. reflexivity. Qed.

Lemma is_word_SPACE : is_word SPACE = false.
Proof. reflexivity. Qed.

Lemma is_space_SPACE : is_space SPACE = true.
Proof. reflexivity. Qed.

Lemma ascii_space_not_word c :
  is_ascii c = true -> is_space c = true -> is_word c = false.
Proof. unfold_char. intros Ha Hs. rewrite Ha in *. cmpN. Qed.

Lemma ascii_space_not_S c :
  is_ascii c = true -> is_space c = true -> (c =? LETTER_S) = false.
Proof. unfold_char. intros Ha Hs. rewrite Ha in *. cmpN. Qed.

Lemma is_word_blank_special c : is_word (blank_special ud c) = is_word c.
Proof.
  unfold blank_special.
  destruct (is_word c) eqn:Hw; simpl; [exact Hw|].
  destruct (is_space c); [exact Hw | reflexivity].
Qed.

Lemma blank_special_is_S c :
  (blank_special ud c =? LETTER_S) = (c =? LETTER_S).
Proof.
  unfold blank_special.
  destruct (N.eqb_spec c LETTER_S) as [->|Hne].
  - reflexivity.
  - destruct (is_word c || is_space c); [now apply N.eqb_neq | reflexivity].
Qed.

(** Induction two code points at a time, for the scans that look one
    code point ahead. *)
Lemma list_pair_ind {A} (P : list A -> Prop) :
  P [] -> (forall a, P [a]) ->
  (forall a b r, P r -> P (b :: r) -> P (a :: b :: r)) ->
  forall l, P l.
Proof.
  intros Hnil Hone Hstep l.
  enough (H : P l /\ forall a, P (a :: l)) by apply H.
  induction l as [|b r [IHr IHbr]]; split; auto.
Qed.

(** *** Every stage keeps or blanks code points *)

Lemma Forall_sub_parens (P : N -> Prop) b s :
  Forall P s -> Forall P (sub_parens b s).
Proof.
  intros H. revert b. induction H as [|c r Hc Hr IH]; intros b; simpl; [constructor|].
  destruct b.
  - destruct (c =? RPAREN); apply IH.
  - destruct ((c =? LPAREN) && existsb (N.eqb RPAREN) r); [apply IH|].
    constructor; [exact Hc | apply IH].
Qed.

Lemma Forall_sub_apos_s (P : N -> Prop) pw s :
  Forall P s -> Forall P (sub_apos_s ud pw s).
Proof.
  revert pw. induction s as [|a|a b r IHr IHbr] using list_pair_ind; intros pw H.
  - constructor.
  - exact H.
  - cbn [sub_apos_s].
    destruct (pw && (a =? APOSTROPHE) && (b =? LETTER_S) && negb (head_is_word ud r)).
    + apply IHr. inversion H as [|? ? _ H']; inversion H'; assumption.
    + inversion H as [|? ? Ha H']; subst. constructor; [exact Ha | apply IHbr, H'].
Qed.

Lemma Forall_sub_s (P : N -> Prop) pw s :
  Forall P s -> Forall P (sub_s ud pw s).
Proof.
  intros H. revert pw. induction H as [|a r Ha Hr IH]; intros pw; simpl; [constructor|].
  destruct (negb pw && (a =? LETTER_S) && negb (head_is_word ud r)); [apply IH|].
  constructor; [exact Ha | apply IH].
Qed.

Lemma Forall_ascii_only (P : N -> Prop) s :
  Forall P s -> Forall P (ascii_only s).
Proof.
  intros H. unfold ascii_only. induction H as [|a r Ha Hr IH]; simpl; [constructor|].
  destruct (is_ascii a); [constructor|]; assumption.
Qed.

Lemma Forall_sub_special (P : N -> Prop) s :
  P SPACE -> Forall P s -> Forall P (sub_special ud s).
Proof.
  intros Hsp H. unfold sub_special. induction H as [|a r Ha Hr IH]; simpl; constructor; [|exact IH].
  unfold blank_special. destruct (is_word a || is_space a); assumption.
Qed.

Lemma Forall_sub_spaces (P : N -> Prop) b s :
  P SPACE -> Forall P s -> Forall P (sub_spaces ud b s).
Proof.
  intros Hsp H. revert b. induction H as [|a r Ha Hr IH]; intros b; simpl; [constructor|].
  destruct (is_space a).
  - destruct b; [apply IH | constructor; [exact Hsp | apply IH]].
  - constructor; [exact Ha | apply IH].
Qed.

Lemma Forall_lstrip (P : N -> Prop) s :
  Forall P s -> Forall P (lstrip ud s).
Proof.
  intros H. induction H as [|a r Ha Hr IH]; simpl; [constructor|].
  destruct (is_space a); [exact IH | constructor; assumption].
Qed.

Lemma Forall_rstrip (P : N -> Prop) s :
  Forall P s -> Forall P (rstrip ud s).
Proof.
  intros H. induction H as [|a r Ha Hr IH]; simpl; [constructor|].
  destruct (rstrip ud r) as [|d r'].
  - destruct (is_space a); constructor; [exact Ha | constructor].
  - constructor; assumption.
Qed.

Lemma Forall_finish (P : N -> Prop) s :
  P SPACE -> Forall P s -> Forall P (finish ud s).
Proof.
  intros Hsp H. unfold finish, strip.
  apply Forall_rstrip, Forall_lstrip, Forall_sub_spaces, Forall_sub_special, Forall_ascii_only;
    assumption.
Qed.

(** The result of [finish] is ASCII, made of word characters and SPACE. *)
Lemma finish_ascii s : Forall (fun c => is_ascii c = true) (finish ud s).
Proof.
  unfold finish, strip.
  apply Forall_rstrip, Forall_lstrip, Forall_sub_spaces, Forall_sub_special; try reflexivity.
  unfold ascii_only. apply List.Forall_forall. intros c Hc.
  apply List.filter_In in Hc. apply Hc.
Qed.

Lemma sub_special_word_or_space s :
  Forall (fun c => is_word c = true \/ is_space c = true) (sub_special ud s).
Proof.
  unfold sub_special. apply List.Forall_forall. intros c Hc.
  apply List.in_map_iff in Hc as (d & <- & _).
  unfold blank_special. destruct (is_word d) eqn:Hw; simpl; [now left|].
  destruct (is_space d) eqn:Hs; right; [exact Hs | reflexivity].
Qed.

Lemma sub_spaces_word_or_SPACE b s :
  Forall (fun c => is_word c = true \/ is_space c = true) s ->
  Forall (fun c => is_word c = true \/ c = SPACE) (sub_spaces ud b s).
Proof.
  intros H. revert b. induction H as [|a r Ha Hr IH]; intros b; simpl; [constructor|].
  destruct (is_space a) eqn:Hs.
  - destruct b; [apply IH | constructor; [now right | apply IH]].
  - constructor; [|apply IH]. destruct Ha as [Ha|Ha]; [now left | congruence].
Qed.

Lemma finish_word_or_SPACE s :
  Forall (fun c => is_word c = true \/ c = SPACE) (finish ud s).
Proof.
  unfold finish, strip.
  apply Forall_rstrip, Forall_lstrip, sub_spaces_word_or_SPACE, sub_special_word_or_space.
Qed.

(** *** White space after [finish] *)

Lemma single_spaced_sub_spaces b s : single_spaced ud b (sub_spaces ud b s) = true.
Proof.
  revert b. induction s as [|c r IH]; intros b; simpl; [reflexivity|].
  destruct (is_space c) eqn:Hs.
  - destruct b; [apply IH|]. simpl. apply IH.
  - simpl. rewrite Hs. apply IH.
Qed.

Lemma single_spaced_weaken b s :
  single_spaced ud b s = true -> single_spaced ud false s = true.
Proof.
  destruct s as [|c r]; simpl; [reflexivity|].
  destruct (is_space c); [|trivial].
  destruct b; simpl; [|trivial].
  rewrite andb_false_r. discriminate.
Qed.

Lemma single_spaced_lstrip s :
  single_spaced ud false s = true -> single_spaced ud false (lstrip ud s) = true.
Proof.
  induction s as [|c r IH]; simpl; [reflexivity|].
  destruct (is_space c) eqn:Hs.
  - intros H. apply andb_prop in H as [_ H]. apply IH. eapply single_spaced_weaken, H.
  - intros H. simpl. rewrite Hs. exact H.
Qed.

Lemma single_spaced_rstrip b s :
  single_spaced ud b s = true -> single_spaced ud b (rstrip ud s) = true.
Proof.
  revert b. induction s as [|c r IH]; intros b; simpl; [reflexivity|].
  destruct (is_space c) eqn:Hs.
  - intros H. apply andb_prop in H as [H1 H2]. specialize (IH _ H2).
    destruct (rstrip ud r) as [|d r']; [reflexivity|].
    cbn [single_spaced]. rewrite Hs, H1. exact IH.
  - intros H. specialize (IH _ H).
    destruct (rstrip ud r) as [|d r']; cbn [single_spaced]; rewrite Hs; [reflexivity | exact IH].
Qed.

Lemma sub_spaces_fixed b s :
  single_spaced ud b s = true -> sub_spaces ud b s = s.
Proof.
  revert b. induction s as [|c r IH]; intros b; simpl; [reflexivity|].
  destruct (is_space c) eqn:Hs.
  - intros H. apply andb_prop in H as [H1 H2]. apply andb_prop in H1 as [Hc Hb].
    apply N.eqb_eq in Hc. destruct b; [discriminate|].
    rewrite (IH _ H2). now subst c.
  - intros H. now rewrite (IH _ H).
Qed.

Lemma finish_single_spaced s : single_spaced ud false (finish ud s) = true.
Proof.
  unfold finish, strip.
  apply single_spaced_rstrip, single_spaced_lstrip, single_spaced_sub_spaces.
Qed.

(** *** [strip] is idempotent *)

Lemma lstrip_head s :
  match lstrip ud s with [] => True | c :: _ => is_space c = false end.
Proof.
  induction s as [|c r IH]; simpl; [exact I|].
  destruct (is_space c) eqn:Hs; [exact IH | exact Hs].
Qed.

Lemma lstrip_fixed s :
  match s with [] => True | c :: _ => is_space c = false end -> lstrip ud s = s.
Proof. destruct s as [|c r]; simpl; [reflexivity|]. now intros ->. Qed.

Lemma rstrip_head s :
  match s with [] => True | c :: _ => is_space c = false end ->
  match rstrip ud s with [] => True | c :: _ => is_space c = false end.
Proof.
  destruct s as [|c r]; simpl; [trivial|]. intros Hs.
  destruct (rstrip ud r); [rewrite Hs; simpl; exact Hs | exact Hs].
Qed.

Lemma rstrip_rstrip s : rstrip ud (rstrip ud s) = rstrip ud s.
Proof.
  induction s as [|c r IH]; simpl; [reflexivity|].
  destruct (rstrip ud r) as [|d r'] eqn:Hr.
  - destruct (is_space c) eqn:Hs; simpl; [reflexivity | now rewrite Hs].
  - cbn [rstrip] in *. fold (rstrip ud) in *. now rewrite IH.
Qed.

Lemma strip_strip s : strip ud (strip ud s) = strip ud s.
Proof.
  unfold strip.
  rewrite (lstrip_fixed (rstrip ud (lstrip ud s))).
  - apply rstrip_rstrip.
  - apply rstrip_head, lstrip_head.
Qed.

Lemma finish_stripped s : strip ud (finish ud s) = finish ud s.
Proof. unfold finish. apply strip_strip. Qed.

(** *** Stages that leave a cleaned string alone *)

Lemma strip_accents_ascii s :
  Forall (fun c => is_ascii c = true) s -> strip_accents ud s = s.
Proof.
  unfold strip_accents. induction 1 as [|c r Hc Hr IH]; simpl; [reflexivity|].
  unfold decomposition at 1. rewrite Hc. simpl.
  unfold combining at 1. rewrite Hc. simpl. now rewrite IH.
Qed.

Lemma upper_ascii s :
  Forall (fun c => is_ascii c = true) s -> upper ud s = map ascii_toupper s.
Proof.
  unfold upper. induction 1 as [|c r Hc Hr IH]; simpl; [reflexivity|].
  unfold toupper at 1. rewrite Hc. simpl. now rewrite IH.
Qed.

Lemma ascii_toupper_fixed c : ascii_lower c = false -> ascii_toupper c = c.
Proof. unfold ascii_toupper. now intros ->. Qed.

Lemma ascii_toupper_not_lower c : ascii_lower (ascii_toupper c) = false.
Proof. unfold_char. cmpN. Qed.

Lemma ascii_toupper_ascii c : is_ascii c = true -> is_ascii (ascii_toupper c) = true.
Proof. unfold_char. cmpN. Qed.

Lemma upper_fixed s :
  Forall (fun c => is_ascii c = true) s ->
  Forall (fun c => ascii_lower c = false) s ->
  upper ud s = s.
Proof.
  intros Ha Hl. rewrite (upper_ascii s Ha).
  induction Hl as [|c r Hc Hr IH]; simpl; [reflexivity|].
  inversion Ha; subst. rewrite (ascii_toupper_fixed c Hc). f_equal. now apply IH.
Qed.

Lemma sub_parens_fixed s :
  Forall (fun c => c <> LPAREN) s -> sub_parens false s = s.
Proof.
  induction 1 as [|c r Hc Hr IH]; simpl; [reflexivity|].
  apply N.eqb_neq in Hc. rewrite Hc. simpl. now rewrite IH.
Qed.

Lemma has_apos_S_none pw s :
  Forall (fun c => c <> APOSTROPHE) s -> has_apos_S ud pw s = false.
Proof.
  revert pw. induction s as [|a|a b r IHr IHbr] using list_pair_ind; intros pw H;
    try reflexivity.
  cbn [has_apos_S]. inversion H as [|? ? Ha H']; subst.
  apply N.eqb_neq in Ha. rewrite Ha, andb_false_r. simpl. now apply IHbr.
Qed.

Lemma sub_apos_s_fixed pw s :
  has_apos_S ud pw s = false -> sub_apos_s ud pw s = s.
Proof.
  revert pw. induction s as [|a|a b r IHr IHbr] using list_pair_ind; intros pw H;
    try reflexivity.
  cbn [has_apos_S] in H. cbn [sub_apos_s].
  apply orb_false_elim in H as [-> H]. f_equal. now apply IHbr.
Qed.

Lemma sub_s_fixed pw s :
  has_word_S ud pw s = false -> sub_s ud pw s = s.
Proof.
  revert pw. induction s as [|a r IH]; intros pw H; simpl in *; [reflexivity|].
  apply orb_false_elim in H as [-> H]. f_equal. now apply IH.
Qed.

Lemma ascii_only_fixed s :
  Forall (fun c => is_ascii c = true) s -> ascii_only s = s.
Proof.
  unfold ascii_only. induction 1 as [|c r Hc Hr IH]; simpl; [reflexivity|].
  now rewrite Hc, IH.
Qed.

Lemma sub_special_fixed s :
  Forall (fun c => is_word c = true \/ c = SPACE) s -> sub_special ud s = s.
Proof.
  unfold sub_special. induction 1 as [|c r Hc Hr IH]; simpl; [reflexivity|].
  rewrite IH. f_equal. unfold blank_special.
  destruct Hc as [->| ->]; reflexivity.
Qed.

Lemma word_or_SPACE_not_paren c :
  is_ascii c = true -> is_word c = true \/ c = SPACE -> c <> LPAREN.
Proof. unfold_char. intros Ha [Hw| ->]; [|discriminate]. rewrite Ha in Hw. cmpN. Qed.

Lemma word_or_SPACE_not_apostrophe c :
  is_ascii c = true -> is_word c = true \/ c = SPACE -> c <> APOSTROPHE.
Proof. unfold_char. intros Ha [Hw| ->]; [|discriminate]. rewrite Ha in Hw. cmpN. Qed.

Lemma prepare_fixed y :
  Forall (fun c => is_ascii c = true) y ->
  Forall (fun c => ascii_lower c = false) y ->
  Forall (fun c => is_word c = true \/ c = SPACE) y ->
  prepare ud y = y.
Proof.
  intros Ha Hl Hw. unfold prepare.
  rewrite (strip_accents_ascii y Ha), (upper_fixed y Ha Hl).
  apply sub_parens_fixed.
  apply List.Forall_forall. intros c Hc.
  apply word_or_SPACE_not_paren.
  - eapply List.Forall_forall in Ha; eauto.
  - eapply List.Forall_forall in Hw; eauto.
Qed.

Lemma finish_fixed y :
  Forall (fun c => is_ascii c = true) y ->
  Forall (fun c => is_word c = true \/ c = SPACE) y ->
  single_spaced ud false y = true ->
  strip ud y = y ->
  finish ud y = y.
Proof.
  intros Ha Hw Hsp Hst. unfold finish.
  now rewrite (ascii_only_fixed y Ha), (sub_special_fixed y Hw), (sub_spaces_fixed false y Hsp).
Qed.

(** A string of the shape [finish] produces, upper-cased and with no
    whole-word S, is a fixed point of [clean_name]. *)
Lemma clean_name_fixed y :
  Forall (fun c => is_ascii c = true) y ->
  Forall (fun c => ascii_lower c = false) y ->
  Forall (fun c => is_word c = true \/ c = SPACE) y ->
  single_spaced ud false y = true ->
  strip ud y = y ->
  has_word_S ud false y = false ->
  clean_name ud y = y.
Proof.
  intros Ha Hl Hw Hsp Hst HS.
  assert (Hprep : prepare ud y = y).
  { unfold prepare. rewrite (strip_accents_ascii y Ha), (upper_fixed y Ha Hl).
    apply sub_parens_fixed.
    apply List.Forall_forall. intros c Hc.
    apply word_or_SPACE_not_paren.
    - eapply List.Forall_forall in Ha; eauto.
    - eapply List.Forall_forall in Hw; eauto. }
  unfold clean_name. rewrite Hprep.
  rewrite (sub_apos_s_fixed false y).
  2:{ apply has_apos_S_none. apply List.Forall_forall. intros c Hc.
      apply word_or_SPACE_not_apostrophe.
      - eapply List.Forall_forall in Ha; eauto.
      - eapply List.Forall_forall in Hw; eauto. }
  rewrite (sub_s_fixed false y HS).
  unfold finish.
  rewrite (ascii_only_fixed y Ha), (sub_special_fixed y Hw), (sub_spaces_fixed false y Hsp).
  exact Hst.
Qed.

(** *** Whole-word S through the stages *)

Lemma head_is_word_sub_s_true s :
  head_is_word ud s = true -> head_is_word ud (sub_s ud true s) = true.
Proof. destruct s as [|c r]; simpl; trivial. Qed.

(** After [\bS\b] has been removed, it matches nowhere. *)
Lemma has_word_S_sub_s s :
  (forall pw, has_word_S ud pw (sub_s ud pw s) = false) /\
  (head_is_word ud s = false -> has_word_S ud false (sub_s ud true s) = false).
Proof.
  induction s as [|a r [IH1 IH2]]; [split; reflexivity|].
  split.
  - intros pw. cbn [sub_s].
    destruct (negb pw && (a =? LETTER_S) && negb (head_is_word ud r)) eqn:Hm.
    + apply andb_prop in Hm as [Hm Hr]. apply andb_prop in Hm as [Hpw Ha].
      destruct pw; [discriminate|]. apply IH2. now destruct (head_is_word ud r).
    + cbn [has_word_S]. rewrite IH1, orb_false_r.
      destruct pw; [reflexivity|]. simpl in *.
      destruct (N.eqb_spec a LETTER_S) as [->|]; [|reflexivity]. simpl in *.
      apply negb_false_iff in Hm. rewrite is_word_S.
      now rewrite (head_is_word_sub_s_true r Hm).
  - cbn [head_is_word]. intros Ha. cbn [sub_s]. simpl.
    cbn [has_word_S]. rewrite Ha, IH1, orb_false_r. simpl.
    destruct (N.eqb_spec a LETTER_S) as [->|]; [|reflexivity].
    rewrite is_word_S in Ha. discriminate.
Qed.

Lemma head_is_word_sub_special s :
  head_is_word ud (sub_special ud s) = head_is_word ud s.
Proof. destruct s as [|c r]; simpl; [reflexivity | apply is_word_blank_special]. Qed.

Lemma has_word_S_sub_special pw s :
  has_word_S ud pw (sub_special ud s) = has_word_S ud pw s.
Proof.
  revert pw. induction s as [|a r IH]; intros pw; [reflexivity|].
  cbn [sub_special map has_word_S]. fold (sub_special ud r).
  now rewrite blank_special_is_S, is_word_blank_special, head_is_word_sub_special, IH.
Qed.

Lemma head_is_word_sub_spaces s :
  Forall (fun c => is_ascii c = true) s ->
  head_is_word ud (sub_spaces ud false s) = head_is_word ud s.
Proof.
  destruct 1 as [|c r Hc Hr]; simpl; [reflexivity|].
  destruct (is_space c) eqn:Hs; simpl; [|reflexivity].
  now rewrite (ascii_space_not_word c Hc Hs).
Qed.

Lemma has_word_S_sub_spaces b pw s :
  Forall (fun c => is_ascii c = true) s ->
  (b = true -> pw = false) ->
  has_word_S ud pw (sub_spaces ud b s) = has_word_S ud pw s.
Proof.
  intros H. revert b pw. induction H as [|c r Hc Hr IH]; intros b pw Hb; [reflexivity|].
  cbn [sub_spaces has_word_S].
  destruct (is_space c) eqn:Hs.
  - rewrite (ascii_space_not_S c Hc Hs), andb_false_r, (ascii_space_not_word c Hc Hs).
    simpl. destruct b.
    + rewrite (Hb eq_refl). now apply IH.
    + cbn [has_word_S]. rewrite is_word_SPACE. simpl.
      rewrite andb_false_r. simpl. now apply IH.
  - cbn [has_word_S]. rewrite (head_is_word_sub_spaces r Hr). f_equal.
    apply IH. discriminate.
Qed.

Lemma has_word_S_lstrip s :
  Forall (fun c => is_ascii c = true) s ->
  has_word_S ud false (lstrip ud s) = has_word_S ud false s.
Proof.
  induction 1 as [|c r Hc Hr IH]; [reflexivity|].
  cbn [lstrip]. destruct (is_space c) eqn:Hs; [|reflexivity].
  cbn [has_word_S].
  now rewrite (ascii_space_not_S c Hc Hs), andb_false_r, (ascii_space_not_word c Hc Hs).
Qed.

Lemma head_is_word_rstrip s :
  Forall (fun c => is_ascii c = true) s ->
  head_is_word ud (rstrip ud s) = head_is_word ud s.
Proof.
  destruct 1 as [|c r Hc Hr]; [reflexivity|].
  cbn [rstrip]. destruct (rstrip ud r); [|reflexivity].
  destruct (is_space c) eqn:Hs; [|reflexivity].
  simpl. now rewrite (ascii_space_not_word c Hc Hs).
Qed.

Lemma has_word_S_rstrip pw s :
  Forall (fun c => is_ascii c = true) s ->
  has_word_S ud pw (rstrip ud s) = has_word_S ud pw s.
Proof.
  intros H. revert pw. induction H as [|c r Hc Hr IH]; intros pw; [reflexivity|].
  cbn [has_word_S]. rewrite <- (IH (is_word c)), <- (head_is_word_rstrip r Hr).
  cbn [rstrip]. destruct (rstrip ud r) as [|d r'] eqn:Hrs; [|reflexivity].
  destruct (is_space c) eqn:Hs; [|reflexivity].
  simpl. now rewrite (ascii_space_not_S c Hc Hs), andb_false_r.
Qed.

Lemma has_word_S_finish s :
  Forall (fun c => is_ascii c = true) s ->
  has_word_S ud false (finish ud s) = has_word_S ud false s.
Proof.
  intros Ha. unfold finish, strip.
  rewrite (ascii_only_fixed s Ha).
  assert (H1 : Forall (fun c => is_ascii c = true) (sub_special ud s))
    by (apply Forall_sub_special; [reflexivity | exact Ha]).
  assert (H2 : Forall (fun c => is_ascii c = true) (sub_spaces ud false (sub_special ud s)))
    by (apply Forall_sub_spaces; [reflexivity | exact H1]).
  rewrite has_word_S_rstrip by (apply Forall_lstrip, H2).
  rewrite has_word_S_lstrip by exact H2.
  rewrite has_word_S_sub_spaces by (trivial || discriminate).
  apply has_word_S_sub_special.
Qed.

(** *** The shape of [clean_name]'s result *)

Lemma upper_not_lower s :
  upper_sane ud -> Forall (fun c => ascii_lower c = false) (upper ud s).
Proof.
  intros Hud. unfold upper. apply List.Forall_forall. intros d Hd.
  apply List.in_flat_map in Hd as (c & _ & Hd).
  unfold toupper in Hd. destruct (is_ascii c) eqn:Hc.
  - destruct Hd as [<-|[]]. apply ascii_toupper_not_lower.
  - eapply Hud; eauto.
Qed.

Lemma upper_ascii_not_lower s :
  Forall (fun c => is_ascii c = true) s ->
  Forall (fun c => ascii_lower c = false) (upper ud s).
Proof.
  intros Ha. rewrite (upper_ascii s Ha). apply List.Forall_forall. intros d Hd.
  apply List.in_map_iff in Hd as (c & <- & _). apply ascii_toupper_not_lower.
Qed.

Lemma clean_name_not_lower s :
  Forall (fun c => ascii_lower c = false) (upper ud (strip_accents ud s)) ->
  Forall (fun c => ascii_lower c = false) (clean_name ud s).
Proof.
  intros H. unfold clean_name, prepare.
  apply Forall_finish; [reflexivity|].
  apply Forall_sub_s, Forall_sub_apos_s, Forall_sub_parens, H.
Qed.

(** Where the upper-cased text has no ASCII lower-case letter, a second
    [clean_name] changes nothing unless the first result has a whole-word S. *)
Lemma clean_name_twice s :
  Forall (fun c => ascii_lower c = false) (upper ud (strip_accents ud s)) ->
  has_word_S ud false (clean_name ud s) = false ->
  clean_name ud (clean_name ud s) = clean_name ud s.
Proof.
  intros Hl HS. apply clean_name_fixed.
  - apply finish_ascii.
  - apply clean_name_not_lower, Hl.
  - apply finish_word_or_SPACE.
  - apply finish_single_spaced.
  - apply finish_stripped.
  - exact HS.
Qed.

(** Without the possessive rule a second application changes nothing. *)
Lemma address_clean_name_twice s :
  Forall (fun c => ascii_lower c = false) (upper ud (strip_accents ud s)) ->
  address_clean_name ud (address_clean_name ud s) = address_clean_name ud s.
Proof.
  intros Hl. set (y := address_clean_name ud s).
  assert (Ha : Forall (fun c => is_ascii c = true) y) by apply finish_ascii.
  assert (Hw : Forall (fun c => is_word c = true \/ c = SPACE) y)
    by apply finish_word_or_SPACE.
  assert (Hlow : Forall (fun c => ascii_lower c = false) y).
  { apply Forall_finish; [reflexivity|]. apply Forall_sub_parens, Hl. }
  unfold address_clean_name at 1. rewrite (prepare_fixed y Ha Hlow Hw).
  apply finish_fixed; [exact Ha | exact Hw | apply finish_single_spaced | apply finish_stripped].
Qed.

(** On ASCII text the first result never has a whole-word S. *)
Lemma clean_name_ascii_no_word_S s :
  Forall (fun c => is_ascii c = true) s ->
  has_word_S ud false (clean_name ud s) = false.
Proof.
  intros Ha. unfold clean_name.
  rewrite has_word_S_finish.
  - apply has_word_S_sub_s.
  - apply Forall_sub_s, Forall_sub_apos_s. unfold prepare.
    apply Forall_sub_parens. rewrite (strip_accents_ascii s Ha), (upper_ascii s Ha).
    apply List.Forall_forall. intros d Hd.
    apply List.in_map_iff in Hd as (c & <- & Hc).
    apply ascii_toupper_ascii. eapply List.Forall_forall in Ha; eauto.
Qed.

(** *** Counting the letter S *)

Lemma count_S_cons a s :
  count_S (a :: s) = ((if (LETTER_S =? a)%N then 1 else 0) + count_S s)%nat.
Proof. unfold count_S. cbn [List.filter]. now destruct (LETTER_S =? a). Qed.

Lemma sub_apos_s_step pw a b r :
  sub_apos_s ud pw (a :: b :: r) =
  if pw && (a =? APOSTROPHE) && (b =? LETTER_S) && negb (head_is_word ud r)
  then sub_apos_s ud true r
  else a :: sub_apos_s ud (is_word a) (b :: r).
Proof. reflexivity. Qed.

Lemma has_apos_S_step pw a b r :
  has_apos_S ud pw (a :: b :: r) =
  (pw && (a =? APOSTROPHE) && (b =? LETTER_S) && negb (head_is_word ud r))
  || has_apos_S ud (is_word a) (b :: r).
Proof. reflexivity. Qed.

Lemma count_S_sub_apos_s pw s :
  (count_S (sub_apos_s ud pw s) <= count_S s)%nat /\
  (has_apos_S ud pw s = true -> (count_S (sub_apos_s ud pw s) < count_S s)%nat).
Proof.
  revert pw. induction s as [|a|a b r IHr IHbr] using list_pair_ind; intros pw.
  - split; [reflexivity | discriminate].
  - split; [reflexivity | discriminate].
  - rewrite sub_apos_s_step, has_apos_S_step.
    destruct (pw && (a =? APOSTROPHE) && (b =? LETTER_S) && negb (head_is_word ud r)) eqn:Hm.
    + apply andb_prop in Hm as [Hm _]. apply andb_prop in Hm as [_ Hb].
      apply N.eqb_eq in Hb. subst b.
      rewrite (count_S_cons a), (count_S_cons LETTER_S). simpl.
      destruct (IHr true) as [Hle _]. split; [lia|]. intros _. lia.
    + rewrite (count_S_cons a (sub_apos_s _ _ _)), (count_S_cons a (b :: r)).
      destruct (IHbr (is_word a)) as [Hle Hlt]. rewrite orb_false_l.
      destruct (LETTER_S =? a); (split; [lia | intros H; specialize (Hlt H); lia]).
Qed.

Lemma count_S_sub_s pw s :
  (count_S (sub_s ud pw s) <= count_S s)%nat /\
  (has_word_S ud pw s = true -> (count_S (sub_s ud pw s) < count_S s)%nat).
Proof.
  revert pw. induction s as [|a r IH]; intros pw.
  - split; [reflexivity | discriminate].
  - cbn [sub_s has_word_S].
    destruct (negb pw && (a =? LETTER_S) && negb (head_is_word ud r)) eqn:Hm.
    + apply andb_prop in Hm as [Hm _]. apply andb_prop in Hm as [_ Ha].
      apply N.eqb_eq in Ha. subst a. rewrite (count_S_cons LETTER_S). simpl.
      destruct (IH true) as [Hle _]. split; [lia|]. intros _. lia.
    + rewrite (count_S_cons a (sub_s _ _ _)), (count_S_cons a r).
      destruct (IH (is_word a)) as [Hle Hlt]. rewrite orb_false_l.
      destruct (LETTER_S =? a); (split; [lia | intros H; specialize (Hlt H); lia]).
Qed.

Lemma count_S_ascii_only s : count_S (ascii_only s) = count_S s.
Proof.
  unfold ascii_only. induction s as [|a r IH]; [reflexivity|]. simpl.
  destruct (is_ascii a) eqn:Ha.
  - now rewrite !count_S_cons, IH.
  - rewrite count_S_cons, IH.
    destruct (N.eqb_spec LETTER_S a) as [<-|]; [discriminate | reflexivity].
Qed.

Lemma count_S_sub_special s : count_S (sub_special ud s) = count_S s.
Proof.
  unfold sub_special. induction s as [|a r IH]; [reflexivity|]. simpl.
  rewrite !count_S_cons, IH, (N.eqb_sym LETTER_S (blank_special ud a)), blank_special_is_S.
  now rewrite (N.eqb_sym a LETTER_S).
Qed.

Lemma count_S_space a s :
  is_ascii a = true -> is_space a = true -> count_S (a :: s) = count_S s.
Proof.
  intros Ha Hs. rewrite count_S_cons, N.eqb_sym. now rewrite (ascii_space_not_S a Ha Hs).
Qed.

Lemma count_S_sub_spaces b s :
  Forall (fun c => is_ascii c = true) s -> count_S (sub_spaces ud b s) = count_S s.
Proof.
  intros H. revert b. induction H as [|a r Ha Hr IH]; intros b; [reflexivity|].
  cbn [sub_spaces]. destruct (is_space a) eqn:Hs.
  - rewrite (count_S_space a r Ha Hs). destruct b; [apply IH|].
    rewrite (count_S_space SPACE); [apply IH | reflexivity | reflexivity].
  - now rewrite !count_S_cons, IH.
Qed.

Lemma count_S_lstrip s :
  Forall (fun c => is_ascii c = true) s -> count_S (lstrip ud s) = count_S s.
Proof.
  induction 1 as [|a r Ha Hr IH]; [reflexivity|].
  cbn [lstrip]. destruct (is_space a) eqn:Hs; [|reflexivity].
  now rewrite (count_S_space a r Ha Hs).
Qed.

Lemma count_S_rstrip s :
  Forall (fun c => is_ascii c = true) s -> count_S (rstrip ud s) = count_S s.
Proof.
  induction 1 as [|a r Ha Hr IH]; [reflexivity|].
  cbn [rstrip]. rewrite (count_S_cons a r), <- IH.
  destruct (rstrip ud r) as [|d r'].
  - destruct (is_space a) eqn:Hs; [|now rewrite count_S_cons].
    rewrite N.eqb_sym, (ascii_space_not_S a Ha Hs). reflexivity.
  - now rewrite (count_S_cons a).
Qed.

Lemma count_S_finish s : count_S (finish ud s) = count_S s.
Proof.
  unfold finish, strip.
  assert (H0 : Forall (fun c => is_ascii c = true) (ascii_only s)).
  { unfold ascii_only. apply List.Forall_forall. intros c Hc.
    apply List.filter_In in Hc. apply Hc. }
  assert (H1 : Forall (fun c => is_ascii c = true) (sub_special ud (ascii_only s)))
    by (apply Forall_sub_special; [reflexivity | exact H0]).
  assert (H2 : Forall (fun c => is_ascii c = true)
                 (sub_spaces ud false (sub_special ud (ascii_only s))))
    by (apply Forall_sub_spaces; [reflexivity | exact H1]).
  rewrite count_S_rstrip by (apply Forall_lstrip, H2).
  rewrite count_S_lstrip by exact H2.
  rewrite count_S_sub_spaces by exact H1.
  now rewrite count_S_sub_special, count_S_ascii_only.
Qed.

(** Where the possessive rule strips something, an S is lost for good. *)
Lemma clean_name_loses_S s :
  has_apos_S ud false (prepare ud s) || has_word_S ud false (prepare ud s) = true ->
  (count_S (clean_name ud s) < count_S (address_clean_name ud s))%nat.
Proof.
  intros H. unfold clean_name, address_clean_name. rewrite !count_S_finish.
  destruct (has_apos_S ud false (prepare ud s)) eqn:HQ.
  - destruct (count_S_sub_apos_s false (prepare ud s)) as [_ Hlt].
    destruct (count_S_sub_s false (sub_apos_s ud false (prepare ud s))) as [Hle _].
    specialize (Hlt HQ). lia.
  - simpl in H. rewrite (sub_apos_s_fixed false _ HQ).
    destruct (count_S_sub_s false (prepare ud s)) as [_ Hlt]. now apply Hlt.
Qed.

(** A whole-word S in the first result is removed by the second
    application. *)
Lemma clean_name_twice_differs s :
  Forall (fun c => ascii_lower c = false) (upper ud (strip_accents ud s)) ->
  has_word_S ud false (clean_name ud s) = true ->
  clean_name ud (clean_name ud s) <> clean_name ud s.
Proof.
  intros Hl HS Heq.
  set (y := clean_name ud s) in *.
  assert (Ha : Forall (fun c => is_ascii c = true) y) by apply finish_ascii.
  assert (Hw : Forall (fun c => is_word c = true \/ c = SPACE) y)
    by apply finish_word_or_SPACE.
  assert (Hprep : prepare ud y = y)
    by (apply prepare_fixed; [exact Ha | apply clean_name_not_lower, Hl | exact Hw]).
  assert (Haddr : address_clean_name ud y = y).
  { unfold address_clean_name. rewrite Hprep.
    apply finish_fixed; [exact Ha | exact Hw | apply finish_single_spaced | apply finish_stripped]. }
  pose proof (clean_name_loses_S y) as Hlt.
  rewrite Hprep, HS, orb_true_r, Haddr, Heq in Hlt.
  specialize (Hlt eq_refl). lia.
Qed.

(** *** The possessive rule where it has nothing to strip *)

Lemma clean_name_without_possessive s :
  has_apos_S ud false (prepare ud s) = false ->
  has_word_S ud false (prepare ud s) = false ->
  clean_name ud s = address_clean_name ud s.
Proof.
  intros HQ HR. unfold clean_name, address_clean_name.
  now rewrite (sub_apos_s_fixed false _ HQ), (sub_s_fixed false _ HR).
Qed.

(** *** Tokens *)

Lemma split_from_tokens tok s :
  Forall (fun c => is_space c = false) tok ->
  Forall (token_ok ud) (split_from ud tok s).
Proof.
  revert tok. induction s as [|c r IH]; intros tok Htok; simpl.
  - destruct tok; constructor; [|constructor]. split; [discriminate | exact Htok].
  - destruct (is_space c) eqn:Hs.
    + destruct tok as [|d tok'].
      * apply IH. constructor.
      * constructor; [split; [discriminate | exact Htok] | apply IH; constructor].
    + apply IH. apply Forall_app. split; [exact Htok | repeat constructor; exact Hs].
Qed.

Lemma split_tokens s : Forall (token_ok ud) (split ud s).
Proof. apply split_from_tokens. constructor. Qed.

Lemma split_from_nonempty tok s : tok <> [] -> split_from ud tok s <> [].
Proof.
  revert tok. induction s as [|c r IH]; intros tok Htok; simpl.
  - now destruct tok.
  - destruct (is_space c).
    + now destruct tok.
    + apply IH. now destruct tok.
Qed.

Lemma rstrip_fixed_tail c r :
  rstrip ud (c :: r) = c :: r -> rstrip ud r = r /\ (is_space c = true -> r <> []).
Proof.
  cbn [rstrip]. destruct (rstrip ud r) as [|d r'] eqn:Hr.
  - destruct (is_space c); [discriminate|]. intros [= <-]. split; [reflexivity | discriminate].
  - intros [= <-]. split; [reflexivity | discriminate].
Qed.

(** On a text whose white space is single SPACE code points between
    tokens, [split] undoes [join]. *)
Lemma join_split_from tok s :
  rstrip ud s = s ->
  single_spaced ud false s = true ->
  (tok = [] -> head_is_space ud s = false) ->
  join [SPACE] (split_from ud tok s) = tok ++ s.
Proof.
  revert tok. induction s as [|c r IH]; intros tok Hr Hsp Hhead.
  - simpl. destruct tok; [reflexivity | now rewrite app_nil_r].
  - destruct (rstrip_fixed_tail c r Hr) as [Hr' Hlast].
    cbn [split_from single_spaced] in *.
    destruct (is_space c) eqn:Hc.
    + apply andb_prop in Hsp as [Hc' Hsp]. apply andb_prop in Hc' as [Hc' _].
      apply N.eqb_eq in Hc'. subst c.
      destruct tok as [|t tok']; [specialize (Hhead eq_refl); cbn in Hhead; congruence|].
      specialize (Hlast eq_refl).
      destruct r as [|d r']; [congruence|].
      assert (Hd : is_space d = false).
      { cbn [single_spaced] in Hsp. destruct (is_space d); [|reflexivity].
        now rewrite andb_false_r in Hsp. }
      assert (Hrest : join [SPACE] (split_from ud [] (d :: r')) = d :: r').
      { apply (IH []); [exact Hr' | eapply single_spaced_weaken, Hsp |].
        intros _. cbn. exact Hd. }
      assert (Hne : split_from ud [] (d :: r') <> []).
      { cbn [split_from]. rewrite Hd. now apply split_from_nonempty. }
      cbn [join]. destruct (split_from ud [] (d :: r')) as [|u us]; [congruence|].
      now rewrite Hrest.
    + rewrite (IH (tok ++ [c]) Hr' Hsp).
      * now rewrite <- app_assoc.
      * intros H. now destruct tok.
Qed.

Lemma strip_fixed_inv s :
  strip ud s = s -> head_is_space ud s = false /\ rstrip ud s = s.
Proof.
  unfold strip. intros H. split.
  - rewrite <- H. pose proof (rstrip_head (lstrip ud s) (lstrip_head s)) as Hh.
    destruct (rstrip ud (lstrip ud s)); [reflexivity | exact Hh].
  - rewrite <- H at 1. rewrite rstrip_rstrip. exact H.
Qed.

Lemma join_split s :
  single_spaced ud false s = true -> strip ud s = s ->
  join [SPACE] (split ud s) = s.
Proof.
  intros Hsp Hst. destruct (strip_fixed_inv s Hst) as [Hh Hr].
  unfold split. now rewrite join_split_from.
Qed.
End Stages.

(** *** Worked texts *)

Example clean_name_macys :
  clean_name ucd_excerpt (cps "Macy's (Downtown)") = cps "MACY".
Proof. vm_compute. reflexivity. Qed.

Example clean_name_accents :
  clean_name ucd_excerpt ([67; 97; 102; 233] ++ cps "  & Bar!") = cps "CAFE BAR".
Proof. vm_compute. reflexivity. Qed.

Example clean_name_null : clean_name_value ucd_excerpt None = [].
Proof. reflexivity. Qed.

Example extract_prinmary_str_drops :
  extract_prinmary_str ucd_excerpt {[ cps "THE"; cps "SHOP" ]} (cps "THE COFFEE SHOP")
    = cps "COFFEE".
Proof. vm_compute. reflexivity. Qed.

Example extract_prinmary_str_short :
  extract_prinmary_str ucd_excerpt {[ cps "THE"; cps "SHOP" ]} (cps "THE QT SHOP")
    = cps "THE QT SHOP".
Proof. vm_compute. reflexivity. Qed.

(** The excerpt's upper-casing yields no ASCII lower-case letter. *)
Lemma ucd_excerpt_upper_sane : upper_sane ucd_excerpt.
Proof.
  intros c d Hc. unfold ucd_excerpt, excerpt_upper. cbn [ud_upper].
  unfold is_ascii in Hc. apply N.ltb_ge in Hc.
  repeat match goal with |- context [N.eqb ?a ?b] => destruct (N.eqb_spec a b) end;
    cbn; intros H; repeat (destruct H as [<-|H]; [try reflexivity|]); try contradiction.
  unfold ascii_lower. destruct (N.leb_spec 97 c), (N.leb_spec c 122); cbn; try reflexivity; lia.
Qed.

(** *** Claims about the Text Normalizer *)

(** C6, as stated, fails: an S glued to a non-ASCII letter (here S followed by
    the ideograph U+5E97) survives the possessive rule, is left alone once
    the ideograph is dropped, and is removed by a second application:
    [clean_name] maps the text to S and S to the empty string. *)
Lemma clean_name_not_idempotent :
  clean_name ucd_excerpt [83; 24215] = cps "S" /\
  clean_name ucd_excerpt (clean_name ucd_excerpt [83; 24215]) = [] /\
  clean_name ucd_excerpt (clean_name ucd_excerpt [83; 24215])
    <> clean_name ucd_excerpt [83; 24215].
Proof. vm_compute. repeat split. discriminate. Qed.

(** C6, amended: [clean_name (clean_name x) = clean_name x] for every ASCII
    text [x]; in general it holds exactly for the texts whose normalised
    form has no whole-word S (no match of [\bS\b]); and the copy of
    [clean_name] without the possessive rule is idempotent on every text. *)
Theorem clean_name_idempotent (ud : UnicodeData) (x : pystr) :
  (Forall (fun c => is_ascii c = true) x ->
     clean_name ud (clean_name ud x) = clean_name ud x) /\
  (upper_sane ud ->
     (clean_name ud (clean_name ud x) = clean_name ud x <->
      has_word_S ud false (clean_name ud x) = false)) /\
  (upper_sane ud ->
     address_clean_name ud (address_clean_name ud x) = address_clean_name ud x).
Proof.
  split; [|split].
  - intros Ha. apply clean_name_twice.
    + rewrite (strip_accents_ascii ud x Ha). apply upper_ascii_not_lower, Ha.
    + apply clean_name_ascii_no_word_S, Ha.
  - intros Hud. pose proof (upper_not_lower ud (strip_accents ud x) Hud) as Hl. split.
    + intros Heq. destruct (has_word_S ud false (clean_name ud x)) eqn:HS; [|reflexivity].
      exfalso. eapply clean_name_twice_differs; eauto.
    + intros HS. now apply clean_name_twice.
  - intros Hud. apply address_clean_name_twice, upper_not_lower, Hud.
Qed.

(** C7, as stated, fails: on MACY'S the Name Matcher's [clean_name] strips
    the possessive and yields MACY, the Address Scorer's keeps the S and
    yields MACY S. *)
Lemma address_clean_name_differs :
  clean_name ucd_excerpt (cps "Macy's") = cps "MACY" /\
  address_clean_name ucd_excerpt (cps "Macy's") = cps "MACY S" /\
  address_clean_name ucd_excerpt (cps "Macy's") <> clean_name ucd_excerpt (cps "Macy's").
Proof. vm_compute. repeat split. discriminate. Qed.

(** C7, amended: the Address Scorer's [clean_name] is the Name Matcher's
    without step (4); the two produce equal output exactly on the texts in
    which, after steps (1) to (3), neither ['S] nor S occurs as a whole
    word. *)
Theorem address_clean_name_agrees (ud : UnicodeData) (x : pystr) :
  address_clean_name ud x = finish ud (prepare ud x) /\
  (address_clean_name ud x = clean_name ud x <->
   has_apos_S ud false (prepare ud x) = false /\
   has_word_S ud false (prepare ud x) = false).
Proof.
  split; [reflexivity|]. split.
  - intros Heq.
    destruct (has_apos_S ud false (prepare ud x) || has_word_S ud false (prepare ud x)) eqn:H.
    + pose proof (clean_name_loses_S ud x H) as Hlt. rewrite Heq in Hlt. lia.
    + now apply orb_false_elim in H.
  - intros [HQ HR]. symmetry. now apply clean_name_without_possessive.
Qed.

(** C8: [extract_prinmary_str] splits its argument on white space (the
    tokens are non-empty and free of white space, and on a normalised text
    they are the words between the single spaces), drops the tokens of the
    exclusion set, returns its argument unchanged when one token shorter than
    three code points remains or none does, and otherwise returns the
    remaining tokens joined by single spaces. *)
Theorem extract_prinmary_str_cases
    (ud : UnicodeData) (NON_PRIMARY_TOKENS : gset pystr) (name : pystr) :
  Forall (fun t => t <> [] /\ Forall (fun c => is_space ud c = false) t) (split ud name) /\
  (forall x, name = clean_name ud x -> join [SPACE] (split ud name) = name) /\
  core_tokens ud NON_PRIMARY_TOKENS name
    = filter (fun t => t ∉ NON_PRIMARY_TOKENS) (split ud name) /\
  (forall t, core_tokens ud NON_PRIMARY_TOKENS name = [t] -> (length t < 3)%nat ->
     extract_prinmary_str ud NON_PRIMARY_TOKENS name = name) /\
  (core_tokens ud NON_PRIMARY_TOKENS name = [] ->
     extract_prinmary_str ud NON_PRIMARY_TOKENS name = name) /\
  (forall t, core_tokens ud NON_PRIMARY_TOKENS name = [t] -> (3 <= length t)%nat ->
     extract_prinmary_str ud NON_PRIMARY_TOKENS name = t) /\
  ((2 <= length (core_tokens ud NON_PRIMARY_TOKENS name))%nat ->
     extract_prinmary_str ud NON_PRIMARY_TOKENS name
       = join [SPACE] (core_tokens ud NON_PRIMARY_TOKENS name)).
Proof.
  split; [apply split_tokens|].
  split.
  { intros x ->. apply join_split; [apply finish_single_spaced | apply finish_stripped]. }
  split; [reflexivity|].
  unfold extract_prinmary_str.
  repeat split.
  - intros t -> Hlen. simpl. apply Nat.ltb_lt in Hlen. now rewrite Hlen.
  - now intros ->.
  - intros t -> Hlen. simpl. apply Nat.ltb_ge in Hlen. now rewrite Hlen.
  - intros Hlen. destruct (core_tokens ud NON_PRIMARY_TOKENS name) as [|t [|u r]];
      simpl in *; try lia. reflexivity.
Qed.
End TextFacts.

(** ** The Name Matcher's selection *)
Module NameMatcherFacts.
Import Char Text NameMatcher EarlierMatcher Demo.
Open Scope Q_scope.

Lemma Qltb_lt a b : Qltb a b = true <-> a < b.
Proof.
  unfold Qltb. rewrite negb_true_iff. split.
  - intros H. apply Qnot_le_lt. intros Hle. apply Qle_bool_iff in Hle. congruence.
  - intros H. destruct (Qle_bool b a) eqn:E; [|reflexivity].
    apply Qle_bool_iff in E. exfalso. eapply Qlt_not_le; eauto.
Qed.

Lemma Qltb_ge a b : Qltb a b = false <-> b <= a.
Proof.
  unfold Qltb. rewrite negb_false_iff. apply Qle_bool_iff.
Qed.

Lemma py_max_l a b : a <= py_max a b.
Proof.
  unfold py_max. destruct (Qltb a b) eqn:E.
  - apply Qlt_le_weak, Qltb_lt, E.
  - apply Qle_refl.
Qed.

Lemma py_max_r a b : b <= py_max a b.
Proof.
  unfold py_max. destruct (Qltb a b) eqn:E.
  - apply Qle_refl.
  - apply Qltb_ge, E.
Qed.

Lemma py_max_cases a b : py_max a b = a \/ py_max a b = b.
Proof. unfold py_max. destruct (Qltb a b); auto. Qed.

Section Selection.
Variables WRatio partial_ratio token_sort_ratio token_set_ratio : pystr -> pystr -> Q.

Abbreviation combined := (NameMatcher.combined partial_ratio token_sort_ratio token_set_ratio).
Abbreviation best_step := (NameMatcher.best_step partial_ratio token_sort_ratio token_set_ratio).
Abbreviation best_match := (NameMatcher.best_match partial_ratio token_sort_ratio token_set_ratio).

(** The combined score is the greatest of the four scores. *)
Lemma combined_upper query name wr :
  wr <= combined query name wr /\
  partial_ratio query name <= combined query name wr /\
  token_sort_ratio query name <= combined query name wr /\
  token_set_ratio query name <= combined query name wr.
Proof.
  unfold NameMatcher.combined. repeat split.
  - eapply Qle_trans; [apply py_max_l|]. eapply Qle_trans; apply py_max_l.
  - eapply Qle_trans; [apply py_max_r|]. eapply Qle_trans; apply py_max_l.
  - eapply Qle_trans; [apply py_max_r|]. apply py_max_l.
  - apply py_max_r.
Qed.

Lemma combined_is_one query name wr :
  combined query name wr = wr \/
  combined query name wr = partial_ratio query name \/
  combined query name wr = token_sort_ratio query name \/
  combined query name wr = token_set_ratio query name.
Proof.
  unfold NameMatcher.combined.
  destruct (py_max_cases
              (py_max (py_max wr (partial_ratio query name)) (token_sort_ratio query name))
              (token_set_ratio query name)) as [-> | ->]; [|auto].
  destruct (py_max_cases (py_max wr (partial_ratio query name))
              (token_sort_ratio query name)) as [-> | ->]; [|auto].
  destruct (py_max_cases wr (partial_ratio query name)) as [-> | ->]; auto.
Qed.

(** The loop over [top_matches], from any starting state: the result
    bounds every entry; it is either the starting state, or the first entry
    that attains the greatest combined score. *)
Lemma best_fold query (top : list choice) (st : Q * option nat) :
  let res := foldl (best_step query) st top in
  (forall m, m ∈ top -> combined query m.1.1 m.1.2 <= res.1) /\
  ((res = st /\ forall m, m ∈ top -> combined query m.1.1 m.1.2 <= st.1) \/
   (exists i m, top !! i = Some m /\
      res = (combined query m.1.1 m.1.2, Some m.2) /\
      st.1 < combined query m.1.1 m.1.2 /\
      forall j m', (j < i)%nat -> top !! j = Some m' ->
        combined query m'.1.1 m'.1.2 < combined query m.1.1 m.1.2)).
Proof.
  revert st. induction top as [|m0 r IH]; intros st; cbn zeta.
  - split; [intros m Hm; inversion Hm|]. left. split; [reflexivity|].
    intros m Hm. inversion Hm.
  - cbn [foldl]. specialize (IH (best_step query st m0)).
    cbn zeta in IH. destruct IH as [IHb IHw].
    set (res := foldl (best_step query) (best_step query st m0) r) in *.
    assert (Hmono : (best_step query st m0).1 <= res.1).
    { destruct IHw as [[-> _] | (i & m & _ & -> & Hlt & _)];
        [apply Qle_refl | apply Qlt_le_weak, Hlt]. }
    unfold NameMatcher.best_step in IHw, Hmono.
    destruct (Qltb st.1 (combined query m0.1.1 m0.1.2)) eqn:E.
    + apply Qltb_lt in E. cbn [fst] in *.
      split.
      { intros m Hm. apply elem_of_cons in Hm as [-> | Hm]; [exact Hmono | now apply IHb]. }
      right. destruct IHw as [[Hres Hall] | (i & m & Hi & Hres & Hlt & Hbefore)].
      * exists 0%nat, m0. repeat split; [exact Hres | exact E |]. intros j m' Hj. lia.
      * exists (S i), m. repeat split; [exact Hi | exact Hres | |].
        { eapply Qlt_trans; eauto. }
        intros [|j] m' Hj Hm'; cbn in Hm'.
        -- inversion Hm'; subst. exact Hlt.
        -- eapply Hbefore; [|exact Hm']. lia.
    + apply Qltb_ge in E.
      split.
      { intros m Hm. apply elem_of_cons in Hm as [-> | Hm]; [|now apply IHb].
        eapply Qle_trans; [exact E | exact Hmono]. }
      destruct IHw as [[Hres Hall] | (i & m & Hi & Hres & Hlt & Hbefore)].
      * left. split; [exact Hres|]. intros m Hm.
        apply elem_of_cons in Hm as [-> | Hm]; [exact E | now apply Hall].
      * right. exists (S i), m. repeat split; [exact Hi | exact Hres | exact Hlt |].
        intros [|j] m' Hj Hm'; cbn in Hm'.
        -- inversion Hm'; subst. eapply Qle_lt_trans; eauto.
        -- eapply Hbefore; [|exact Hm']. lia.
Qed.

(** *** The ranking of [process.extract] *)

Lemma insert_choice_perm x l : insert_choice x l ≡ₚ x :: l.
Proof.
  induction l as [|y r IH]; simpl; [reflexivity|].
  destruct (Qltb (choice_score x) (choice_score y)); [|reflexivity].
  rewrite IH. apply Permutation_swap.
Qed.

Lemma insert_choice_sorted x l :
  StronglySorted ranks_before l ->
  Forall (fun y => (choice_pos x < choice_pos y)%nat) l ->
  StronglySorted ranks_before (insert_choice x l).
Proof.
  induction l as [|y r IH]; intros Hs Hpos; simpl.
  - repeat constructor.
  - apply StronglySorted_cons in Hs as [Hy Hr].
    apply Forall_cons in Hpos as [Hxy Hxr].
    destruct (Qltb (choice_score x) (choice_score y)) eqn:E.
    + apply Qltb_lt in E. apply StronglySorted_cons. split; [|now apply IH].
      rewrite insert_choice_perm. constructor; [now left | exact Hy].
    + apply Qltb_ge in E. apply StronglySorted_cons. split.
      2:{ apply StronglySorted_cons. now split. }
      assert (Hle : forall z, z ∈ y :: r -> choice_score z <= choice_score x).
      { intros z Hz. apply elem_of_cons in Hz as [-> | Hz]; [exact E|].
        rewrite Forall_forall in Hy. destruct (Hy z Hz) as [Hlt | [Heq _]].
        - eapply Qle_trans; [apply Qlt_le_weak, Hlt | exact E].
        - rewrite <- Heq. exact E. }
      apply Forall_forall. intros z Hz.
      destruct (Qle_lt_or_eq _ _ (Hle z Hz)) as [Hlt | Heq]; [now left|].
      right. split; [now symmetry|].
      apply elem_of_cons in Hz as [-> | Hz]; [exact Hxy|].
      rewrite Forall_forall in Hxr. now apply Hxr.
Qed.

Lemma ranked_from_sorted (score : pystr -> Q) (k : nat) (choices : list pystr) :
  let l := foldr insert_choice [] (imap (fun i c => (c, score c, (k + i)%nat)) choices) in
  StronglySorted ranks_before l /\ Forall (fun y => (k <= choice_pos y)%nat) l.
Proof.
  revert k. induction choices as [|c r IH]; intros k; cbn zeta.
  - split; constructor.
  - rewrite imap_cons. cbn [foldr].
    rewrite (imap_ext _ (fun i c => (c, score c, (S k + i)%nat))).
    2:{ intros i x Hx. simpl. repeat f_equal. lia. }
    destruct (IH (S k)) as [Hs Hpos]. cbn zeta in Hs, Hpos. split.
    + apply insert_choice_sorted; [exact Hs|].
      eapply Forall_impl; [exact Hpos|]. intros y Hy. unfold choice_pos in *. simpl. lia.
    + rewrite insert_choice_perm. constructor; [unfold choice_pos; simpl; lia|].
      eapply Forall_impl; [exact Hpos|]. intros y Hy. simpl in *. lia.
Qed.

Lemma ranked_perm query choices :
  ranked_choices WRatio query choices ≡ₚ scored_choices WRatio query choices.
Proof.
  unfold ranked_choices. induction (scored_choices WRatio query choices) as [|x l IH];
    simpl; [reflexivity|].
  now rewrite insert_choice_perm, IH.
Qed.

Lemma ranked_sorted query choices :
  StronglySorted ranks_before (ranked_choices WRatio query choices).
Proof. apply (ranked_from_sorted (WRatio query) 0 choices). Qed.

(** Every entry is a choice with its score and its index. *)
Lemma ranked_entry query choices m :
  m ∈ ranked_choices WRatio query choices <->
  exists i c, choices !! i = Some c /\ m = (c, WRatio query c, i).
Proof.
  rewrite ranked_perm. unfold scored_choices. rewrite elem_of_lookup_imap.
  split; intros (i & c & H1 & H2); exists i, c; auto.
Qed.

Lemma extract_entry query choices limit m :
  m ∈ process_extract WRatio query choices limit ->
  exists i c, choices !! i = Some c /\ m = (c, WRatio query c, i).
Proof.
  intros Hm. apply ranked_entry. eapply subseteq_take, Hm.
Qed.

Lemma extract_length query choices limit :
  length (process_extract WRatio query choices limit) = Nat.min limit (length choices).
Proof.
  unfold process_extract. rewrite length_take, (Permutation_length (ranked_perm _ _)).
  unfold scored_choices. now rewrite length_imap.
Qed.

(** With no more choices than the limit, nothing is left out. *)
Lemma extract_all query choices limit :
  (length choices <= limit)%nat ->
  process_extract WRatio query choices limit ≡ₚ scored_choices WRatio query choices.
Proof.
  intros Hlen. unfold process_extract. rewrite take_ge; [apply ranked_perm|].
  rewrite (Permutation_length (ranked_perm _ _)). unfold scored_choices.
  now rewrite length_imap.
Qed.

(** What is returned ranks before what is left out. *)
Lemma extract_ranks_before query choices limit m z :
  m ∈ process_extract WRatio query choices limit ->
  z ∈ ranked_choices WRatio query choices ->
  z ∉ process_extract WRatio query choices limit ->
  ranks_before m z.
Proof.
  intros Hm Hz Hnz. pose proof (ranked_sorted query choices) as Hs.
  rewrite <- (take_drop limit (ranked_choices WRatio query choices)) in Hs, Hz.
  apply elem_of_app in Hz as [Hz | Hz]; [contradiction|].
  eapply StronglySorted_app_1_elem_of; eauto.
Qed.

(** The first entry of the ranking has the greatest weighted ratio, and
    is the earliest choice that has it. *)
Lemma ranked_head query choices h :
  head (ranked_choices WRatio query choices) = Some h ->
  (exists c, choices !! h.2 = Some c /\ h = (c, WRatio query c, h.2)) /\
  (forall i n, choices !! i = Some n -> WRatio query n <= h.1.2) /\
  (forall i n, (i < h.2)%nat -> choices !! i = Some n -> WRatio query n < h.1.2).
Proof.
  intros Hh. pose proof (ranked_sorted query choices) as Hs.
  destruct (ranked_choices WRatio query choices) as [|h' tl] eqn:Hr; [discriminate|].
  injection Hh as ->.
  assert (Hin : h ∈ ranked_choices WRatio query choices) by (rewrite Hr; left).
  apply ranked_entry in Hin as (ph & ch & Hch & Hhe).
  apply StronglySorted_cons in Hs as [Hall _].
  assert (Hcases : forall i n, choices !! i = Some n ->
            (n, WRatio query n, i) = h \/ ranks_before h (n, WRatio query n, i)).
  { intros i n Hn.
    assert (Hz : (n, WRatio query n, i) ∈ ranked_choices WRatio query choices)
      by (apply ranked_entry; eauto).
    rewrite Hr in Hz. apply elem_of_cons in Hz as [Hz | Hz]; [now left|].
    right. rewrite Forall_forall in Hall. now apply Hall. }
  split; [|split].
  - exists ch. subst h. cbn. auto.
  - intros i n Hn. destruct (Hcases i n Hn) as [<- | [Hlt | [Heq _]]]; cbn in *.
    + apply Qle_refl.
    + now apply Qlt_le_weak.
    + unfold choice_score in Heq. cbn in Heq. rewrite Heq. apply Qle_refl.
  - intros i n Hi Hn. destruct (Hcases i n Hn) as [<- | [Hlt | [_ Hpos]]]; cbn in *.
    + lia.
    + exact Hlt.
    + unfold choice_pos in Hpos. cbn in Hpos. lia.
Qed.

Lemma ranked_nonempty query choices :
  choices <> [] -> exists h, head (ranked_choices WRatio query choices) = Some h.
Proof.
  intros Hne. pose proof (Permutation_length (ranked_perm query choices)) as Hl.
  unfold scored_choices in Hl. rewrite length_imap in Hl.
  destruct (ranked_choices WRatio query choices) as [|h tl]; [|now exists h].
  destruct choices; [congruence | discriminate].
Qed.

(** In a list in ranking order, an entry that does not come before the
    [i]-th is the [i]-th or ranks after it. *)
Lemma ranked_after (top : list choice) i w m :
  StronglySorted ranks_before top ->
  top !! i = Some w -> m ∈ top ->
  (exists j, (j < i)%nat /\ top !! j = Some m) \/ m = w \/ ranks_before w m.
Proof.
  intros Hs Hi Hm. rewrite <- (take_drop_middle top i w Hi) in Hs, Hm.
  apply elem_of_app in Hm as [Hm | Hm].
  - left. apply list_elem_of_lookup_1 in Hm as [j Hj].
    pose proof (lookup_lt_Some _ _ _ Hj) as Hlt. rewrite length_take in Hlt.
    exists j. split; [lia|]. rewrite lookup_take_lt in Hj by lia. exact Hj.
  - right. apply elem_of_cons in Hm as [-> | Hm]; [now left|]. right.
    apply StronglySorted_app_1_r, StronglySorted_cons in Hs as [Hall _].
    rewrite Forall_forall in Hall. now apply Hall.
Qed.
End Selection.

(** *** One reference row *)
Section Rows.
Variable ud : UnicodeData.
Variable NON_PRIMARY_TOKENS : gset pystr.
Variables WRatio partial_ratio token_sort_ratio token_set_ratio : pystr -> pystr -> Q.
Variable compared_gdf : list comp_row.
Variable threshold : Q.

Abbreviation query_of := (NameMatcher.query_of ud NON_PRIMARY_TOKENS).
Abbreviation cand_names := (NameMatcher.cand_names ud NON_PRIMARY_TOKENS compared_gdf).
Abbreviation combined_score :=
  (NameMatcher.combined_score WRatio partial_ratio token_sort_ratio token_set_ratio).
Abbreviation select_best :=
  (NameMatcher.select_best ud NON_PRIMARY_TOKENS WRatio partial_ratio token_sort_ratio
     token_set_ratio compared_gdf).
Abbreviation match_row :=
  (NameMatcher.match_row ud NON_PRIMARY_TOKENS WRatio partial_ratio token_sort_ratio
     token_set_ratio compared_gdf threshold).
Abbreviation top_matches :=
  (NameMatcher.top_matches ud NON_PRIMARY_TOKENS WRatio compared_gdf).
Abbreviation earlier_query_of := (EarlierMatcher.earlier_query_of ud NON_PRIMARY_TOKENS).
Abbreviation earlier_cand_names :=
  (EarlierMatcher.earlier_cand_names ud NON_PRIMARY_TOKENS compared_gdf).
Abbreviation earlier_match_row :=
  (EarlierMatcher.earlier_match_row ud NON_PRIMARY_TOKENS WRatio partial_ratio
     token_sort_ratio token_set_ratio compared_gdf threshold).

Hypothesis WRatio_nonneg : forall query name, 0 <= WRatio query name.

(** With candidates at hand the loop settles on an entry of [top_matches]:
    the first one, in the order of [top_matches], that attains the greatest
    combined score among them. *)
Lemma select_best_spec row :
  cand_ids row <> [] ->
  exists i pos name,
    top_matches row !! i = Some (name, WRatio (query_of row) name, pos) /\
    cand_names row !! pos = Some name /\
    select_best row = (combined_score (query_of row) name, Some pos) /\
    (forall m, m ∈ top_matches row ->
       combined_score (query_of row) m.1.1 <= combined_score (query_of row) name) /\
    (forall j m, (j < i)%nat -> top_matches row !! j = Some m ->
       combined_score (query_of row) m.1.1 < combined_score (query_of row) name).
Proof using WRatio_nonneg.
  intros Hne.
  assert (Hscore : forall m, m ∈ top_matches row ->
            NameMatcher.combined partial_ratio token_sort_ratio token_set_ratio
              (query_of row) m.1.1 m.1.2 = combined_score (query_of row) m.1.1).
  { intros m Hm. unfold NameMatcher.top_matches in Hm.
    apply extract_entry in Hm as (i & c & _ & ->). reflexivity. }
  pose proof (best_fold partial_ratio token_sort_ratio token_set_ratio
                (query_of row) (top_matches row) (-1, None)) as Hfold.
  cbn zeta in Hfold. destruct Hfold as [Hbound Hwin].
  fold (NameMatcher.best_match partial_ratio token_sort_ratio token_set_ratio
          (query_of row) (top_matches row)) in Hbound, Hwin.
  destruct Hwin as [[_ Hall] | (i & m & Hi & Hres & _ & Hbefore)].
  - (* impossible: the first entry scores at least 0 *)
    exfalso.
    assert (Hlen : (0 < length (top_matches row))%nat).
    { unfold NameMatcher.top_matches. rewrite extract_length. unfold NameMatcher.cand_names. rewrite length_map.
      destruct (cand_ids row); [congruence | simpl; lia]. }
    destruct (top_matches row) as [|m r] eqn:Htop; [simpl in Hlen; lia|].
    assert (Hm : m ∈ top_matches row) by (rewrite Htop; left).
    specialize (Hall m (list_elem_of_here m r)). cbn [fst] in Hall.
    pose proof (combined_upper partial_ratio token_sort_ratio token_set_ratio
                  (query_of row) m.1.1 m.1.2) as [Hwr _].
    unfold NameMatcher.top_matches in Hm.
    apply extract_entry in Hm as (k & c & _ & ->). cbn [fst snd] in *.
    pose proof (WRatio_nonneg (query_of row) c) as H0.
    assert (H : 0 <= -1) by (eapply Qle_trans; [exact H0|]; eapply Qle_trans; eauto).
    revert H. apply Qlt_not_le. reflexivity.
  - assert (Hm : m ∈ top_matches row) by (eapply list_elem_of_lookup_2, Hi).
    pose proof Hm as Hent. unfold NameMatcher.top_matches in Hent.
    apply extract_entry in Hent as (pos & name & Hname & ->).
    exists i, pos, name. cbn [fst snd] in *. repeat split.
    + exact Hi.
    + exact Hname.
    + exact Hres.
    + intros m' Hm'. rewrite <- (Hscore m' Hm').
      specialize (Hbound m' Hm'). unfold select_best in *. cbn zeta in *.
      rewrite Hres in Hbound. exact Hbound.
    + intros j m' Hj Hm'. rewrite <- (Hscore m').
      * eapply Hbefore; eauto.
      * eapply list_elem_of_lookup_2, Hm'.
Qed.

(** The columns written for a row with candidates. *)
Lemma match_row_spec row :
  cand_ids row <> [] ->
  length (cand_dist_m row) = length (cand_ids row) ->
  exists s pos cid d,
    select_best row = (s, Some pos) /\
    cand_ids row !! pos = Some cid /\
    cand_dist_m row !! pos = Some d /\
    match_row row =
      Some (if Qle_bool threshold s then
              {| matched_id := Some cid; name_score := Some s;
                 location_distance := Some d;
                 matched_name := mjoin (id_to_name_raw compared_gdf !! cid);
                 matched_cat_main := mjoin (id_to_cat compared_gdf !! cid) |}
            else unmatched (Some s)).
Proof using WRatio_nonneg.
  intros Hne Hlen.
  destruct (select_best_spec row Hne) as (i & pos & name & _ & Hname & Hsel & _).
  unfold NameMatcher.cand_names in Hname. rewrite list_lookup_fmap in Hname.
  destruct (cand_ids row !! pos) as [cid|] eqn:Hcid; [|discriminate].
  assert (Hd : is_Some (cand_dist_m row !! pos)).
  { apply lookup_lt_is_Some. rewrite Hlen. eapply lookup_lt_Some, Hcid. }
  destruct Hd as [d Hd].
  exists (combined_score (query_of row) name), pos, cid, d.
  repeat split; try assumption.
  unfold NameMatcher.match_row.
  destruct (cand_ids row) as [|c0 r] eqn:Hids; [congruence|].
  rewrite Hsel.
  destruct (Qle_bool threshold (combined_score (query_of row) name)); [|reflexivity].
  cbn. rewrite Hcid. cbn. rewrite Hd. reflexivity.
Qed.

(** [top_matches] is a list of scored candidates in ranking order. *)
Lemma top_matches_ranked row :
  StronglySorted ranks_before (top_matches row) /\
  (forall m, m ∈ top_matches row ->
     m ∈ scored_choices WRatio (query_of row) (cand_names row)).
Proof.
  unfold NameMatcher.top_matches, process_extract. split.
  - pose proof (ranked_sorted WRatio (query_of row) (cand_names row)) as Hs.
    rewrite <- (take_drop 5 (ranked_choices WRatio (query_of row) (cand_names row))) in Hs.
    now apply StronglySorted_app_1_l in Hs.
  - intros m Hm. rewrite <- ranked_perm. eapply subseteq_take, Hm.
Qed.

(** The loop body of the earlier [match_by_name.py]. *)
Lemma earlier_match_row_spec row :
  cand_ids row <> [] ->
  length (cand_dist_m row) = length (cand_ids row) ->
  exists pos name cid d,
    earlier_cand_names row !! pos = Some name /\
    (forall i n, earlier_cand_names row !! i = Some n ->
       WRatio (earlier_query_of row) n <= WRatio (earlier_query_of row) name) /\
    (forall i n, (i < pos)%nat -> earlier_cand_names row !! i = Some n ->
       WRatio (earlier_query_of row) n < WRatio (earlier_query_of row) name) /\
    cand_ids row !! pos = Some cid /\
    cand_dist_m row !! pos = Some d /\
    earlier_match_row row =
      Some (if Qle_bool threshold (combined_score (earlier_query_of row) name) then
              {| earlier_matched_id := Some cid;
                 earlier_name_score := Some (combined_score (earlier_query_of row) name);
                 earlier_location_distance := Some d;
                 earlier_matched_name := mjoin (id_to_name_raw compared_gdf !! cid) |}
            else earlier_unmatched (Some (combined_score (earlier_query_of row) name))).
Proof.
  intros Hne Hlen.
  set (q := earlier_query_of row).
  set (names := earlier_cand_names row).
  assert (Hnames : names <> []).
  { unfold names, EarlierMatcher.earlier_cand_names.
    destruct (cand_ids row); [congruence | discriminate]. }
  destruct (ranked_nonempty WRatio q names Hnames) as [h Hh].
  destruct (ranked_head WRatio q names h Hh) as ((name & Hname & Hhe) & Hmax & Hfirst).
  assert (Hwr : h.1.2 = WRatio q name) by (rewrite Hhe; reflexivity).
  rewrite Hwr in Hmax, Hfirst.
  assert (Hcid : is_Some (cand_ids row !! h.2)).
  { apply lookup_lt_is_Some. apply lookup_lt_Some in Hname.
    unfold names, EarlierMatcher.earlier_cand_names in Hname.
    now rewrite length_map in Hname. }
  destruct Hcid as [cid Hcid].
  assert (Hd : is_Some (cand_dist_m row !! h.2)).
  { apply lookup_lt_is_Some. rewrite Hlen. eapply lookup_lt_Some, Hcid. }
  destruct Hd as [d Hd].
  exists h.2, name, cid, d.
  split; [exact Hname|]. split; [exact Hmax|]. split; [exact Hfirst|].
  split; [exact Hcid|]. split; [exact Hd|].
  unfold EarlierMatcher.earlier_match_row. fold q names.
  destruct (cand_ids row) as [|c0 ids] eqn:Hids; [congruence|]. rewrite <- Hids in *.
  unfold process_extractOne. rewrite Hh. cbn [mbind option_bind].
  rewrite Hname. cbn [mbind option_bind]. rewrite Hwr.
  fold (combined_score q name).
  destruct (Qle_bool threshold (combined_score q name)); [|reflexivity].
  rewrite Hcid. cbn [mbind option_bind]. rewrite Hd. reflexivity.
Qed.

(** C1, amended.  In [2.match_func/match_by_name.py], for a row with
    candidates the winner is the entry of [top_matches] with the greatest
    combined score, and the reported score is its combined score.
    [top_matches] holds the at most five candidates that rank first by
    weighted ratio (higher ratio first, equal ratios by position), in that
    order; of entries with equal combined scores the one ranked first wins;
    and when the row has at most five candidates no candidate at all has a
    higher combined score.  In the earlier [match_by_name.py] one candidate
    is examined: the winner is the first candidate with the greatest weighted
    ratio of the whole list, and the reported score is its combined score. *)
Theorem winner_is_best_of_top_matches row :
  cand_ids row <> [] ->
  length (cand_dist_m row) = length (cand_ids row) ->
  (exists i pos name r,
    top_matches row !! i = Some (name, WRatio (query_of row) name, pos) /\
    cand_names row !! pos = Some name /\
    match_row row = Some r /\
    name_score r = Some (combined_score (query_of row) name) /\
    (threshold <= combined_score (query_of row) name ->
       matched_id r = cand_ids row !! pos /\ location_distance r = cand_dist_m row !! pos) /\
    (forall m, m ∈ top_matches row ->
       combined_score (query_of row) m.1.1 <= combined_score (query_of row) name) /\
    (forall j m, (j < i)%nat -> top_matches row !! j = Some m ->
       combined_score (query_of row) m.1.1 < combined_score (query_of row) name) /\
    (forall m, m ∈ top_matches row ->
       combined_score (query_of row) m.1.1 == combined_score (query_of row) name ->
       m = (name, WRatio (query_of row) name, pos) \/
       ranks_before (name, WRatio (query_of row) name, pos) m) /\
    StronglySorted ranks_before (top_matches row) /\
    (forall m, m ∈ top_matches row ->
       m ∈ scored_choices WRatio (query_of row) (cand_names row)) /\
    length (top_matches row) = Nat.min 5 (length (cand_ids row)) /\
    (forall m z, m ∈ top_matches row ->
       z ∈ scored_choices WRatio (query_of row) (cand_names row) ->
       z ∉ top_matches row -> ranks_before m z) /\
    ((length (cand_ids row) <= 5)%nat ->
       forall n, n ∈ cand_names row ->
         combined_score (query_of row) n <= combined_score (query_of row) name)) /\
  (exists pos name r,
    earlier_cand_names row !! pos = Some name /\
    (forall i n, earlier_cand_names row !! i = Some n ->
       WRatio (earlier_query_of row) n <= WRatio (earlier_query_of row) name) /\
    (forall i n, (i < pos)%nat -> earlier_cand_names row !! i = Some n ->
       WRatio (earlier_query_of row) n < WRatio (earlier_query_of row) name) /\
    earlier_match_row row = Some r /\
    earlier_name_score r = Some (combined_score (earlier_query_of row) name) /\
    (threshold <= combined_score (earlier_query_of row) name ->
       earlier_matched_id r = cand_ids row !! pos /\
       earlier_location_distance r = cand_dist_m row !! pos)).
Proof using WRatio_nonneg.
  intros Hne Hlen. split.
  - destruct (select_best_spec row Hne)
      as (i & pos & name & Hi & Hname & Hsel & Hbound & Hfirst).
    destruct (match_row_spec row Hne Hlen)
      as (s & pos' & cid & d & Hsel' & Hcid & Hd & Hrow).
    rewrite Hsel in Hsel'. inversion Hsel'; subst s pos'. clear Hsel'.
    destruct (top_matches_ranked row) as [Hsorted Hsub].
    eexists i, pos, name, _. split; [exact Hi|]. split; [exact Hname|].
    split; [exact Hrow|].
    assert (Hnames_len : length (cand_names row) = length (cand_ids row))
      by (unfold NameMatcher.cand_names; apply length_map).
    split; [destruct (Qle_bool threshold (combined_score (query_of row) name)); reflexivity|].
    split.
    { intros H. apply Qle_bool_iff in H. rewrite H. cbn. now rewrite Hcid, Hd. }
    split; [exact Hbound|]. split; [exact Hfirst|]. split.
    { intros m Hm Heq.
      destruct (ranked_after _ i _ m Hsorted Hi Hm) as [(j & Hj & Hmj) | H]; [|exact H].
      exfalso. specialize (Hfirst j m Hj Hmj). rewrite Heq in Hfirst.
      exact (Qlt_irrefl _ Hfirst). }
    split; [exact Hsorted|]. split; [exact Hsub|]. split.
    { unfold NameMatcher.top_matches. now rewrite extract_length, Hnames_len. }
    split.
    { intros m z Hm Hz Hnz. unfold NameMatcher.top_matches in *.
      eapply extract_ranks_before; eauto. now rewrite ranked_perm. }
    intros Hfew n Hn. apply list_elem_of_lookup_1 in Hn as [k Hk].
    apply (Hbound (n, WRatio (query_of row) n, k)).
    unfold NameMatcher.top_matches. rewrite extract_all by lia.
    unfold scored_choices.
    apply (elem_of_lookup_imap_2 (fun i c => (c, WRatio (query_of row) c, i)) _ _ _ Hk).
  - destruct (earlier_match_row_spec row Hne Hlen)
      as (pos & name & cid & d & Hname & Hmax & Hfirst & Hcid & Hd & Hrow).
    eexists pos, name, _. split; [exact Hname|]. split; [exact Hmax|].
    split; [exact Hfirst|]. split; [exact Hrow|].
    split; [destruct (Qle_bool threshold _); reflexivity|].
    intros H. apply Qle_bool_iff in H. rewrite H. cbn. now rewrite Hcid, Hd.
Qed.

(** C3: on every row the Name Matcher writes, the matched identifier is
    present exactly when the score reaches the threshold and the row has
    candidates; with candidates the score is recorded whether or not it
    reaches the threshold, and below the threshold the identifier is null. *)
Theorem matched_iff_score_reaches_threshold row :
  length (cand_dist_m row) = length (cand_ids row) ->
  exists r,
    match_row row = Some r /\
    (matched_id r <> None <->
       (exists s, name_score r = Some s /\ threshold <= s) /\ cand_ids row <> []) /\
    (cand_ids row <> [] ->
       name_score r = Some (select_best row).1 /\
       ((select_best row).1 < threshold -> matched_id r = None)).
Proof using WRatio_nonneg.
  intros Hlen. destruct (cand_ids row) as [|c0 ids] eqn:Hids.
  - exists (unmatched None). unfold NameMatcher.match_row. rewrite Hids.
    split; [reflexivity|]. split; [|congruence].
    cbn. split; [congruence | intros [_ H]; congruence].
  - assert (Hne : cand_ids row <> []) by congruence.
    destruct (match_row_spec row Hne) as (s & pos & cid & d & Hsel & Hcid & Hd & Hrow).
    { now rewrite Hids. }
    eexists. split; [exact Hrow|]. rewrite Hsel. cbn [fst].
    destruct (Qle_bool threshold s) eqn:E; cbn.
    + apply Qle_bool_iff in E. split.
      * split; [|congruence]. intros _. split; [|congruence]. now exists s.
      * intros _. split; [reflexivity|]. intros Hlt. exfalso. eapply Qlt_not_le; eauto.
    + split.
      * split; [congruence|]. intros [(s' & Hs' & Hle) _]. inversion Hs'; subst s'.
        apply Qle_bool_iff in Hle. congruence.
      * intros _. split; reflexivity.
Qed.
End Rows.

Lemma demo_WRatio_nonneg query name : 0 <= demo_WRatio query name.
Proof.
  unfold demo_WRatio, demo_scores. repeat case_decide; cbn; unfold Qle; cbn; lia.
Qed.

(** C1, as stated, fails twice.  In [tie_row] both candidates have the
    combined score 100 and the farther one wins, because it ranks first by
    weighted ratio.  In [six_row] the sixth candidate has the combined score
    100 and is never examined: the winner has 1800/19. *)
Lemma winner_not_best_overall :
  demo_select_best tie_row = (100, Some 1%nat) /\
  ~ demo_best_overall (cps "STARBUCKS") (demo_cand_names tie_row) 100 1 /\
  demo_select_best six_row = (1800 # 19, Some 0%nat) /\
  ~ demo_best_overall (cps "STARBUCKS") (demo_cand_names six_row) (1800 # 19) 0.
Proof.
  split; [vm_compute; reflexivity|]. split.
  { intros (_ & _ & H).
    assert (H0 : demo_cand_names tie_row !! 0%nat = Some (cps "STARBUCKS RESERVE"))
      by (vm_compute; reflexivity).
    specialize (H 0%nat _ ltac:(lia) H0). vm_compute in H. discriminate. }
  split; [vm_compute; reflexivity|].
  intros (_ & H & _).
  assert (H5 : demo_cand_names six_row !! 5%nat = Some (cps "STARBUCKS RESERVE"))
    by (vm_compute; reflexivity).
  specialize (H 5%nat _ H5). vm_compute in H. apply H. reflexivity.
Qed.

Lemma winner_is_best_of_top_matches_witness :
  (forall query name, 0 <= demo_WRatio query name) /\
  cand_ids six_row <> [] /\
  length (cand_dist_m six_row) = length (cand_ids six_row) /\
  exists i pos name r,
    demo_top_matches six_row !! i = Some (name, demo_WRatio (cps "STARBUCKS") name, pos) /\
    demo_cand_names six_row !! pos = Some name /\
    demo_match_row 80 six_row = Some r /\
    name_score r = Some (demo_combined_score (cps "STARBUCKS") name).
Proof.
  split; [exact demo_WRatio_nonneg|]. split; [discriminate|]. split; [reflexivity|].
  destruct (winner_is_best_of_top_matches ucd_excerpt ∅ demo_WRatio demo_partial_ratio
              demo_token_sort_ratio demo_token_set_ratio demo_compared 80
              demo_WRatio_nonneg six_row ltac:(discriminate) eq_refl)
    as [(i & pos & name & r & H1 & H2 & H3 & H4 & _) _].
  exists i, pos, name, r. repeat split; assumption.
Defined.

Lemma matched_iff_score_reaches_threshold_witness :
  (forall query name, 0 <= demo_WRatio query name) /\
  length (cand_dist_m tie_row) = length (cand_ids tie_row) /\
  exists r,
    demo_match_row 80 tie_row = Some r /\
    (matched_id r <> None <->
       (exists s, name_score r = Some s /\ 80 <= s) /\ cand_ids tie_row <> []).
Proof.
  split; [exact demo_WRatio_nonneg|]. split; [reflexivity|].
  destruct (matched_iff_score_reaches_threshold ucd_excerpt ∅ demo_WRatio demo_partial_ratio
              demo_token_sort_ratio demo_token_set_ratio demo_compared 80
              demo_WRatio_nonneg tie_row eq_refl)
    as (r & H1 & H2 & _).
  exists r. split; assumption.
Defined.

(** C2 holds for a row without candidates and fails for a row without a
    name: whatever the scorers and the comparison set, the row with a null
    name and one candidate has the empty string as its query, is scored
    against the candidate and gets a number as its name score. *)
Theorem nameless_row_is_scored
    (ud : UnicodeData) (NON_PRIMARY_TOKENS : gset pystr)
    (WRatio partial_ratio token_sort_ratio token_set_ratio : pystr -> pystr -> Q)
    (compared_gdf : list comp_row) :
  (forall threshold row, cand_ids row = [] ->
     match_row ud NON_PRIMARY_TOKENS WRatio partial_ratio token_sort_ratio token_set_ratio
       compared_gdf threshold row = Some (unmatched None)) /\
  query_of ud NON_PRIMARY_TOKENS nameless_row = [] /\
  exists r s,
    match_row ud NON_PRIMARY_TOKENS WRatio partial_ratio token_sort_ratio token_set_ratio
      compared_gdf 80 nameless_row = Some r /\
    name_score r = Some s.
Proof.
  split.
  { intros threshold row Hrow. unfold match_row. now rewrite Hrow. }
  split; [reflexivity|].
  unfold match_row, select_best, top_matches, process_extract, ranked_choices,
    scored_choices, best_match, cand_names.
  cbn [nameless_row cand_ids cand_dist_m map imap foldr insert_choice take foldl].
  unfold best_step. cbn [fst snd].
  destruct (Qltb (-1) _) eqn:E.
  - destruct (Qle_bool 80 _); cbn; eauto.
  - cbn. eauto.
Qed.

(** Candidates with the same normalised name tie on every score, and the
    nearer one is selected. *)
Example same_name_selects_nearer :
  demo_select_best same_name_row = (100, Some 0%nat) /\
  (demo_match_row 80 same_name_row ≫= matched_id) = Some (IdText (cps "c2")).
Proof. vm_compute. split; reflexivity. Qed.

(** With rapidfuzz's scores for an empty query (all 0) the nameless row is
    recorded with the score 0, not with a null. *)
Example nameless_row_scores_zero :
  demo_match_row 80 nameless_row = Some (unmatched (Some 0)).
Proof. vm_compute. reflexivity. Qed.
End NameMatcherFacts.

(** ** The Spatial Candidate Finder *)
Module SpatialFacts.
Import Char Text NameMatcher NameMatcherFacts Spatial Demo.
Open Scope Q_scope.

Lemma Qle_transitive : Transitive Qle.
Proof. intros x y z. apply Qle_trans. Qed.

(** The inner loop on neighbours whose indices are in range and distinct
    and whose distances ascend. *)
Lemma keep_near_spec (cmp_ids : list ident) (max_dist : Q) (neighbours : list (nat * Q)) :
  NoDup cmp_ids ->
  Forall (fun p => (p.1 < length cmp_ids)%nat) neighbours ->
  NoDup neighbours.*1 ->
  StronglySorted Qle neighbours.*2 ->
  exists ids dists,
    keep_near cmp_ids max_dist neighbours = Some (ids, dists) /\
    length ids = length dists /\
    (length ids <= length neighbours)%nat /\
    Forall (fun d => d ∈ neighbours.*2 /\ d <= max_dist) dists /\
    StronglySorted Qle dists /\
    Forall (fun cid => exists p, p ∈ neighbours /\ cmp_ids !! p.1 = Some cid) ids /\
    NoDup ids /\
    (forall p, p ∈ neighbours -> p.2 <= max_dist ->
       exists cid, cmp_ids !! p.1 = Some cid /\ (cid, p.2) ∈ zip ids dists).
Proof.
  intros Hids. induction neighbours as [|[j d] rest IH]; intros Hrange Hnd Hsorted.
  - exists [], []. cbn.
    split; [reflexivity|]. split; [reflexivity|]. split; [lia|].
    split; [constructor|]. split; [constructor|]. split; [constructor|].
    split; [constructor|]. intros p Hp. inversion Hp.
  - apply Forall_cons in Hrange as [Hj Hrange]. cbn in Hj.
    cbn [fmap list_fmap fst] in Hnd. apply NoDup_cons in Hnd as [Hjnew Hnd].
    cbn [fmap list_fmap snd] in Hsorted. apply StronglySorted_cons in Hsorted as [Hd Hsorted].
    destruct (IH Hrange Hnd Hsorted)
      as (ids & dists & Hrun & Hlen & Hle & Hds & Hss & Hfrom & Hndids & Hkept).
    cbn [keep_near]. rewrite Hrun.
    destruct (Qle_bool d max_dist) eqn:E.
    + apply Qle_bool_iff in E.
      destruct (lookup_lt_is_Some_2 cmp_ids j Hj) as [cid Hcid].
      rewrite Hcid. cbn.
      exists (cid :: ids), (d :: dists). split; [reflexivity|].
      split; [cbn; lia|]. split; [cbn; lia|].
      split.
      { constructor; [split; [left | exact E]|].
        eapply Forall_impl; [exact Hds|]. intros x [Hx Hxle]. split; [now right | exact Hxle]. }
      split.
      { apply StronglySorted_cons. split; [|exact Hss].
        apply Forall_forall. intros x Hx. rewrite Forall_forall in Hds, Hd.
        apply Hd. now apply Hds. }
      split.
      { constructor.
        - exists (j, d). split; [left | exact Hcid].
        - eapply Forall_impl; [exact Hfrom|]. intros x (p & Hp & Hx).
          exists p. split; [now right | exact Hx]. }
      split.
      { apply NoDup_cons. split; [|exact Hndids].
        intros Hin. rewrite Forall_forall in Hfrom.
        destruct (Hfrom cid Hin) as ([j' d'] & Hp & Hj').
        cbn [fst] in Hj'. assert (j' = j) by exact (NoDup_lookup cmp_ids j' j cid Hids Hj' Hcid).
        subst j'.
        apply Hjnew. apply list_elem_of_fmap. now exists (j, d'). }
      intros p Hp Hple. apply elem_of_cons in Hp as [-> | Hp].
      * exists cid. split; [exact Hcid | left].
      * destruct (Hkept p Hp Hple) as (c & Hc & Hzip).
        exists c. split; [exact Hc | now right].
    + exists ids, dists. split; [reflexivity|].
      split; [exact Hlen|]. split; [cbn; lia|].
      split.
      { eapply Forall_impl; [exact Hds|]. intros x [Hx Hxle]. split; [now right | exact Hxle]. }
      split; [exact Hss|].
      split.
      { eapply Forall_impl; [exact Hfrom|]. intros x (p & Hp & Hx).
        exists p. split; [now right | exact Hx]. }
      split; [exact Hndids|].
      intros p Hp Hple. apply elem_of_cons in Hp as [-> | Hp].
      * cbn in Hple. apply Qle_bool_iff in Hple. congruence.
      * destruct (Hkept p Hp Hple) as (c & Hc & Hzip). now exists c.
Qed.

Lemma mapM_exists {A B} (f : A -> option B) (P : A -> Prop) (R : A -> B -> Prop) (l : list A) :
  Forall P l ->
  (forall x, P x -> exists y, f x = Some y /\ R x y) ->
  exists k, mapM f l = Some k /\ Forall2 R l k.
Proof.
  intros Hl Hf. induction Hl as [|x l Hx Hl (k & Hk & HR)].
  - exists []. split; [reflexivity | constructor].
  - destruct (Hf x Hx) as (y & Hy & Hxy).
    exists (y :: k). split; [|now constructor].
    cbn. rewrite Hy. cbn. rewrite Hk. reflexivity.
Qed.

Section Finder.
Context {geom point : Type}.
Variable to_crs : geom -> point.
Variable tree_query :
  list point -> list point -> nat -> option (list (list Q) * list (list nat)).

Abbreviation search_spatial_candidates := (Spatial.search_spatial_candidates to_crs tree_query).
Abbreviation query_contract := (Spatial.query_contract tree_query).

Lemma search_spec (reference_gdf : list geom) (compared_gdf : list (ident * geom))
    (k : nat) (max_dist : Q) :
  query_contract (map (fun c => to_crs c.2) compared_gdf) (map to_crs reference_gdf)
    (Nat.min k (length compared_gdf)) ->
  NoDup compared_gdf.*1 ->
  exists cands,
    search_spatial_candidates reference_gdf compared_gdf k max_dist = Some cands /\
    length cands = length reference_gdf /\
    exists dist idx,
      tree_query (map (fun c => to_crs c.2) compared_gdf) (map to_crs reference_gdf)
        (Nat.min k (length compared_gdf)) = Some (dist, idx) /\
      Forall2 (row_ok compared_gdf.*1 (Nat.min k (length compared_gdf)) max_dist)
        (zip idx dist) cands.
Proof.
  intros Hcontract Hids.
  unfold Spatial.search_spatial_candidates, Spatial.query_contract in *.
  destruct Hcontract as (_ & dist & idx & Hquery & Hdist & Hidx & Hdrows & Hirows).
  rewrite Hquery. cbn [mbind option_bind].
  rewrite !length_map in *.
  set (k_eff := Nat.min k (length compared_gdf)) in *.
  destruct (mapM_exists
              (fun r => keep_near (map fst compared_gdf) max_dist (zip r.1 r.2))
              (fun r => (length r.1 = k_eff /\ NoDup r.1 /\
                         Forall (fun j => (j < length compared_gdf)%nat) r.1) /\
                        (length r.2 = k_eff /\ Sorted Qle r.2))
              (row_ok compared_gdf.*1 k_eff max_dist)
              (zip idx dist)) as (cands & Hrun & Hrows).
  - apply Forall_forall. intros [row_idx row_dist] Hr. cbn [fst snd]. split.
    + rewrite Forall_forall in Hirows. apply Hirows. eapply elem_of_zip_l, Hr.
    + rewrite Forall_forall in Hdrows. apply Hdrows. eapply elem_of_zip_r, Hr.
  - intros [row_idx row_dist] [(Hil & Hind & Hir) (Hdl & Hds)]. cbn [fst snd] in *.
    destruct (keep_near_spec (map fst compared_gdf) max_dist (zip row_idx row_dist))
      as (ids & dists & Hk & Hlen & Hle & Hfrom & Hss & _ & Hnd & Hkept).
    + exact Hids.
    + apply Forall_forall. intros [j d] Hp. cbn. rewrite length_map.
      rewrite Forall_forall in Hir. apply Hir. eapply elem_of_zip_l, Hp.
    + rewrite fst_zip by lia. exact Hind.
    + rewrite snd_zip by lia.
      apply Sorted_StronglySorted; [apply Qle_transitive | exact Hds].
    + exists (ids, dists). split; [exact Hk|]. unfold row_ok. cbn [fst snd].
      split; [exact Hlen|]. split.
      { rewrite length_zip in Hle. lia. }
      split; [now apply StronglySorted_Sorted|]. split.
      { eapply Forall_impl; [exact Hfrom|]. now intros d [_ Hd]. }
      split; [exact Hnd|].
      intros j d Hjd Hd. apply (Hkept (j, d) Hjd Hd).
  - exists cands. rewrite Hrun. cbn.
    assert (Hlen : length cands = length reference_gdf).
    { rewrite <- (Forall2_length _ _ _ Hrows), length_zip. lia. }
    rewrite option_guard_True by exact Hlen. cbn.
    split; [reflexivity|]. split; [exact Hlen|]. now exists dist, idx.
Qed.


(** The finder has no handler of its own: where the query raises, so does
    [search_spatial_candidates]. *)
Lemma search_raises_with_query (reference_gdf : list geom)
    (compared_gdf : list (ident * geom)) (k : nat) (max_dist : Q) :
  tree_query (map (fun c => to_crs c.2) compared_gdf) (map to_crs reference_gdf)
    (Nat.min k (length compared_gdf)) = None ->
  search_spatial_candidates reference_gdf compared_gdf k max_dist = None.
Proof. intros H. unfold Spatial.search_spatial_candidates. now rewrite H. Qed.

(** C5 fails: with an empty comparison set [k_eff = min(k, 0)] is 0, so the
    k-d tree is asked for no neighbour; scipy's [cKDTree.query] raises for
    [k = 0] and the finder has no handler, so it raises as well, whatever the
    reference set, [k] and [max_dist].  No run of the finder that returns
    had an empty comparison set, or [k = 0]. *)
Theorem empty_comparison_set_raises (reference_gdf : list geom) (k : nat) (max_dist : Q) :
  Spatial.query_rejects_zero tree_query ->
  search_spatial_candidates reference_gdf [] k max_dist = None /\
  (forall compared_gdf cands,
     search_spatial_candidates reference_gdf compared_gdf k max_dist = Some cands ->
     compared_gdf <> [] /\ (0 < k)%nat).
Proof.
  intros Hzero. split.
  - apply search_raises_with_query. cbn [length]. rewrite Nat.min_0_r. apply Hzero.
  - intros compared_gdf cands Hrun.
    destruct (Nat.min k (length compared_gdf)) as [|n] eqn:Hk.
    + rewrite search_raises_with_query in Hrun; [discriminate|].
      rewrite Hk. apply Hzero.
    + split; [|lia]. intros ->. cbn [length] in Hk. lia.
Qed.
End Finder.

(** Membership in a list of distinct literals. *)
Ltac not_member :=
  let H := fresh in
  intros H; repeat (apply elem_of_cons in H as [H|H]; [discriminate|]); inversion H.

(** The stand-in keeps the promise on the worked inputs. *)
Lemma line_query_contract :
  Spatial.query_contract line_query (map (fun c => c.2) demo_compared_points)
    (map (fun g => g) demo_reference_points) (Nat.min 100 (length demo_compared_points)).
Proof.
  unfold Spatial.query_contract. split; [cbn; lia|].
  eexists _, _. split; [vm_compute; reflexivity|].
  repeat split; repeat constructor; try (unfold Qle; cbn; lia); not_member.
Qed.


Lemma line_query_rejects_zero : Spatial.query_rejects_zero line_query.
Proof. intros cmp_xy ref_xy. reflexivity. Qed.

Lemma empty_comparison_set_raises_witness :
  Spatial.query_rejects_zero line_query /\
  demo_search demo_reference_points [] 100 1000 = None.
Proof.
  split; [exact line_query_rejects_zero|].
  exact (proj1 (empty_comparison_set_raises (fun g : Q => g) line_query
                  demo_reference_points 100 1000 line_query_rejects_zero)).
Defined.

(** A neighbour at exactly [max_dist] is kept, one a centimetre farther is
    not: the first reference point is 1000 m from [a] and 1000.01 m from [b]. *)
Example boundary_is_inclusive :
  demo_search [0] demo_compared_points 100 1000
    = Some [([IdText (cps "c"); IdText (cps "a")], [250; 1000])].
Proof. vm_compute. reflexivity. Qed.
End SpatialFacts.

(** ** The Category Semantic Scorer *)
Module CategoryFacts.
Import Char Text Category Demo.
Open Scope Q_scope.

Section WithEncoder.
Variable ud : UnicodeData.
Context {embedding : Type}.
Variable encode : pystr -> embedding.
Variable cosine_similarity : embedding -> embedding -> Q.

(** Batching changes nothing: the column is the row-wise result. *)
Lemma calculate_similarity_check_rowwise (df : list cat_row) :
  calculate_similarity_check ud encode cosine_similarity df
    = map (row_similarity ud encode cosine_similarity) df.
Proof.
  unfold calculate_similarity_check.
  induction df as [|r df IH]; [reflexivity|].
  cbn [map List.filter]. unfold row_similarity at 1.
  destruct (gate ud r) eqn:Hg.
  - cbn [map zip_with scatter]. rewrite IH.
    destruct (isna (cat_ref r) || isna (cat_cmp r)); reflexivity.
  - cbn [scatter]. now rewrite IH.
Qed.
End WithEncoder.

(** C9 fails on an empty category text: only a null counts as missing.  A
    matched row whose matched category is the empty string gets the cosine of
    the embeddings of its category and of the empty string, and a row whose
    two categories are empty gets the cosine of the empty string's embedding
    with itself.  Rows with a null category, and rows without a match, do get
    a null. *)
Theorem empty_category_is_scored (ud : UnicodeData) {embedding : Type}
    (encode : pystr -> embedding) (cosine_similarity : embedding -> embedding -> Q) :
  calculate_similarity_check ud encode cosine_similarity
    [ {| cat_matched_id := Some (IdText (cps "t5")); cat_ref := Some (cps "cafe");
         cat_cmp := Some (cps "") |} ]
    = [ Some (cosine_similarity (encode (cps "cafe")) (encode (cps ""))) ] /\
  calculate_similarity_check ud encode cosine_similarity
    [ {| cat_matched_id := Some (IdText (cps "t5")); cat_ref := Some (cps "");
         cat_cmp := Some (cps "") |} ]
    = [ Some (cosine_similarity (encode (cps "")) (encode (cps ""))) ] /\
  (forall df : list cat_row,
     Forall2 (fun r score =>
                (cat_matched_id r = None \/ cat_ref r = None \/ cat_cmp r = None) ->
                score = None)
       df (calculate_similarity_check ud encode cosine_similarity df)).
Proof.
  split; [reflexivity|]. split; [reflexivity|].
  intros df. rewrite calculate_similarity_check_rowwise.
  apply Forall2_fmap_r, Forall_Forall2_diag, Forall_forall.
  intros r _ H. unfold row_similarity, gate.
  destruct H as [-> | [-> | ->]]; [reflexivity | |].
  - now destruct (match cat_matched_id r with Some _ => _ | None => _ end).
  - destruct (match cat_matched_id r with Some _ => _ | None => _ end); [|reflexivity].
    now rewrite orb_true_r.
Qed.
End CategoryFacts.

(** ** Objects: who writes where *)
Module FramesFacts.
Import Char Text NameMatcher Frames Demo.
Open Scope Q_scope.

Lemma bind_inv {A B} (m : M A) (k : A -> M B) σ b σ'' :
  (m ≫= k) σ = Some (b, σ'') ->
  exists a σ', m σ = Some (a, σ') /\ k a σ' = Some (b, σ'').
Proof.
  unfold mbind, M_bind. destruct (m σ) as [[a σ']|]; [|discriminate].
  intros H. now exists a, σ'.
Qed.

Lemma lift_inv {A} (o : option A) σ a σ' :
  lift o σ = Some (a, σ') -> σ' = σ.
Proof. unfold lift. destruct o; [|discriminate]. now intros [= _ <-]. Qed.

Lemma read_inv l σ f σ' : read l σ = Some (f, σ') -> σ' = σ.
Proof. unfold read. destruct (σ !! l); [|discriminate]. now intros [= _ <-]. Qed.

Lemma mret_inv {A} (a b : A) σ σ' :
  (mret a : M A) σ = Some (b, σ') -> b = a /\ σ' = σ.
Proof. unfold mret, M_ret. now intros [= <- <-]. Qed.

(** A copy is a new object; the store is otherwise as before. *)
Lemma copy_inv l σ l' σ' :
  copy l σ = Some (l', σ') ->
  σ !! l' = None /\ unchanged σ σ' /\ dom σ' = {[l']} ∪ dom σ.
Proof.
  unfold copy. destruct (σ !! l) as [f|]; [|discriminate].
  intros [= <- <-].
  assert (Hfresh : σ !! fresh (dom σ) = None)
    by (apply not_elem_of_dom, is_fresh).
  split; [exact Hfresh|]. split.
  - intros k g Hk. rewrite lookup_insert_ne; [exact Hk|]. congruence.
  - apply dom_insert_L.
Qed.

(** Writing a column changes the object written and nothing else. *)
Lemma set_column_inv l name col σ u σ' :
  set_column l name col σ = Some (u, σ') ->
  dom σ' = dom σ /\ forall k, k <> l -> σ' !! k = σ !! k.
Proof.
  unfold set_column. destruct (σ !! l) as [f|] eqn:Hl; [|discriminate].
  destruct (decide (length col = nrows f)); [|discriminate].
  intros [= _ <-]. split.
  - rewrite dom_insert_L. apply subseteq_union_1_L, singleton_subseteq_l.
    eapply elem_of_dom_2, Hl.
  - intros k Hk. now apply lookup_insert_ne.
Qed.

(** Objects distinct from a new one are untouched by writes to it. *)
Lemma unchanged_set_column σ0 l name col σ u σ' :
  σ0 !! l = None -> unchanged σ0 σ ->
  set_column l name col σ = Some (u, σ') -> unchanged σ0 σ'.
Proof.
  intros Hnew Hσ Hset k g Hk.
  destruct (set_column_inv _ _ _ _ _ _ Hset) as [_ Hother].
  rewrite Hother; [now apply Hσ | congruence].
Qed.

(** Peel the first step off a computation; reads and pure steps leave the
    store alone. *)
Ltac step H :=
  let a := fresh "a" in
  let σ1 := fresh "σ" in
  let H1 := fresh "Hstep" in
  apply bind_inv in H as (a & σ1 & H1 & H); cbn zeta in H;
  first [ apply read_inv in H1; subst σ1
        | apply lift_inv in H1; subst σ1
        | idtac ].

(** A component that copies its input and writes to the copy. *)
Ltac copy_then_write H :=
  repeat step H;
  lazymatch goal with
  | Hc : copy _ _ = Some (_, _) |- _ =>
      let Hnew := fresh "Hnew" in
      let Hkeep := fresh "Hkeep" in
      destruct (copy_inv _ _ _ _ Hc) as (Hnew & Hkeep & _);
      repeat match goal with
      | Hs : set_column _ _ _ _ = Some (_, _), Hk : unchanged _ _ |- _ =>
          apply (unchanged_set_column _ _ _ _ _ _ _ Hnew Hk) in Hs; clear Hk
      end;
      apply mret_inv in H as [-> ->]; split; assumption
  end.

Section Components.
Variable ud : UnicodeData.
Variable NON_PRIMARY_TOKENS : gset pystr.
Variables WRatio partial_ratio token_sort_ratio token_set_ratio : pystr -> pystr -> Q.
Context {point embedding : Type}.
Variable to_crs : Q * Q -> point.
Variable tree_query :
  list point -> list point -> nat -> option (list (list Q) * list (list nat)).
Variable encode : pystr -> embedding.
Variable cosine_similarity : embedding -> embedding -> Q.

Lemma search_spatial_candidates_copies reference_gdf compared_gdf k max_dist id_col σ result σ' :
  Frames.search_spatial_candidates_df to_crs tree_query reference_gdf compared_gdf k max_dist id_col σ
    = Some (result, σ') ->
  σ !! result = None /\ unchanged σ σ'.
Proof.
  unfold Frames.search_spatial_candidates_df. intros H. copy_then_write H.
Qed.

Lemma match_by_name_copies reference_gdf compared_gdf re_name_col comp_name_col comp_id
    comp_id_col threshold σ result σ' :
  Frames.match_by_name_df ud NON_PRIMARY_TOKENS WRatio partial_ratio token_sort_ratio
    token_set_ratio reference_gdf compared_gdf re_name_col comp_name_col comp_id comp_id_col
    threshold σ = Some (result, σ') ->
  σ !! result = None /\ unchanged σ σ'.
Proof.
  unfold Frames.match_by_name_df. intros H. copy_then_write H.
Qed.

Lemma address_score_check_copies reference_gdf compared_gdf addr_col_ref addr_col_cmp
    matched_id_col id_col out_col out_addr_col σ result σ' :
  Frames.address_score_check_df ud WRatio partial_ratio token_sort_ratio token_set_ratio
    reference_gdf compared_gdf addr_col_ref addr_col_cmp matched_id_col id_col out_col
    out_addr_col σ = Some (result, σ') ->
  σ !! result = None /\ unchanged σ σ'.
Proof.
  unfold Frames.address_score_check_df. intros H. copy_then_write H.
Qed.

(** C10 holds for the Spatial Candidate Finder, the Name Matcher and the
    Address Scorer, which write to a copy: the result is a new object and
    every object of the caller is as before.  It fails for the Category
    Semantic Scorer: called on [demo_df] it returns [demo_df] itself, and the
    caller's frame has gained the column [category_sim]. *)
Theorem similarity_check_writes_into_its_input :
  (forall reference_gdf compared_gdf k max_dist id_col σ result σ',
     Frames.search_spatial_candidates_df to_crs tree_query reference_gdf compared_gdf k max_dist
       id_col σ = Some (result, σ') ->
     σ !! result = None /\ unchanged σ σ') /\
  (forall reference_gdf compared_gdf re_name_col comp_name_col comp_id comp_id_col threshold
          σ result σ',
     Frames.match_by_name_df ud NON_PRIMARY_TOKENS WRatio partial_ratio token_sort_ratio
       token_set_ratio reference_gdf compared_gdf re_name_col comp_name_col comp_id
       comp_id_col threshold σ = Some (result, σ') ->
     σ !! result = None /\ unchanged σ σ') /\
  (forall reference_gdf compared_gdf addr_col_ref addr_col_cmp matched_id_col id_col out_col
          out_addr_col σ result σ',
     Frames.address_score_check_df ud WRatio partial_ratio token_sort_ratio token_set_ratio
       reference_gdf compared_gdf addr_col_ref addr_col_cmp matched_id_col id_col out_col
       out_addr_col σ = Some (result, σ') ->
     σ !! result = None /\ unchanged σ σ') /\
  exists σ',
    Frames.calculate_similarity_check_df ud encode cosine_similarity demo_df
      "primary_type" "matched_cat_main" "matched_id" "category_sim" demo_store
      = Some (demo_df, σ') /\
    σ' !! demo_df =
      Some {| nrows := 4;
              columns :=
                <["category_sim"%string :=
                    [Num (cosine_similarity (encode (cps "cafe")) (encode (cps "cafe")));
                     Num (cosine_similarity (encode (cps "cafe")) (encode (cps "")));
                     Null; Null]]> (columns demo_matched_frame) |} /\
    demo_store !! demo_df = Some demo_matched_frame /\
    ~ unchanged demo_store σ'.
Proof.
  split; [intros; eapply search_spatial_candidates_copies; eauto|].
  split; [intros; eapply match_by_name_copies; eauto|].
  split; [intros; eapply address_score_check_copies; eauto|].
  eexists. split; [vm_compute; reflexivity|].
  split; [vm_compute; reflexivity|]. split; [reflexivity|].
  intros Hun. specialize (Hun demo_df demo_matched_frame eq_refl).
  apply (f_equal (fun o => o ≫= fun f => columns f !! "category_sim"%string)) in Hun.
  vm_compute in Hun. discriminate.
Qed.
End Components.
End FramesFacts.

(** ** More on the Text Normalizer *)
Module TextShapeFacts.
Import Char Text TextFacts TextShape.
Open Scope N_scope.

Section Shape.
Variable ud : UnicodeData.

Lemma single_spaced_no_double b y :
  single_spaced ud b y = true ->
  (b = true -> head y <> Some SPACE) /\
  forall i, y !! i = Some SPACE -> y !! S i <> Some SPACE.
Proof.
  revert b. induction y as [|c r IH]; intros b H.
  - split; [intros _; discriminate | intros i Hi; destruct i; discriminate].
  - cbn [single_spaced] in H. destruct (Char.is_space ud c) eqn:Hc.
    + apply andb_true_iff in H as [H Hr]. apply andb_true_iff in H as [Hsp Hb].
      apply N.eqb_eq in Hsp. subst c. destruct (IH true Hr) as [Hhead Hrest].
      split.
      * intros ->. discriminate.
      * intros [|i] Hi; cbn in *.
        -- specialize (Hhead eq_refl). destruct r; [discriminate|]. cbn in *. exact Hhead.
        -- now apply Hrest.
    + destruct (IH false H) as [_ Hrest]. split.
      * intros _ [= ->]. rewrite (is_space_SPACE ud) in Hc. discriminate.
      * intros [|i] Hi; cbn in *.
        -- injection Hi as ->. rewrite (is_space_SPACE ud) in Hc. discriminate.
        -- now apply Hrest.
Qed.

Lemma rstrip_fixed_last y c :
  rstrip ud y = y -> last y = Some c -> Char.is_space ud c = false.
Proof.
  induction y as [|a r IH]; [discriminate|].
  intros Hfix Hlast. destruct (rstrip_fixed_tail ud a r Hfix) as [Hr Ha].
  destruct r as [|b r'].
  - cbn in Hlast. injection Hlast as ->.
    destruct (Char.is_space ud c) eqn:E; [|reflexivity]. now specialize (Ha eq_refl).
  - apply IH; [exact Hr|]. exact Hlast.
Qed.

Lemma finish_normal_form s :
  Forall (fun c => ascii_lower c = false) s ->
  normal_form (finish ud s).
Proof.
  intros Hlow. unfold normal_form. split; [|split; [|split]].
  - pose proof (finish_ascii ud s) as Ha.
    pose proof (finish_word_or_SPACE ud s) as Hw.
    assert (Hl : Forall (fun c => ascii_lower c = false) (finish ud s))
      by (apply Forall_finish; [reflexivity | exact Hlow]).
    rewrite Forall_forall in Ha, Hw, Hl. apply Forall_forall. intros c Hc.
    specialize (Ha c Hc). specialize (Hw c Hc). specialize (Hl c Hc).
    destruct Hw as [Hw | ->]; [|auto].
    unfold Char.is_word in Hw. rewrite Ha in Hw. unfold ascii_isalnum in Hw.
    rewrite Hl, orb_false_r in Hw.
    apply orb_true_iff in Hw as [Hw | Hw].
    + apply orb_true_iff in Hw as [Hw | Hw]; auto.
    + apply N.eqb_eq in Hw. auto.
  - destruct (strip_fixed_inv ud _ (finish_stripped ud s)) as [Hh _].
    destruct (finish ud s) as [|c r]; [discriminate|].
    cbn in *. intros [= ->]. rewrite (is_space_SPACE ud) in Hh. discriminate.
  - destruct (strip_fixed_inv ud _ (finish_stripped ud s)) as [_ Hr].
    intros Hl. pose proof (rstrip_fixed_last _ _ Hr Hl) as H.
    rewrite (is_space_SPACE ud) in H. discriminate.
  - apply (single_spaced_no_double false), finish_single_spaced.
Qed.
End Shape.

(** X1: whatever the input, [clean_name] returns a text made of capital
    letters, digits, underscores and single spaces, with no space at either
    end; so does the copy without the possessive rule. *)
Theorem clean_name_normal_form (ud : UnicodeData) (x : pystr) :
  upper_sane ud ->
  normal_form (clean_name ud x) /\ normal_form (address_clean_name ud x).
Proof.
  intros Hud.
  pose proof (upper_not_lower ud (strip_accents ud x) Hud) as Hl.
  split; apply finish_normal_form.
  - apply Forall_sub_s, Forall_sub_apos_s, Forall_sub_parens, Hl.
  - apply Forall_sub_parens, Hl.
Qed.

Lemma clean_name_normal_form_witness :
  upper_sane ucd_excerpt /\
  normal_form (clean_name ucd_excerpt ([67; 97; 102; 233] ++ cps "  & Bar!")).
Proof.
  split; [exact ucd_excerpt_upper_sane|].
  exact (proj1 (clean_name_normal_form ucd_excerpt _ ucd_excerpt_upper_sane)).
Defined.
End TextShapeFacts.

Module TextMoreFacts.
Import Char Text TextFacts.
Open Scope N_scope.

Section Tokens.
Variable ud : UnicodeData.
Variable NON_PRIMARY_TOKENS : gset pystr.

Lemma split_from_token tok t s :
  Forall (fun c => Char.is_space ud c = false) t ->
  split_from ud tok (t ++ s) = split_from ud (tok ++ t) s.
Proof.
  revert tok. induction t as [|c t IH]; intros tok Ht.
  - now rewrite app_nil_r.
  - apply Forall_cons in Ht as [Hc Ht]. cbn [app split_from]. rewrite Hc.
    rewrite IH by exact Ht. now rewrite <- app_assoc.
Qed.

(** Splitting what was joined by single spaces gives the tokens back. *)
Lemma split_join toks :
  Forall (token_ok ud) toks -> split ud (join [SPACE] toks) = toks.
Proof.
  unfold split. induction toks as [|t r IH]; intros Hok; [reflexivity|].
  apply Forall_cons in Hok as [[Hne Ht] Hr].
  cbn [join]. destruct r as [|u r'].
  - replace (split_from ud [] t) with (split_from ud [] (t ++ []))
      by (now rewrite app_nil_r).
    rewrite split_from_token by exact Ht. cbn.
    destruct t; [congruence | reflexivity].
  - rewrite split_from_token by exact Ht. cbn [app split_from].
    rewrite (is_space_SPACE ud). cbn [app]. rewrite IH by exact Hr.
    destruct t; [congruence | reflexivity].
Qed.

Lemma core_tokens_ok name : Forall (token_ok ud) (core_tokens ud NON_PRIMARY_TOKENS name).
Proof.
  unfold core_tokens. apply Forall_forall. intros t Ht.
  apply list_elem_of_filter in Ht as [_ Ht].
  pose proof (split_tokens ud name) as H. rewrite Forall_forall in H. now apply H.
Qed.

Lemma core_tokens_join name :
  core_tokens ud NON_PRIMARY_TOKENS (join [SPACE] (core_tokens ud NON_PRIMARY_TOKENS name))
    = core_tokens ud NON_PRIMARY_TOKENS name.
Proof.
  unfold core_tokens at 1. rewrite split_join by apply core_tokens_ok.
  unfold core_tokens. rewrite list_filter_filter.
  apply list_filter_iff. tauto.
Qed.

Lemma join_nonempty t r : t <> [] -> join [SPACE] (t :: r) <> [].
Proof.
  intros Ht. cbn [join]. destruct r; [exact Ht|].
  destruct t; [congruence | discriminate].
Qed.
End Tokens.

(** X2: [extract_prinmary_str] is idempotent: applied to its own result it
    changes nothing, whatever the exclusion set. *)
Theorem extract_prinmary_str_idempotent
    (ud : UnicodeData) (NON_PRIMARY_TOKENS : gset pystr) (name : pystr) :
  extract_prinmary_str ud NON_PRIMARY_TOKENS (extract_prinmary_str ud NON_PRIMARY_TOKENS name)
    = extract_prinmary_str ud NON_PRIMARY_TOKENS name.
Proof.
  unfold extract_prinmary_str at 2.
  destruct ((length (core_tokens ud NON_PRIMARY_TOKENS name) =? 1)%nat &&
            (length (hd [] (core_tokens ud NON_PRIMARY_TOKENS name)) <? 3)%nat) eqn:E.
  - unfold extract_prinmary_str. now rewrite E.
  - destruct (core_tokens ud NON_PRIMARY_TOKENS name) as [|t r] eqn:Hcore.
    + unfold extract_prinmary_str. now rewrite Hcore.
    + rewrite <- Hcore. unfold extract_prinmary_str.
      rewrite core_tokens_join, Hcore, E. reflexivity.
Qed.

(** X3: [extract_prinmary_str] returns the empty string for the empty string
    only: a name that has any code point keeps at least one. *)
Theorem extract_prinmary_str_empty_iff
    (ud : UnicodeData) (NON_PRIMARY_TOKENS : gset pystr) (name : pystr) :
  extract_prinmary_str ud NON_PRIMARY_TOKENS name = [] <-> name = [].
Proof.
  split.
  - unfold extract_prinmary_str.
    destruct (_ && _); [tauto|].
    pose proof (core_tokens_ok ud NON_PRIMARY_TOKENS name) as Hok.
    destruct (core_tokens ud NON_PRIMARY_TOKENS name) as [|t r]; [tauto|].
    apply Forall_cons in Hok as [[Hne _] _].
    intros H. now apply join_nonempty in H.
  - intros ->. reflexivity.
Qed.

Section Parens.
Variable ud : UnicodeData.

Lemma sub_parens_outside a s :
  Forall (fun c => c <> LPAREN) a ->
  sub_parens false (a ++ s) = a ++ sub_parens false s.
Proof.
  induction 1 as [|c a Hc Ha IH]; [reflexivity|].
  cbn [app sub_parens]. apply N.eqb_neq in Hc. rewrite Hc. cbn. now rewrite IH.
Qed.

Lemma sub_parens_inside b s :
  Forall (fun c => c <> RPAREN) b ->
  sub_parens true (b ++ RPAREN :: s) = sub_parens false s.
Proof.
  induction 1 as [|c b Hc Hb IH]; [reflexivity|].
  cbn [app sub_parens]. apply N.eqb_neq in Hc. now rewrite Hc.
Qed.

Lemma sub_parens_remark a b s :
  Forall (fun c => c <> LPAREN) a ->
  Forall (fun c => c <> RPAREN) b ->
  sub_parens false (a ++ LPAREN :: b ++ RPAREN :: s) = sub_parens false (a ++ s).
Proof.
  intros Ha Hb. rewrite !sub_parens_outside by exact Ha. f_equal.
  cbn [sub_parens]. rewrite N.eqb_refl. cbn [andb].
  replace (existsb (N.eqb RPAREN) (b ++ RPAREN :: s)) with true.
  - now apply sub_parens_inside.
  - symmetry. apply existsb_exists. exists RPAREN. split; [|apply N.eqb_refl].
    apply in_or_app. right. now left.
Qed.

Lemma ascii_toupper_neq c d :
  ascii_lower d = false -> ascii_upper_letter d = false -> c <> d -> ascii_toupper c <> d.
Proof.
  unfold ascii_toupper, ascii_lower, ascii_upper_letter. intros Hl Hu Hne.
  destruct (N.leb_spec 97 c), (N.leb_spec c 122); cbn; try exact Hne.
  intros <-. revert Hu.
  destruct (N.leb_spec 65 (c - 32)), (N.leb_spec (c - 32) 90); cbn; try discriminate; lia.
Qed.

Lemma upper_strip_ascii s :
  Forall (fun c => is_ascii c = true) s ->
  upper ud (strip_accents ud s) = map ascii_toupper s.
Proof.
  intros Ha. now rewrite strip_accents_ascii, upper_ascii.
Qed.

Lemma upper_strip_app s t :
  upper ud (strip_accents ud (s ++ t))
    = upper ud (strip_accents ud s) ++ upper ud (strip_accents ud t).
Proof.
  unfold upper, strip_accents. now rewrite flat_map_app, List.filter_app, flat_map_app.
Qed.

Lemma prepare_remark a b s :
  Forall (fun c => is_ascii c = true) a ->
  Forall (fun c => is_ascii c = true) b ->
  Forall (fun c => c <> LPAREN) a ->
  Forall (fun c => c <> RPAREN) b ->
  prepare ud (a ++ LPAREN :: b ++ RPAREN :: s) = prepare ud (a ++ s).
Proof.
  intros Ha Hb Hna Hnb. unfold prepare.
  rewrite !upper_strip_app.
  change (LPAREN :: b ++ RPAREN :: s) with ([LPAREN] ++ b ++ [RPAREN] ++ s).
  rewrite !upper_strip_app.
  rewrite (upper_strip_ascii a Ha), (upper_strip_ascii b Hb).
  rewrite (upper_strip_ascii [LPAREN]), (upper_strip_ascii [RPAREN])
    by (repeat constructor).
  cbn [map app]. change (ascii_toupper LPAREN) with LPAREN.
  change (ascii_toupper RPAREN) with RPAREN.
  apply sub_parens_remark.
  - apply Forall_forall. intros c Hc. apply list_elem_of_fmap in Hc as (c0 & -> & Hc0).
    rewrite Forall_forall in Hna. apply ascii_toupper_neq; [reflexivity | reflexivity | auto].
  - apply Forall_forall. intros c Hc. apply list_elem_of_fmap in Hc as (c0 & -> & Hc0).
    rewrite Forall_forall in Hnb. apply ascii_toupper_neq; [reflexivity | reflexivity | auto].
Qed.
End Parens.

(** X4: a remark in parentheses is ignored: for ASCII texts [a] without an
    opening and [b] without a closing parenthesis, [a(b)s] normalises as
    [as] does, with either copy of [clean_name]. *)
Theorem clean_name_drops_remark (ud : UnicodeData) (a b s : pystr) :
  Forall (fun c => is_ascii c = true) a ->
  Forall (fun c => is_ascii c = true) b ->
  Forall (fun c => c <> LPAREN) a ->
  Forall (fun c => c <> RPAREN) b ->
  clean_name ud (a ++ LPAREN :: b ++ RPAREN :: s) = clean_name ud (a ++ s) /\
  address_clean_name ud (a ++ LPAREN :: b ++ RPAREN :: s) = address_clean_name ud (a ++ s).
Proof.
  intros Ha Hb Hna Hnb. unfold clean_name, address_clean_name.
  now rewrite (prepare_remark ud a b s Ha Hb Hna Hnb).
Qed.

Lemma clean_name_drops_remark_witness :
  Forall (fun c => is_ascii c = true) (cps "Joe's ") /\
  Forall (fun c => is_ascii c = true) (cps "(2nd floor") /\
  Forall (fun c => c <> LPAREN) (cps "Joe's ") /\
  Forall (fun c => c <> RPAREN) (cps "(2nd floor") /\
  clean_name ucd_excerpt (cps "Joe's ((2nd floor) Diner") = clean_name ucd_excerpt (cps "Joe's  Diner").
Proof.
  assert (H1 : Forall (fun c => is_ascii c = true) (cps "Joe's ")) by (repeat constructor).
  assert (H2 : Forall (fun c => is_ascii c = true) (cps "(2nd floor")) by (repeat constructor).
  assert (H3 : Forall (fun c => c <> LPAREN) (cps "Joe's ")) by (repeat constructor; discriminate).
  assert (H4 : Forall (fun c => c <> RPAREN) (cps "(2nd floor")) by (repeat constructor; discriminate).
  split; [exact H1|]. split; [exact H2|]. split; [exact H3|]. split; [exact H4|].
  exact (proj1 (clean_name_drops_remark ucd_excerpt (cps "Joe's ") (cps "(2nd floor")
                  (cps " Diner") H1 H2 H3 H4)).
Defined.

(** X5: letter case is ignored on ASCII texts: two texts with the same
    upper-casing normalise to the same text. *)
Theorem clean_name_ignores_case (ud : UnicodeData) (x y : pystr) :
  Forall (fun c => is_ascii c = true) x ->
  Forall (fun c => is_ascii c = true) y ->
  map ascii_toupper x = map ascii_toupper y ->
  clean_name ud x = clean_name ud y /\ address_clean_name ud x = address_clean_name ud y.
Proof.
  intros Hx Hy Heq. unfold clean_name, address_clean_name, prepare.
  now rewrite (upper_strip_ascii ud x Hx), (upper_strip_ascii ud y Hy), Heq.
Qed.

Lemma clean_name_ignores_case_witness :
  Forall (fun c => is_ascii c = true) (cps "Trader Joe's") /\
  Forall (fun c => is_ascii c = true) (cps "TRADER JOE'S") /\
  map ascii_toupper (cps "Trader Joe's") = map ascii_toupper (cps "TRADER JOE'S") /\
  clean_name ucd_excerpt (cps "Trader Joe's") = clean_name ucd_excerpt (cps "TRADER JOE'S").
Proof.
  assert (H1 : Forall (fun c => is_ascii c = true) (cps "Trader Joe's")) by (repeat constructor).
  assert (H2 : Forall (fun c => is_ascii c = true) (cps "TRADER JOE'S")) by (repeat constructor).
  split; [exact H1|]. split; [exact H2|]. split; [reflexivity|].
  exact (proj1 (clean_name_ignores_case ucd_excerpt _ _ H1 H2 eq_refl)).
Defined.
End TextMoreFacts.

(** ** More on the Name Matcher *)
Module NameMatcherMoreFacts.
Import Char Text NameMatcher Demo NameMatcherFacts EarlierMatcher.
Open Scope Q_scope.

(** *** Dictionaries built from columns *)

Lemma to_dict_app {V} (l1 l2 : list (ident * V)) :
  to_dict (l1 ++ l2) = foldl (fun m kv => <[kv.1 := kv.2]> m) (to_dict l1) l2.
Proof. unfold to_dict. apply foldl_app. Qed.

Lemma foldl_insert_absent {V} (l : list (ident * V)) (m : gmap ident V) k :
  Forall (fun kv => kv.1 <> k) l ->
  foldl (fun m kv => <[kv.1 := kv.2]> m) m l !! k = m !! k.
Proof.
  revert m. induction l as [|[k' v'] l IH]; intros m Hl; [reflexivity|].
  apply Forall_cons in Hl as [Hk Hl]. cbn [foldl]. rewrite IH by exact Hl.
  cbn [fst snd] in *. now rewrite lookup_insert_ne.
Qed.

Lemma to_dict_last {V} (pre post : list (ident * V)) k v :
  Forall (fun kv => kv.1 <> k) post ->
  to_dict (pre ++ (k, v) :: post) !! k = Some v.
Proof.
  intros Hpost. rewrite to_dict_app. cbn [foldl fst snd].
  rewrite foldl_insert_absent by exact Hpost. apply lookup_insert_eq.
Qed.

Lemma to_dict_absent {V} (l : list (ident * V)) k :
  Forall (fun kv => kv.1 <> k) l -> to_dict l !! k = None.
Proof. intros Hl. unfold to_dict. now rewrite foldl_insert_absent. Qed.

Lemma to_dict_elem {V} (l : list (ident * V)) k v :
  to_dict l !! k = Some v -> (k, v) ∈ l.
Proof.
  induction l as [|[k' v'] l IH] using rev_ind; [discriminate|].
  rewrite to_dict_app. cbn [foldl fst snd].
  destruct (decide (k' = k)) as [->|Hne].
  - rewrite lookup_insert_eq. intros [= ->]. apply elem_of_app. right. left.
  - rewrite lookup_insert_ne by exact Hne. intros H. apply elem_of_app. left. now apply IH.
Qed.

(** X8: an identifier that several comparison rows carry is looked up as
    the last of them; one that no row carries is not in the tables, so that
    the candidate is scored as the empty name and reported without name and
    category. *)
Theorem repeated_id_last_row_wins
    (ud : UnicodeData) (NON_PRIMARY_TOKENS : gset pystr)
    (compared_gdf : list comp_row) (cid : ident) :
  (forall pre c post,
     compared_gdf = pre ++ c :: post -> comp_id c = cid ->
     Forall (fun c' => comp_id c' <> cid) post ->
     id_to_name_clean ud NON_PRIMARY_TOKENS compared_gdf !! cid
       = Some (extract_prinmary_str ud NON_PRIMARY_TOKENS (clean_name_value ud (comp_name c))) /\
     id_to_name_raw compared_gdf !! cid = Some (comp_name c) /\
     id_to_cat compared_gdf !! cid = Some (comp_cat c)) /\
  (Forall (fun c => comp_id c <> cid) compared_gdf ->
     id_to_name_clean ud NON_PRIMARY_TOKENS compared_gdf !! cid = None /\
     id_to_name_raw compared_gdf !! cid = None /\
     id_to_cat compared_gdf !! cid = None /\
     forall row i, cand_ids row !! i = Some cid ->
       cand_names ud NON_PRIMARY_TOKENS compared_gdf row !! i = Some []).
Proof.
  split.
  - intros pre c post -> <- Hpost.
    unfold id_to_name_clean, id_to_name_raw, id_to_cat.
    rewrite !map_app. cbn [map].
    repeat split; apply to_dict_last; apply Forall_fmap;
      (eapply Forall_impl; [exact Hpost|]); intros c' Hc'; exact Hc'.
  - intros Habs.
    assert (H1 : id_to_name_clean ud NON_PRIMARY_TOKENS compared_gdf !! cid = None).
    { apply to_dict_absent, Forall_fmap.
      eapply Forall_impl; [exact Habs|]. intros c' Hc'. exact Hc'. }
    split; [exact H1|]. split; [|split].
    + apply to_dict_absent, Forall_fmap.
      eapply Forall_impl; [exact Habs|]. intros c' Hc'. exact Hc'.
    + apply to_dict_absent, Forall_fmap.
      eapply Forall_impl; [exact Habs|]. intros c' Hc'. exact Hc'.
    + intros row i Hi. unfold cand_names. rewrite list_lookup_fmap, Hi. cbn.
      now rewrite H1.
Qed.

(** *** The threshold *)

(** X6: the threshold decides only whether the winner is reported: the score
    of a row does not depend on it, and a row matched under a threshold is
    matched, with the same record, under every lower one. *)
Theorem lower_threshold_keeps_matches
    (ud : UnicodeData) (NON_PRIMARY_TOKENS : gset pystr)
    (WRatio partial_ratio token_sort_ratio token_set_ratio : pystr -> pystr -> Q)
    (compared_gdf : list comp_row) (t t' : Q) (row : ref_row) :
  (forall query name, 0 <= WRatio query name) ->
  length (cand_dist_m row) = length (cand_ids row) ->
  t' <= t ->
  exists r r',
    match_row ud NON_PRIMARY_TOKENS WRatio partial_ratio token_sort_ratio token_set_ratio
      compared_gdf t row = Some r /\
    match_row ud NON_PRIMARY_TOKENS WRatio partial_ratio token_sort_ratio token_set_ratio
      compared_gdf t' row = Some r' /\
    name_score r' = name_score r /\
    (matched_id r <> None -> r' = r).
Proof.
  intros Hnn Hlen Hle. destruct (cand_ids row) as [|c0 ids] eqn:Hids.
  - exists (unmatched None), (unmatched None). unfold match_row. rewrite Hids.
    repeat split; congruence.
  - assert (Hne : cand_ids row <> []) by congruence.
    rewrite <- Hids in Hlen.
    destruct (match_row_spec ud NON_PRIMARY_TOKENS WRatio partial_ratio token_sort_ratio
                token_set_ratio compared_gdf t Hnn row Hne Hlen)
      as (s & pos & cid & d & Hsel & Hcid & Hd & Hrow).
    destruct (match_row_spec ud NON_PRIMARY_TOKENS WRatio partial_ratio token_sort_ratio
                token_set_ratio compared_gdf t' Hnn row Hne Hlen)
      as (s' & pos' & cid' & d' & Hsel' & Hcid' & Hd' & Hrow').
    rewrite Hsel in Hsel'. injection Hsel' as <- <-.
    rewrite Hcid in Hcid'. injection Hcid' as <-.
    rewrite Hd in Hd'. injection Hd' as <-.
    eexists _, _. split; [exact Hrow|]. split; [exact Hrow'|].
    destruct (Qle_bool t s) eqn:E.
    + apply Qle_bool_iff in E.
      assert (E' : Qle_bool t' s = true) by (apply Qle_bool_iff; eapply Qle_trans; eauto).
      rewrite E'. split; reflexivity.
    + split; [destruct (Qle_bool t' s); reflexivity|]. cbn. congruence.
Qed.

Lemma lower_threshold_keeps_matches_witness :
  (forall query name, 0 <= demo_WRatio query name) /\
  length (cand_dist_m tie_row) = length (cand_ids tie_row) /\
  60 <= 80 /\
  exists r r',
    demo_match_row 80 tie_row = Some r /\
    demo_match_row 60 tie_row = Some r' /\
    name_score r' = name_score r /\
    (matched_id r <> None -> r' = r).
Proof.
  split; [exact demo_WRatio_nonneg|]. split; [reflexivity|].
  assert (H : 60 <= 80) by (unfold Qle; cbn; lia).
  split; [exact H|].
  exact (lower_threshold_keeps_matches ucd_excerpt ∅ demo_WRatio demo_partial_ratio
           demo_token_sort_ratio demo_token_set_ratio demo_compared 80 60 tie_row
           demo_WRatio_nonneg eq_refl H).
Defined.

(** *** The range of the score *)

(** X7: the score of a row with candidates is at least the weighted ratio of
    every candidate of the row (so never the initial -1), and it is one of
    the four scores of one candidate, hence within any bounds the scorers
    keep. *)
Theorem name_score_bounds
    (ud : UnicodeData) (NON_PRIMARY_TOKENS : gset pystr)
    (WRatio partial_ratio token_sort_ratio token_set_ratio : pystr -> pystr -> Q)
    (compared_gdf : list comp_row) (threshold : Q) (row : ref_row) :
  (forall query name, 0 <= WRatio query name) ->
  cand_ids row <> [] ->
  length (cand_dist_m row) = length (cand_ids row) ->
  exists r s name,
    match_row ud NON_PRIMARY_TOKENS WRatio partial_ratio token_sort_ratio token_set_ratio
      compared_gdf threshold row = Some r /\
    name_score r = Some s /\
    0 <= s /\
    (forall n, n ∈ cand_names ud NON_PRIMARY_TOKENS compared_gdf row ->
       WRatio (query_of ud NON_PRIMARY_TOKENS row) n <= s) /\
    name ∈ cand_names ud NON_PRIMARY_TOKENS compared_gdf row /\
    (s = WRatio (query_of ud NON_PRIMARY_TOKENS row) name \/
     s = partial_ratio (query_of ud NON_PRIMARY_TOKENS row) name \/
     s = token_sort_ratio (query_of ud NON_PRIMARY_TOKENS row) name \/
     s = token_set_ratio (query_of ud NON_PRIMARY_TOKENS row) name).
Proof.
  intros Hnn Hne Hlen.
  destruct (select_best_spec ud NON_PRIMARY_TOKENS WRatio partial_ratio token_sort_ratio
              token_set_ratio compared_gdf Hnn row Hne)
    as (i & pos & name & Hi & Hname & Hsel & Hbound & _).
  destruct (match_row_spec ud NON_PRIMARY_TOKENS WRatio partial_ratio token_sort_ratio
              token_set_ratio compared_gdf threshold Hnn row Hne Hlen)
    as (s & pos' & cid & d & Hsel' & _ & _ & Hrow).
  rewrite Hsel in Hsel'. injection Hsel' as <- <-.
  set (q := query_of ud NON_PRIMARY_TOKENS row) in *.
  set (names := cand_names ud NON_PRIMARY_TOKENS compared_gdf row) in *.
  assert (Hall : forall n, n ∈ names ->
            WRatio q n <= combined_score WRatio partial_ratio token_sort_ratio
                            token_set_ratio q name).
  { intros n Hn. apply list_elem_of_lookup_1 in Hn as [k Hk].
    destruct (top_matches ud NON_PRIMARY_TOKENS WRatio compared_gdf row) as [|h tl] eqn:Htop.
    { rewrite lookup_nil in Hi. discriminate. }
    assert (Hh : head (ranked_choices WRatio q names) = Some h).
    { unfold top_matches, process_extract in Htop. fold q names in Htop.
      destruct (ranked_choices WRatio q names); [discriminate|].
      cbn in Htop. now injection Htop as -> _. }
    destruct (ranked_head WRatio q names h Hh) as ((c & Hc & Hhe) & Hmax & _).
    eapply Qle_trans; [exact (Hmax k n Hk)|].
    eapply Qle_trans; [|apply (Hbound h); left].
    rewrite Hhe. cbn [fst snd]. unfold combined_score.
    apply (combined_upper partial_ratio token_sort_ratio token_set_ratio q c (WRatio q c)). }
  eexists _, _, name. split; [exact Hrow|].
  split; [destruct (Qle_bool threshold _); reflexivity|].
  split.
  { eapply Qle_trans; [apply (Hnn q name)|]. apply Hall.
    eapply list_elem_of_lookup_2, Hname. }
  split; [exact Hall|].
  split; [eapply list_elem_of_lookup_2, Hname|].
  apply combined_is_one.
Qed.

Lemma name_score_bounds_witness :
  (forall query name, 0 <= demo_WRatio query name) /\
  cand_ids six_row <> [] /\
  length (cand_dist_m six_row) = length (cand_ids six_row) /\
  exists r s,
    demo_match_row 80 six_row = Some r /\ name_score r = Some s /\ 0 <= s.
Proof.
  split; [exact demo_WRatio_nonneg|]. split; [discriminate|]. split; [reflexivity|].
  destruct (name_score_bounds ucd_excerpt ∅ demo_WRatio demo_partial_ratio
              demo_token_sort_ratio demo_token_set_ratio demo_compared 80 six_row
              demo_WRatio_nonneg ltac:(discriminate) eq_refl)
    as (r & s & name & H1 & H2 & H3 & _).
  exists r, s. repeat split; assumption.
Defined.

(** *** The earlier matcher *)

(** X9: the earlier matcher reports the candidate with the greatest weighted
    ratio among all candidates of the row, the nearest of them when several
    have it; the score is the greatest of that candidate's four scores, and
    the candidate is matched exactly when the score reaches the threshold. *)
Theorem earlier_winner_has_greatest_weighted_ratio
    (ud : UnicodeData) (NON_PRIMARY_TOKENS : gset pystr)
    (WRatio partial_ratio token_sort_ratio token_set_ratio : pystr -> pystr -> Q)
    (compared_gdf : list comp_row) (threshold : Q) (row : ref_row) :
  cand_ids row <> [] ->
  length (cand_dist_m row) = length (cand_ids row) ->
  exists pos name r,
    earlier_cand_names ud NON_PRIMARY_TOKENS compared_gdf row !! pos = Some name /\
    (forall i n, earlier_cand_names ud NON_PRIMARY_TOKENS compared_gdf row !! i = Some n ->
       WRatio (earlier_query_of ud NON_PRIMARY_TOKENS row) n
         <= WRatio (earlier_query_of ud NON_PRIMARY_TOKENS row) name) /\
    (forall i n, (i < pos)%nat ->
       earlier_cand_names ud NON_PRIMARY_TOKENS compared_gdf row !! i = Some n ->
       WRatio (earlier_query_of ud NON_PRIMARY_TOKENS row) n
         < WRatio (earlier_query_of ud NON_PRIMARY_TOKENS row) name) /\
    earlier_match_row ud NON_PRIMARY_TOKENS WRatio partial_ratio token_sort_ratio
      token_set_ratio compared_gdf threshold row = Some r /\
    earlier_name_score r
      = Some (combined_score WRatio partial_ratio token_sort_ratio token_set_ratio
                (earlier_query_of ud NON_PRIMARY_TOKENS row) name) /\
    (earlier_matched_id r <> None <->
       threshold <= combined_score WRatio partial_ratio token_sort_ratio token_set_ratio
                      (earlier_query_of ud NON_PRIMARY_TOKENS row) name) /\
    (earlier_matched_id r <> None ->
       earlier_matched_id r = cand_ids row !! pos /\
       earlier_location_distance r = cand_dist_m row !! pos).
Proof.
  intros Hne Hlen.
  set (q := earlier_query_of ud NON_PRIMARY_TOKENS row).
  set (names := earlier_cand_names ud NON_PRIMARY_TOKENS compared_gdf row).
  assert (Hnames : names <> []).
  { unfold names, earlier_cand_names. destruct (cand_ids row); [congruence | discriminate]. }
  destruct (ranked_nonempty WRatio q names Hnames) as [h Hh].
  destruct (ranked_head WRatio q names h Hh) as ((name & Hname & Hhe) & Hmax & Hfirst).
  assert (Hwr : h.1.2 = WRatio q name) by (rewrite Hhe; reflexivity).
  rewrite Hwr in Hmax, Hfirst.
  assert (Hcid : is_Some (cand_ids row !! h.2)).
  { apply lookup_lt_is_Some. apply lookup_lt_Some in Hname.
    unfold names, earlier_cand_names in Hname. now rewrite length_map in Hname. }
  destruct Hcid as [cid Hcid].
  assert (Hd : is_Some (cand_dist_m row !! h.2)).
  { apply lookup_lt_is_Some. rewrite Hlen. eapply lookup_lt_Some, Hcid. }
  destruct Hd as [d Hd].
  exists h.2, name.
  unfold earlier_match_row. fold q names.
  destruct (cand_ids row) as [|c0 ids] eqn:Hids; [congruence|]. rewrite <- Hids in *.
  unfold process_extractOne. rewrite Hh. cbn [mbind option_bind].
  rewrite Hname. cbn [mbind option_bind]. rewrite Hwr.
  fold (combined_score WRatio partial_ratio token_sort_ratio token_set_ratio q name).
  destruct (Qle_bool threshold
              (combined_score WRatio partial_ratio token_sort_ratio token_set_ratio q name))
    eqn:E.
  - rewrite Hcid. cbn [mbind option_bind]. rewrite Hd. cbn [mbind option_bind].
    eexists. split; [reflexivity|]. split; [exact Hmax|]. split; [exact Hfirst|].
    split; [reflexivity|]. cbn. split; [reflexivity|].
    apply Qle_bool_iff in E. split; [split; [intros _; exact E | congruence]|].
    intros _. split; reflexivity.
  - eexists. split; [reflexivity|]. split; [exact Hmax|]. split; [exact Hfirst|].
    split; [reflexivity|]. cbn. split; [reflexivity|].
    split; [split; [congruence|]|congruence].
    intros Hle. apply Qle_bool_iff in Hle. congruence.
Qed.

Lemma earlier_winner_has_greatest_weighted_ratio_witness :
  cand_ids six_row <> [] /\
  length (cand_dist_m six_row) = length (cand_ids six_row) /\
  exists pos name r,
    earlier_cand_names ucd_excerpt ∅ demo_compared six_row !! pos = Some name /\
    earlier_match_row ucd_excerpt ∅ demo_WRatio demo_partial_ratio demo_token_sort_ratio
      demo_token_set_ratio demo_compared 80 six_row = Some r /\
    earlier_name_score r
      = Some (demo_combined_score (earlier_query_of ucd_excerpt ∅ six_row) name).
Proof.
  split; [discriminate|]. split; [reflexivity|].
  destruct (earlier_winner_has_greatest_weighted_ratio ucd_excerpt ∅ demo_WRatio
              demo_partial_ratio demo_token_sort_ratio demo_token_set_ratio demo_compared 80
              six_row ltac:(discriminate) eq_refl)
    as (pos & name & r & H1 & _ & _ & H4 & H5 & _).
  exists pos, name, r. repeat split; assumption.
Defined.
End NameMatcherMoreFacts.

(** ** The finder and the matcher together *)
Module PipelineFacts.
Import Char Text NameMatcher Spatial Demo NameMatcherFacts SpatialFacts.
Open Scope Q_scope.

Section Matcher.
Variable ud : UnicodeData.
Variable NON_PRIMARY_TOKENS : gset pystr.
Variables WRatio partial_ratio token_sort_ratio token_set_ratio : pystr -> pystr -> Q.
Variable compared_gdf : list comp_row.
Variable threshold : Q.

Abbreviation match_row :=
  (NameMatcher.match_row ud NON_PRIMARY_TOKENS WRatio partial_ratio token_sort_ratio
     token_set_ratio compared_gdf threshold).
Abbreviation match_by_name :=
  (NameMatcher.match_by_name ud NON_PRIMARY_TOKENS WRatio partial_ratio token_sort_ratio
     token_set_ratio compared_gdf threshold).

Lemma match_row_returns row :
  (forall query name, 0 <= WRatio query name) ->
  length (cand_dist_m row) = length (cand_ids row) ->
  exists r, match_row row = Some r.
Proof.
  intros Hnn Hlen. destruct (cand_ids row) as [|c ids] eqn:Hids.
  - exists (unmatched None). unfold NameMatcher.match_row. now rewrite Hids.
  - assert (Hne : cand_ids row <> []) by congruence. rewrite <- Hids in Hlen.
    destruct (match_row_spec ud NON_PRIMARY_TOKENS WRatio partial_ratio token_sort_ratio
                token_set_ratio compared_gdf threshold Hnn row Hne Hlen)
      as (s & pos & cid & d & _ & _ & _ & Hrow).
    eexists. exact Hrow.
Qed.

Lemma match_by_name_returns reference_gdf :
  (forall query name, 0 <= WRatio query name) ->
  Forall (fun row => length (cand_dist_m row) = length (cand_ids row)) reference_gdf ->
  exists out,
    match_by_name reference_gdf = Some out /\
    Forall2 (fun row r => match_row row = Some r) reference_gdf out.
Proof.
  intros Hnn Hrows. unfold NameMatcher.match_by_name.
  eapply mapM_exists; [exact Hrows|].
  intros row Hrow. destruct (match_row_returns row Hnn Hrow) as [r Hr]. eauto.
Qed.
End Matcher.

(** X10: [match_by_name] raises on no reference frame whose rows have as
    many candidate distances as candidate identifiers: it returns one record
    per reference row, in the order of the rows, each the result of that row
    alone. *)
Theorem match_by_name_never_raises
    (ud : UnicodeData) (NON_PRIMARY_TOKENS : gset pystr)
    (WRatio partial_ratio token_sort_ratio token_set_ratio : pystr -> pystr -> Q)
    (compared_gdf : list comp_row) (threshold : Q) (reference_gdf : list ref_row) :
  (forall query name, 0 <= WRatio query name) ->
  Forall (fun row => length (cand_dist_m row) = length (cand_ids row)) reference_gdf ->
  exists out,
    match_by_name ud NON_PRIMARY_TOKENS WRatio partial_ratio token_sort_ratio token_set_ratio
      compared_gdf threshold reference_gdf = Some out /\
    length out = length reference_gdf /\
    Forall2 (fun row r =>
               match_row ud NON_PRIMARY_TOKENS WRatio partial_ratio token_sort_ratio
                 token_set_ratio compared_gdf threshold row = Some r)
      reference_gdf out.
Proof.
  intros Hnn Hrows.
  destruct (match_by_name_returns ud NON_PRIMARY_TOKENS WRatio partial_ratio token_sort_ratio
              token_set_ratio compared_gdf threshold reference_gdf Hnn Hrows)
    as (out & Hrun & Hout).
  exists out. split; [exact Hrun|]. split; [|exact Hout].
  symmetry. exact (Forall2_length _ _ _ Hout).
Qed.

Lemma match_by_name_never_raises_witness :
  (forall query name, 0 <= demo_WRatio query name) /\
  Forall (fun row => length (cand_dist_m row) = length (cand_ids row))
    [tie_row; six_row; nameless_row] /\
  exists out,
    match_by_name ucd_excerpt ∅ demo_WRatio demo_partial_ratio demo_token_sort_ratio
      demo_token_set_ratio demo_compared 80 [tie_row; six_row; nameless_row] = Some out /\
    length out = 3%nat.
Proof.
  split; [exact demo_WRatio_nonneg|].
  assert (H : Forall (fun row => length (cand_dist_m row) = length (cand_ids row))
                [tie_row; six_row; nameless_row]) by (repeat constructor).
  split; [exact H|].
  destruct (match_by_name_never_raises ucd_excerpt ∅ demo_WRatio demo_partial_ratio
              demo_token_sort_ratio demo_token_set_ratio demo_compared 80
              [tie_row; six_row; nameless_row] demo_WRatio_nonneg H)
    as (out & H1 & H2 & _).
  exists out. split; assumption.
Defined.

(** X11: the Name Matcher accepts what the Spatial Candidate Finder returns:
    whatever the names of the reference rows, the candidate lists found for
    them make a reference frame on which [match_by_name] returns, with one
    record per reference row. *)
Theorem match_by_name_accepts_search_output
    {geom point : Type} (to_crs : geom -> point)
    (tree_query : list point -> list point -> nat -> option (list (list Q) * list (list nat)))
    (ud : UnicodeData) (NON_PRIMARY_TOKENS : gset pystr)
    (WRatio partial_ratio token_sort_ratio token_set_ratio : pystr -> pystr -> Q)
    (reference_gdf : list (option pystr * geom)) (compared_gdf : list (ident * geom))
    (compared_names : list comp_row) (k : nat) (max_dist threshold : Q) :
  query_contract tree_query (map (fun c => to_crs c.2) compared_gdf)
    (map to_crs reference_gdf.*2) (Nat.min k (length compared_gdf)) ->
  NoDup compared_gdf.*1 ->
  (forall query name, 0 <= WRatio query name) ->
  exists cands out,
    search_spatial_candidates to_crs tree_query reference_gdf.*2 compared_gdf k max_dist
      = Some cands /\
    match_by_name ud NON_PRIMARY_TOKENS WRatio partial_ratio token_sort_ratio token_set_ratio
      compared_names threshold
      (zip_with (fun name c => {| ref_name := name; cand_ids := c.1; cand_dist_m := c.2 |})
         reference_gdf.*1 cands) = Some out /\
    length out = length reference_gdf.
Proof.
  intros Hcontract Hids Hnn.
  destruct (search_spec to_crs tree_query reference_gdf.*2 compared_gdf k max_dist
              Hcontract Hids) as (cands & Hrun & Hlen & dist & idx & _ & Hrows).
  set (rows := zip_with (fun name c => {| ref_name := name; cand_ids := c.1;
                                          cand_dist_m := c.2 |}) reference_gdf.*1 cands).
  assert (Hok : Forall (fun row => length (cand_dist_m row) = length (cand_ids row)) rows).
  { apply Forall_forall. intros row Hrow.
    apply list_elem_of_lookup_1 in Hrow as [i Hi]. unfold rows in Hi.
    apply lookup_zip_with_Some in Hi as (name & c & -> & _ & Hc). cbn.
    destruct (Forall2_lookup_r _ _ _ _ _ Hrows Hc) as (r & _ & Hc1 & _). now symmetry. }
  destruct (match_by_name_returns ud NON_PRIMARY_TOKENS WRatio partial_ratio token_sort_ratio
              token_set_ratio compared_names threshold rows Hnn Hok) as (out & Hout & Hall).
  exists cands, out. split; [exact Hrun|]. split; [exact Hout|].
  rewrite <- (Forall2_length _ _ _ Hall). unfold rows.
  rewrite length_zip_with, Hlen, !length_fmap. lia.
Qed.

Lemma match_by_name_accepts_search_output_witness :
  query_contract line_query (map (fun c => c.2) demo_compared_points)
    (map (fun g => g) [(Some (cps "Starbucks"), 0); (None, 300)].*2)
    (Nat.min 100 (length demo_compared_points)) /\
  NoDup demo_compared_points.*1 /\
  (forall query name, 0 <= demo_WRatio query name) /\
  exists cands out,
    demo_search [(Some (cps "Starbucks"), 0); (None, 300)].*2 demo_compared_points 100 1000
      = Some cands /\
    match_by_name ucd_excerpt ∅ demo_WRatio demo_partial_ratio demo_token_sort_ratio
      demo_token_set_ratio demo_compared 80
      (zip_with (fun name c => {| ref_name := name; cand_ids := c.1; cand_dist_m := c.2 |})
         [(Some (cps "Starbucks"), 0); (None, 300)].*1 cands) = Some out /\
    length out = 2%nat.
Proof.
  split; [exact line_query_contract|].
  assert (Hids : NoDup demo_compared_points.*1)
    by (cbn; repeat constructor; not_member).
  split; [exact Hids|]. split; [exact demo_WRatio_nonneg|].
  exact (match_by_name_accepts_search_output (fun g : Q => g) line_query ucd_excerpt ∅
           demo_WRatio demo_partial_ratio demo_token_sort_ratio demo_token_set_ratio
           [(Some (cps "Starbucks"), 0); (None, 300)] demo_compared_points demo_compared
           100 1000 80 line_query_contract Hids demo_WRatio_nonneg).
Defined.
End PipelineFacts.

(** ** The two Spatial Candidate Finders *)
Module SpatialMoreFacts.
Import Char Text NameMatcher Spatial EarlierSpatial SpatialFacts Demo.
Open Scope Q_scope.

Lemma keep_near_none (cmp_ids : list ident) (max_dist : Q) (js : list nat) (ds : list Q) :
  Forall (fun d => max_dist < d) ds ->
  keep_near cmp_ids max_dist (zip js ds) = Some ([], []).
Proof.
  revert ds. induction js as [|j js IH]; intros [|d ds] Hds; try reflexivity.
  apply Forall_cons in Hds as [Hd Hds]. cbn [zip zip_with keep_near].
  destruct (Qle_bool d max_dist) eqn:E.
  - apply Qle_bool_iff in E. exfalso. eapply Qlt_not_le; eauto.
  - now apply IH.
Qed.

(** On ascending distances the inner loop keeps a prefix: the neighbours
    up to the last one within [max_dist]. *)
Lemma keep_near_take (cmp_ids : list ident) (max_dist : Q) (js : list nat) (ds : list Q)
    (ids : list ident) :
  mapM (fun j => cmp_ids !! j) js = Some ids ->
  length js = length ds ->
  StronglySorted Qle ds ->
  exists m, (m <= length ds)%nat /\
    keep_near cmp_ids max_dist (zip js ds) = Some (take m ids, take m ds) /\
    Forall (fun d => d <= max_dist) (take m ds) /\
    Forall (fun d => max_dist < d) (drop m ds).
Proof.
  revert ds ids. induction js as [|j js IH]; intros ds ids Hids Hlen Hs.
  - destruct ds; [|discriminate]. cbn in Hids. injection Hids as <-.
    exists 0%nat. cbn. repeat split; constructor.
  - destruct ds as [|d ds]; [discriminate|]. cbn in Hlen.
    cbn in Hids. destruct (cmp_ids !! j) as [cid|] eqn:Hj; [|discriminate].
    cbn in Hids. destruct (mapM (fun j => cmp_ids !! j) js) as [ids'|] eqn:Hjs; [|discriminate].
    cbn in Hids. injection Hids as <-.
    apply StronglySorted_cons in Hs as [Hd Hs].
    cbn [zip zip_with keep_near].
    destruct (Qle_bool d max_dist) eqn:E.
    + apply Qle_bool_iff in E.
      destruct (IH ds ids' eq_refl ltac:(lia) Hs) as (m & Hm & Hrun & Hin & Hout).
      exists (S m). split; [cbn; lia|].
      fold (zip js ds). rewrite Hj. cbn [mbind option_bind]. rewrite Hrun. cbn.
      split; [reflexivity|]. split; [now constructor | exact Hout].
    + assert (Hlt : max_dist < d).
      { apply Qnot_le_lt. intros Hle. apply Qle_bool_iff in Hle. congruence. }
      exists 0%nat. split; [lia|]. split; [|split; [constructor|]].
      * fold (zip js ds). apply keep_near_none.
        eapply Forall_impl; [exact Hd|]. intros x Hx. eapply Qlt_le_trans; eauto.
      * cbn. constructor; [exact Hlt|].
        eapply Forall_impl; [exact Hd|]. intros x Hx. eapply Qlt_le_trans; eauto.
Qed.

Lemma mapM_lookup_total (cmp_ids : list ident) (js : list nat) :
  Forall (fun j => (j < length cmp_ids)%nat) js ->
  exists ids, mapM (fun j => cmp_ids !! j) js = Some ids /\ length ids = length js /\
    forall i j, js !! i = Some j -> ids !! i = cmp_ids !! j.
Proof.
  induction 1 as [|j js Hj Hjs (ids & Hids & Hlen & Hat)].
  - exists []. split; [reflexivity|]. split; [reflexivity|].
    intros i j Hi. now rewrite lookup_nil in Hi.
  - destruct (lookup_lt_is_Some_2 cmp_ids j Hj) as [cid Hcid].
    exists (cid :: ids). cbn. rewrite Hcid. cbn. rewrite Hids. cbn.
    split; [reflexivity|]. split; [lia|].
    intros [|i] j' Hi; cbn in *; [now injection Hi as <- | now apply Hat].
Qed.

Lemma mapM_lookup_NoDup (cmp_ids : list ident) (js : list nat) ids :
  NoDup cmp_ids -> NoDup js ->
  mapM (fun j => cmp_ids !! j) js = Some ids -> NoDup ids.
Proof.
  intros Hc Hjs Hids. apply mapM_Some in Hids.
  apply NoDup_alt. intros a b x Ha Hb.
  destruct (Forall2_lookup_r _ _ _ _ _ Hids Ha) as (ja & Hja & Hxa).
  destruct (Forall2_lookup_r _ _ _ _ _ Hids Hb) as (jb & Hjb & Hxb).
  assert (ja = jb) by exact (NoDup_lookup cmp_ids ja jb x Hc Hxa Hxb). subst jb.
  exact (NoDup_lookup js a b ja Hjs Hja Hjb).
Qed.

(** Two prefixes of one row, cut at two bounds. *)
Lemma prefix_rows (max_dist max_dist' : Q) (e c c' : list ident * list Q) :
  max_dist <= max_dist' ->
  (exists m, (m <= length e.2)%nat /\
     c = (take m e.1, take m e.2) /\
     Forall (fun d => d <= max_dist) (take m e.2) /\
     Forall (fun d => max_dist < d) (drop m e.2)) ->
  (exists m, (m <= length e.2)%nat /\
     c' = (take m e.1, take m e.2) /\
     Forall (fun d => d <= max_dist') (take m e.2) /\
     Forall (fun d => max_dist' < d) (drop m e.2)) ->
  c.1 `prefix_of` c'.1 /\ c.2 `prefix_of` c'.2 /\
  Forall (fun d => max_dist < d) (drop (length c.2) c'.2).
Proof.
  intros Hle (m & Hm & -> & Hin & Hout) (m' & Hm' & -> & Hin' & Hout').
  cbn [fst snd].
  assert (Hmm : (m <= m')%nat).
  { destruct (le_lt_dec m m') as [|Hlt]; [assumption|]. exfalso.
    destruct (lookup_lt_is_Some_2 e.2 m') as [d Hd]; [lia|].
    assert (H1 : d <= max_dist).
    { rewrite Forall_forall in Hin. apply Hin.
      apply (list_elem_of_lookup_2 _ m'). rewrite lookup_take_lt by lia. exact Hd. }
    assert (H2 : max_dist' < d).
    { rewrite Forall_forall in Hout'. apply Hout'.
      apply (list_elem_of_lookup_2 _ 0%nat). rewrite lookup_drop.
      now rewrite Nat.add_0_r. }
    apply (Qlt_not_le _ _ H2). eapply Qle_trans; eauto. }
  assert (Hpre : forall A (l : list A), take m l `prefix_of` take m' l).
  { intros A l. exists (drop m (take m' l)).
    rewrite <- (take_drop m (take m' l)) at 1.
    rewrite take_take. now replace (m `min` m')%nat with m by lia. }
  split; [apply Hpre|]. split; [apply Hpre|].
  rewrite length_take. replace (m `min` length e.2)%nat with m by lia.
  replace m' with (m + (m' - m))%nat by lia.
  rewrite <- take_drop_commute. now apply Forall_take.
Qed.

Section Finder.
Context {geom point : Type}.
Variable to_crs : geom -> point.
Variable tree_query :
  list point -> list point -> nat -> option (list (list Q) * list (list nat)).

Abbreviation search_spatial_candidates := (Spatial.search_spatial_candidates to_crs tree_query).
Abbreviation earlier_search_spatial_candidates :=
  (EarlierSpatial.earlier_search_spatial_candidates to_crs tree_query).
Abbreviation query_contract := (Spatial.query_contract tree_query).

(** The earlier finder and the current one on the same query. *)
Lemma searches_spec (reference_gdf : list geom) (compared_gdf : list (ident * geom))
    (k : nat) (max_dist : Q) :
  query_contract (map (fun c => to_crs c.2) compared_gdf) (map to_crs reference_gdf)
    (Nat.min k (length compared_gdf)) ->
  exists dist idx all_ids cands,
    tree_query (map (fun c => to_crs c.2) compared_gdf) (map to_crs reference_gdf)
      (Nat.min k (length compared_gdf)) = Some (dist, idx) /\
    length dist = length reference_gdf /\
    length all_ids = length reference_gdf /\
    Forall2 (fun row_idx ids =>
               mapM (fun j => compared_gdf.*1 !! j) row_idx = Some ids /\
               length ids = Nat.min k (length compared_gdf)) idx all_ids /\
    earlier_search_spatial_candidates reference_gdf compared_gdf k = Some (zip all_ids dist) /\
    search_spatial_candidates reference_gdf compared_gdf k max_dist = Some cands /\
    Forall2 (fun e c =>
               exists m, (m <= length e.2)%nat /\
                 c = (take m e.1, take m e.2) /\
                 Forall (fun d => d <= max_dist) (take m e.2) /\
                 Forall (fun d => max_dist < d) (drop m e.2))
      (zip all_ids dist) cands.
Proof.
  intros (_ & dist & idx & Hquery & Hdist & Hidx & Hdrows & Hirows).
  rewrite !length_map in *.
  set (k_eff := Nat.min k (length compared_gdf)) in *.
  assert (Hall : exists all_ids,
            mapM (fun row => mapM (fun j => compared_gdf.*1 !! j) row) idx = Some all_ids /\
            Forall2 (fun row_idx ids =>
                       mapM (fun j => compared_gdf.*1 !! j) row_idx = Some ids /\
                       length ids = k_eff) idx all_ids).
  { eapply mapM_exists; [exact Hirows|].
    intros row (Hl & _ & Hr). cbn beta in *.
    destruct (mapM_lookup_total compared_gdf.*1 row) as (ids & Hids & Hlen & _).
    - now rewrite length_fmap.
    - exists ids. split; [exact Hids|]. split; [exact Hids | lia]. }
  destruct Hall as (all_ids & Hmap & Hrows).
  assert (Hlen_all : length all_ids = length reference_gdf).
  { rewrite <- (Forall2_length _ _ _ Hrows). exact Hidx. }
  assert (Hcur : exists cands,
            mapM (fun r => keep_near (map fst compared_gdf) max_dist (zip r.1 r.2)) (zip idx dist)
              = Some cands /\
            Forall2 (fun e c =>
               exists m, (m <= length e.2)%nat /\
                 c = (take m e.1, take m e.2) /\
                 Forall (fun d => d <= max_dist) (take m e.2) /\
                 Forall (fun d => max_dist < d) (drop m e.2))
              (zip all_ids dist) cands).
  { clear Hmap Hlen_all Hquery.
    assert (Hlen : length idx = length dist) by lia. clear Hdist Hidx.
    revert dist all_ids Hlen Hdrows Hrows.
    induction idx as [|row_idx idx IH]; intros dist all_ids Hlen Hdrows Hrows.
    - destruct dist; [|discriminate]. apply Forall2_nil_inv_l in Hrows as ->.
      exists []. split; [reflexivity | constructor].
    - destruct dist as [|row_dist dist]; [discriminate|].
      apply Forall2_cons_inv_l in Hrows as (ids & all_ids' & [Hids Hidsl] & Hrows & ->).
      apply Forall_cons in Hdrows as [[Hdl Hds] Hdrows].
      apply Forall_cons in Hirows as [(Hil & _ & _) Hirows].
      destruct (IH Hirows dist all_ids' ltac:(cbn in Hlen; lia) Hdrows Hrows)
        as (cands & Hrun & Hrel).
      destruct (keep_near_take compared_gdf.*1 max_dist row_idx row_dist ids Hids)
        as (m & Hm & Hk & Hin & Hout).
      { lia. }
      { apply Sorted_StronglySorted; [apply Qle_transitive | exact Hds]. }
      exists ((take m ids, take m row_dist) :: cands). split.
      + cbn [zip zip_with mapM fst snd]. fold (zip idx dist).
        change (map fst compared_gdf) with (compared_gdf.*1) in *.
        rewrite Hk. cbn [mbind option_bind]. rewrite Hrun. reflexivity.
      + cbn [zip zip_with]. constructor; [|exact Hrel].
        exists m. cbn [fst snd]. auto. }
  destruct Hcur as (cands & Hrun & Hrel).
  exists dist, idx, all_ids, cands.
  split; [exact Hquery|]. split; [exact Hdist|]. split; [exact Hlen_all|].
  split; [exact Hrows|]. split; [|split; [|exact Hrel]].
  - unfold EarlierSpatial.earlier_search_spatial_candidates.
    fold k_eff. rewrite Hquery. cbn [mbind option_bind].
    change (map fst compared_gdf) with (compared_gdf.*1).
    rewrite Hmap. cbn [mbind option_bind].
    rewrite option_guard_True by exact Hlen_all. cbn [mbind option_bind].
    rewrite option_guard_True by exact Hdist. reflexivity.
  - unfold Spatial.search_spatial_candidates. fold k_eff. rewrite Hquery.
    cbn [mbind option_bind]. rewrite Hrun. cbn [mbind option_bind].
    rewrite option_guard_True; [reflexivity|].
    rewrite <- (Forall2_length _ _ _ Hrel), length_zip. lia.
Qed.

(** X12: the earlier finder, which has no [max_dist], reports the query as
    it is: the distances of a row are the row of distances the k-d tree
    returned, and the identifiers are those of the comparison records at the
    returned indices, in the same order.  Every row therefore has exactly
    [min(k, n)] candidates, by ascending distance, and no identifier twice
    when the comparison identifiers are distinct. *)
Theorem earlier_search_keeps_every_neighbour (reference_gdf : list geom)
    (compared_gdf : list (ident * geom)) (k : nat) :
  query_contract (map (fun c => to_crs c.2) compared_gdf) (map to_crs reference_gdf)
    (Nat.min k (length compared_gdf)) ->
  exists dist idx cands,
    tree_query (map (fun c => to_crs c.2) compared_gdf) (map to_crs reference_gdf)
      (Nat.min k (length compared_gdf)) = Some (dist, idx) /\
    earlier_search_spatial_candidates reference_gdf compared_gdf k = Some cands /\
    length cands = length reference_gdf /\
    cands.*2 = dist /\
    Forall2 (fun row_idx c =>
               Forall2 (fun j cid => compared_gdf.*1 !! j = Some cid) row_idx c.1)
      idx cands /\
    Forall (fun c => length c.1 = Nat.min k (length compared_gdf) /\
                     length c.2 = Nat.min k (length compared_gdf) /\
                     Sorted Qle c.2 /\
                     (NoDup compared_gdf.*1 -> NoDup c.1)) cands.
Proof.
  intros Hcontract.
  destruct (searches_spec reference_gdf compared_gdf k 0 Hcontract)
    as (dist & idx & all_ids & _ & Hquery & Hdist & Hall & Hrows & Hrun & _).
  destruct Hcontract as (_ & dist' & idx' & Hquery' & _ & _ & Hdrows & Hirows).
  rewrite Hquery in Hquery'. injection Hquery' as <- <-.
  exists dist, idx, (zip all_ids dist). split; [exact Hquery|]. split; [exact Hrun|].
  split; [rewrite length_zip; lia|].
  split; [apply snd_zip; lia|].
  split.
  { apply Forall2_fmap_r. rewrite fst_zip by lia.
    eapply Forall2_impl; [exact Hrows|]. intros row_idx ids [Hids _].
    now apply mapM_Some in Hids. }
  apply Forall_forall. intros [ids ds] Hc.
  apply list_elem_of_lookup_1 in Hc as [i Hi].
  apply lookup_zip_Some in Hi as [Hi1 Hi2]. cbn [fst snd].
  destruct (Forall2_lookup_r _ _ _ _ _ Hrows Hi1) as (row_idx & Hri & Hids & Hlen).
  rewrite Forall_forall in Hdrows. rewrite Forall_forall in Hirows.
  destruct (Hdrows ds) as [Hdl Hds]; [eapply list_elem_of_lookup_2, Hi2|].
  destruct (Hirows row_idx) as (_ & Hnd & _); [eapply list_elem_of_lookup_2, Hri|].
  repeat split; try assumption.
  intros Hc. eapply mapM_lookup_NoDup; eauto.
Qed.

(** X13: the current finder keeps, of what the earlier one returns for a row,
    the longest prefix whose distances are within [max_dist]: the nearest
    [m] candidates, every one of them within the bound and every one left
    out beyond it. *)
Theorem search_is_prefix_of_earlier (reference_gdf : list geom)
    (compared_gdf : list (ident * geom)) (k : nat) (max_dist : Q) :
  query_contract (map (fun c => to_crs c.2) compared_gdf) (map to_crs reference_gdf)
    (Nat.min k (length compared_gdf)) ->
  exists earlier cands,
    earlier_search_spatial_candidates reference_gdf compared_gdf k = Some earlier /\
    search_spatial_candidates reference_gdf compared_gdf k max_dist = Some cands /\
    Forall2 (fun e c =>
               exists m, (m <= length e.2)%nat /\
                 c = (take m e.1, take m e.2) /\
                 Forall (fun d => d <= max_dist) (take m e.2) /\
                 Forall (fun d => max_dist < d) (drop m e.2))
      earlier cands.
Proof.
  intros Hcontract.
  destruct (searches_spec reference_gdf compared_gdf k max_dist Hcontract)
    as (dist & idx & all_ids & cands & _ & _ & _ & _ & Hrun & Hcur & Hrel).
  now exists (zip all_ids dist), cands.
Qed.

(** X14: raising [max_dist] only appends farther candidates: the lists found
    with a bound are prefixes of the lists found with any greater bound. *)
Theorem greater_max_dist_extends_lists (reference_gdf : list geom)
    (compared_gdf : list (ident * geom)) (k : nat) (max_dist max_dist' : Q) :
  query_contract (map (fun c => to_crs c.2) compared_gdf) (map to_crs reference_gdf)
    (Nat.min k (length compared_gdf)) ->
  max_dist <= max_dist' ->
  exists cands cands',
    search_spatial_candidates reference_gdf compared_gdf k max_dist = Some cands /\
    search_spatial_candidates reference_gdf compared_gdf k max_dist' = Some cands' /\
    Forall2 (fun c c' => c.1 `prefix_of` c'.1 /\ c.2 `prefix_of` c'.2 /\
                         Forall (fun d => max_dist < d) (drop (length c.2) c'.2))
      cands cands'.
Proof.
  intros Hcontract Hle.
  destruct (searches_spec reference_gdf compared_gdf k max_dist Hcontract)
    as (dist & idx & all_ids & cands & Hq & _ & _ & _ & Hrun & Hcur & Hrel).
  destruct (searches_spec reference_gdf compared_gdf k max_dist' Hcontract)
    as (dist' & idx' & all_ids' & cands' & Hq' & _ & _ & _ & Hrun' & Hcur' & Hrel').
  exists cands, cands'. split; [exact Hcur|]. split; [exact Hcur'|].
  rewrite Hrun in Hrun'. injection Hrun' as Heq. rewrite <- Heq in Hrel'.
  clear -Hrel Hrel' Hle.
  revert cands cands' Hrel Hrel'.
  induction (zip all_ids dist) as [|e es IH]; intros cands cands' Hrel Hrel'.
  - apply Forall2_nil_inv_l in Hrel as ->. apply Forall2_nil_inv_l in Hrel' as ->. constructor.
  - apply Forall2_cons_inv_l in Hrel as (c & cs & Hc & Hcs & ->).
    apply Forall2_cons_inv_l in Hrel' as (c' & cs' & Hc' & Hcs' & ->).
    constructor; [|now apply IH].
    now apply (prefix_rows max_dist max_dist' e).
Qed.
End Finder.

Lemma earlier_search_keeps_every_neighbour_witness :
  Spatial.query_contract line_query (map (fun c => c.2) demo_compared_points)
    (map (fun g => g) demo_reference_points) (Nat.min 100 (length demo_compared_points)) /\
  exists cands,
    EarlierSpatial.earlier_search_spatial_candidates (fun g : Q => g) line_query
      demo_reference_points demo_compared_points 100 = Some cands /\
    length cands = length demo_reference_points.
Proof.
  split; [exact line_query_contract|].
  destruct (earlier_search_keeps_every_neighbour (fun g : Q => g) line_query
              demo_reference_points demo_compared_points 100 line_query_contract)
    as (dist & idx & cands & _ & H1 & H2 & _).
  exists cands. split; assumption.
Defined.

Lemma search_is_prefix_of_earlier_witness :
  Spatial.query_contract line_query (map (fun c => c.2) demo_compared_points)
    (map (fun g => g) demo_reference_points) (Nat.min 100 (length demo_compared_points)) /\
  exists earlier cands,
    EarlierSpatial.earlier_search_spatial_candidates (fun g : Q => g) line_query
      demo_reference_points demo_compared_points 100 = Some earlier /\
    demo_search demo_reference_points demo_compared_points 100 1000 = Some cands /\
    length earlier = length cands.
Proof.
  split; [exact line_query_contract|].
  destruct (search_is_prefix_of_earlier (fun g : Q => g) line_query
              demo_reference_points demo_compared_points 100 1000 line_query_contract)
    as (earlier & cands & H1 & H2 & H3).
  exists earlier, cands. split; [exact H1|]. split; [exact H2|].
  exact (Forall2_length _ _ _ H3).
Defined.

Lemma greater_max_dist_extends_lists_witness :
  Spatial.query_contract line_query (map (fun c => c.2) demo_compared_points)
    (map (fun g => g) demo_reference_points) (Nat.min 100 (length demo_compared_points)) /\
  500 <= 1000 /\
  exists cands cands',
    demo_search demo_reference_points demo_compared_points 100 500 = Some cands /\
    demo_search demo_reference_points demo_compared_points 100 1000 = Some cands' /\
    length cands = length cands'.
Proof.
  split; [exact line_query_contract|].
  assert (H : 500 <= 1000) by (unfold Qle; cbn; lia).
  split; [exact H|].
  destruct (greater_max_dist_extends_lists (fun g : Q => g) line_query
              demo_reference_points demo_compared_points 100 500 1000 line_query_contract H)
    as (cands & cands' & H1 & H2 & H3).
  exists cands, cands'. split; [exact H1|]. split; [exact H2|].
  exact (Forall2_length _ _ _ H3).
Defined.

(** On the worked points the earlier finder keeps the neighbour at
    1000.01 m that the current one, with [max_dist = 1000], leaves out. *)
Example earlier_search_demo :
  EarlierSpatial.earlier_search_spatial_candidates (fun g : Q => g) line_query
    [0] demo_compared_points 100
    = Some [([IdText (cps "c"); IdText (cps "a"); IdText (cps "b")], [250; 1000; 100001 # 100])].
Proof. vm_compute. reflexivity. Qed.
End SpatialMoreFacts.

(** ** The Address Scorer *)
Module AddressFacts.
Import Char Text NameMatcher Address Demo TextFacts NameMatcherFacts NameMatcherMoreFacts.
Open Scope Q_scope.

(** [int] of a non-negative float is its floor. *)
Lemma py_int_floor (x : Q) :
  0 <= x -> (0 <= py_int x)%Z /\ inject_Z (py_int x) <= x /\ x < inject_Z (py_int x) + 1.
Proof.
  destruct x as [n d]. unfold py_int, Qle, Qlt, inject_Z. cbn.
  intros Hn. rewrite Z.mul_1_r in Hn.
  rewrite Z.quot_div_nonneg by lia.
  pose proof (Z.div_mod n (Z.pos d) ltac:(lia)) as Hdm.
  pose proof (Z.mod_pos_bound n (Z.pos d) ltac:(lia)) as Hb.
  pose proof (Z.div_pos n (Z.pos d) Hn ltac:(lia)) as Hq.
  split; [exact Hq|]. split; nia.
Qed.

Section WithScorers.
Variable ud : UnicodeData.
Variables WRatio partial_ratio token_sort_ratio token_set_ratio : pystr -> pystr -> Q.

Lemma address_clean_name_value_stripped v :
  strip ud (address_clean_name_value ud v) = address_clean_name_value ud v.
Proof. destruct v as [s|]; [apply finish_stripped | reflexivity]. Qed.

Lemma usable_stripped s :
  strip ud s = s -> usable ud (Some s) = true <-> s <> [].
Proof.
  intros Hs. unfold usable. rewrite Hs. destruct s; [|split; [discriminate | reflexivity]].
  split; [discriminate | congruence].
Qed.

(** The values of the address table are normalised texts. *)
Lemma id_to_addr_stripped (compared_gdf : list (ident * option pystr)) mid a :
  to_dict (map (fun c => (c.1, address_clean_name_value ud c.2)) compared_gdf) !! mid = Some a ->
  strip ud a = a.
Proof.
  intros H. apply to_dict_elem, list_elem_of_fmap in H as (c & [= _ ->] & _).
  apply address_clean_name_value_stripped.
Qed.
End WithScorers.

Section Rows.
Variable ud : UnicodeData.
Variables WRatio partial_ratio token_sort_ratio token_set_ratio : pystr -> pystr -> Q.

Lemma address_score_row_present (dict : gmap ident pystr) (row : addr_row) :
  (forall mid a, dict !! mid = Some a -> strip ud a = a) ->
  ((address_score_row ud WRatio partial_ratio token_sort_ratio token_set_ratio dict row).1
     <> None <->
     exists mid a,
       addr_matched_id row = Some mid /\ dict !! mid = Some a /\
       a <> [] /\ address_clean_name_value ud (addr_simple row) <> []) /\
  (forall a,
     (address_score_row ud WRatio partial_ratio token_sort_ratio token_set_ratio dict row).2
       = Some a <->
     a <> [] /\ exists mid, addr_matched_id row = Some mid /\ dict !! mid = Some a).
Proof.
  intros Hdict. unfold address_score_row.
  destruct (addr_matched_id row) as [mid|]; cbn [fst snd].
  2:{ split.
      - split; [intros H; congruence | intros (m & a & H & _); discriminate].
      - intros a. split; [discriminate | intros (_ & m & H & _); discriminate]. }
  pose proof (usable_stripped ud _ (address_clean_name_value_stripped ud (addr_simple row)))
    as Href.
  destruct (dict !! mid) as [a|] eqn:Ha.
  2:{ cbn [usable]. split.
      - destruct (negb _); cbn [fst];
          (split; [intros H; congruence | intros (m & a & [= <-] & H & _); congruence]).
      - intros a. destruct (negb _); cbn [snd];
          (split; [discriminate | intros (_ & m & [= <-] & H); congruence]). }
  pose proof (usable_stripped ud a (Hdict mid a Ha)) as Hcmp.
  destruct (usable ud (Some a)) eqn:Ua;
    destruct (usable ud (Some (address_clean_name_value ud (addr_simple row)))) eqn:Ur;
    cbn [negb fst snd].
  - split.
    + split; [|discriminate]. intros _. exists mid, a.
      split; [reflexivity|]. split; [exact Ha|]. split; [now apply Hcmp | now apply Href].
    + intros b. split.
      * intros [= <-]. split; [now apply Hcmp|]. now exists mid.
      * intros (_ & m & [= <-] & H). congruence.
  - split.
    + split; [intros H; congruence|]. intros (m & b & [= <-] & _ & _ & Hr).
      apply Href in Hr. discriminate.
    + intros b. split.
      * intros [= <-]. split; [now apply Hcmp|]. now exists mid.
      * intros (_ & m & [= <-] & H). congruence.
  - split.
    + split; [intros H; congruence|]. intros (m & b & [= <-] & H & Hb & _).
      assert (b = a) by congruence. subst b. apply Hcmp in Hb. discriminate.
    + intros b. split; [discriminate|].
      intros (Hb & m & [= <-] & H). assert (b = a) by congruence. subst b.
      apply Hcmp in Hb. discriminate.
  - split.
    + split; [intros H; congruence|]. intros (m & b & [= <-] & H & Hb & _).
      assert (b = a) by congruence. subst b. apply Hcmp in Hb. discriminate.
    + intros b. split; [discriminate|].
      intros (Hb & m & [= <-] & H). assert (b = a) by congruence. subst b.
      apply Hcmp in Hb. discriminate.
Qed.
Lemma address_score_row_value (dict : gmap ident pystr) (row : addr_row) z :
  (forall a b, 0 <= WRatio a b) ->
  (address_score_row ud WRatio partial_ratio token_sort_ratio token_set_ratio dict row).1
    = Some z ->
  exists mid a,
    addr_matched_id row = Some mid /\ dict !! mid = Some a /\
    (0 <= z)%Z /\
    inject_Z z <= combined_score WRatio partial_ratio token_sort_ratio token_set_ratio
                    (address_clean_name_value ud (addr_simple row)) a /\
    combined_score WRatio partial_ratio token_sort_ratio token_set_ratio
      (address_clean_name_value ud (addr_simple row)) a < inject_Z z + 1.
Proof.
  intros Hnn. unfold address_score_row.
  destruct (addr_matched_id row) as [mid|]; cbn [fst snd]; [|discriminate].
  destruct (negb _); cbn [fst]; [discriminate|].
  destruct (dict !! mid) as [a|] eqn:Ha; [|discriminate].
  destruct (usable ud (Some a)); cbn [fst]; [|discriminate].
  intros [= <-]. exists mid, a. split; [reflexivity|]. split; [exact Ha|].
  apply py_int_floor.
  eapply Qle_trans; [apply (Hnn (address_clean_name_value ud (addr_simple row)) a)|].
  apply (combined_upper partial_ratio token_sort_ratio token_set_ratio).
Qed.
End Rows.

(** X15: a reference row gets an address score exactly when it has a matched
    identifier that the comparison table carries and both normalised
    addresses are non-empty; the matched address is the normalised
    comparison address whenever that one is non-empty, whether or not a
    score is given. *)
Theorem address_score_present_iff (ud : UnicodeData)
    (WRatio partial_ratio token_sort_ratio token_set_ratio : pystr -> pystr -> Q)
    (reference_gdf : list addr_row) (compared_gdf : list (ident * option pystr)) :
  Forall2 (fun row out =>
     (out.1 <> None <->
        exists mid a,
          addr_matched_id row = Some mid /\
          to_dict (map (fun c => (c.1, address_clean_name_value ud c.2)) compared_gdf) !! mid
            = Some a /\
          a <> [] /\
          address_clean_name_value ud (addr_simple row) <> []) /\
     (forall a, out.2 = Some a <->
        a <> [] /\
        exists mid,
          addr_matched_id row = Some mid /\
          to_dict (map (fun c => (c.1, address_clean_name_value ud c.2)) compared_gdf) !! mid
            = Some a))
    reference_gdf
    (address_score_check ud WRatio partial_ratio token_sort_ratio token_set_ratio
       reference_gdf compared_gdf).
Proof.
  unfold address_score_check. apply Forall2_fmap_r, Forall_Forall2_diag, Forall_forall.
  intros row _. apply address_score_row_present.
  intros mid a. apply id_to_addr_stripped.
Qed.

(** X16: an address score is the greatest of the four scores of the two
    normalised addresses, cut down to an integer: with non-negative weighted
    ratios it is non-negative, at most that greatest score and less than one
    below it. *)
Theorem address_score_truncates (ud : UnicodeData)
    (WRatio partial_ratio token_sort_ratio token_set_ratio : pystr -> pystr -> Q)
    (reference_gdf : list addr_row) (compared_gdf : list (ident * option pystr)) :
  (forall a b, 0 <= WRatio a b) ->
  Forall2 (fun row out =>
     forall z, out.1 = Some z ->
       exists mid a,
         addr_matched_id row = Some mid /\
         to_dict (map (fun c => (c.1, address_clean_name_value ud c.2)) compared_gdf) !! mid
           = Some a /\
         (0 <= z)%Z /\
         inject_Z z <= combined_score WRatio partial_ratio token_sort_ratio token_set_ratio
                         (address_clean_name_value ud (addr_simple row)) a /\
         combined_score WRatio partial_ratio token_sort_ratio token_set_ratio
           (address_clean_name_value ud (addr_simple row)) a < inject_Z z + 1)
    reference_gdf
    (address_score_check ud WRatio partial_ratio token_sort_ratio token_set_ratio
       reference_gdf compared_gdf).
Proof.
  intros Hnn.
  unfold address_score_check. apply Forall2_fmap_r, Forall_Forall2_diag, Forall_forall.
  intros row _ z. now apply address_score_row_value.
Qed.

Lemma address_score_truncates_witness :
  (forall a b, 0 <= demo_WRatio a b) /\
  address_score_check ucd_excerpt demo_WRatio demo_partial_ratio demo_token_sort_ratio
    demo_token_set_ratio
    [ {| addr_matched_id := Some (IdText (cps "t1")); addr_simple := Some (cps "Starbucks") |} ]
    [ (IdText (cps "t1"), Some (cps "Starbuicks")) ]
    = [ (Some 94%Z, Some (cps "STARBUICKS")) ] /\
  Forall2 (fun row out => forall z, out.1 = Some z -> (0 <= z)%Z)
    [ {| addr_matched_id := Some (IdText (cps "t1")); addr_simple := Some (cps "Starbucks") |} ]
    (address_score_check ucd_excerpt demo_WRatio demo_partial_ratio demo_token_sort_ratio
       demo_token_set_ratio
       [ {| addr_matched_id := Some (IdText (cps "t1")); addr_simple := Some (cps "Starbucks") |} ]
       [ (IdText (cps "t1"), Some (cps "Starbuicks")) ]).
Proof.
  split; [exact demo_WRatio_nonneg|]. split; [vm_compute; reflexivity|].
  eapply Forall2_impl.
  - exact (address_score_truncates ucd_excerpt demo_WRatio demo_partial_ratio
             demo_token_sort_ratio demo_token_set_ratio _ _ demo_WRatio_nonneg).
  - intros row out H z Hz. destruct (H z Hz) as (_ & _ & _ & _ & H0 & _). exact H0.
Defined.
End AddressFacts.

(** ** More on the Category Semantic Scorer *)
Module CategoryMoreFacts.
Import Char Text Category CategoryFacts.
Open Scope Q_scope.

(** The decimal text of an integer starts with a digit or a minus sign. *)
Lemma digits_of_head (fuel : nat) (n : N) (acc : pystr) :
  (fuel = 0%nat -> exists c r, acc = c :: r /\ ascii_digit c = true) ->
  exists c r, digits_of fuel n acc = c :: r /\ ascii_digit c = true.
Proof.
  revert n acc. induction fuel as [|fuel IH]; intros n acc Hacc; [now apply Hacc|].
  cbn [digits_of].
  assert (Hd : ascii_digit (48 + n mod 10)%N = true).
  { pose proof (N.mod_lt n 10 ltac:(discriminate)) as Hlt.
    set (m := (n mod 10)%N) in *. clearbody m.
    unfold ascii_digit. apply andb_true_iff. split; apply N.leb_le; lia. }
  destruct (n / 10 =? 0)%N; [now eexists _, _|].
  apply IH. intros _. now eexists _, _.
Qed.

Lemma str_of_int_head (z : Z) :
  exists c r, str_of_int z = c :: r /\ (ascii_digit c = true \/ c = 45%N).
Proof.
  destruct z as [|p|p]; cbn [str_of_int].
  - destruct (digits_of_head 1 0 []) as (c & r & -> & Hc); [discriminate|].
    exists c, r. auto.
  - destruct (digits_of_head (S (N.to_nat (N.log2 (N.pos p)))) (N.pos p) [])
      as (c & r & -> & Hc); [discriminate|].
    exists c, r. auto.
  - eexists _, _. split; [reflexivity | now right].
Qed.

Lemma strip_head_kept (ud : UnicodeData) (c : N) (r : pystr) :
  is_space ud c = false -> strip ud (c :: r) <> [].
Proof.
  intros Hc. unfold strip. cbn [lstrip]. rewrite Hc. cbn [rstrip].
  destruct (rstrip ud r); [rewrite Hc|]; discriminate.
Qed.

(** An integer never reads as a blank text. *)
Lemma str_of_int_not_blank (ud : UnicodeData) (z : Z) : strip ud (str_of_int z) <> [].
Proof.
  destruct (str_of_int_head z) as (c & r & -> & Hc). apply strip_head_kept.
  unfold is_space, is_ascii, ascii_isspace.
  destruct Hc as [Hc | ->]; [|reflexivity].
  unfold ascii_digit in Hc. apply andb_true_iff in Hc as [H1 H2].
  apply N.leb_le in H1, H2.
  assert (Hlt : (c <? 128)%N = true) by (apply N.ltb_lt; lia). rewrite Hlt.
  apply orb_false_iff. split; apply andb_false_iff.
  - right. apply N.leb_gt. lia.
  - right. apply N.leb_gt. lia.
Qed.

Lemma row_similarity_cases (ud : UnicodeData) {embedding : Type}
    (encode : pystr -> embedding) (cosine_similarity : embedding -> embedding -> Q)
    (r : cat_row) :
  match row_similarity ud encode cosine_similarity r with
  | Some s =>
      exists i a b,
        cat_matched_id r = Some i /\ strip ud (astype_str i) <> [] /\
        cat_ref r = Some a /\ cat_cmp r = Some b /\
        s = cosine_similarity (encode a) (encode b)
  | None =>
      cat_matched_id r = None \/
      (exists i, cat_matched_id r = Some i /\ strip ud (astype_str i) = []) \/
      cat_ref r = None \/ cat_cmp r = None
  end.
Proof.
  unfold row_similarity, gate.
  destruct (cat_matched_id r) as [i|]; [|now left].
  destruct (strip ud (astype_str i)) as [|c s] eqn:Hi.
  { right. left. now exists i. }
  destruct (cat_ref r) as [a|]; [|cbn; auto].
  destruct (cat_cmp r) as [b|]; [|cbn; auto].
  exists i, a, b. split; [reflexivity|]. split; [rewrite Hi; discriminate|]. repeat split.
Qed.

(** X17: in a frame with at least one row that passes the gate (what the
    encoder makes of an empty batch is the library's matter), a row gets a
    category similarity exactly when its matched identifier is not null, the
    text that [astype(str)] makes of it is not blank, and both of its
    categories are texts, empty or not; the similarity is then the cosine of
    the embeddings of the two texts.  Every other row gets a null, and the
    column has one entry per row.  An identifier that is an integer is never
    blank, so a row matched to one is scored like a row matched to a text. *)
Theorem category_sim_present_iff (ud : UnicodeData) {embedding : Type}
    (encode : pystr -> embedding) (cosine_similarity : embedding -> embedding -> Q)
    (df : list cat_row) :
  (exists r, r ∈ df /\ gate ud r = true) ->
  Forall2 (fun r score =>
     match score with
     | Some s =>
         exists i a b,
           cat_matched_id r = Some i /\ strip ud (astype_str i) <> [] /\
           cat_ref r = Some a /\ cat_cmp r = Some b /\
           s = cosine_similarity (encode a) (encode b)
     | None =>
         cat_matched_id r = None \/
         (exists i, cat_matched_id r = Some i /\ strip ud (astype_str i) = []) \/
         cat_ref r = None \/ cat_cmp r = None
     end)
    df (calculate_similarity_check ud encode cosine_similarity df) /\
  (forall s, astype_str (IdText s) = s) /\
  (forall z, strip ud (astype_str (IdInt z)) <> []) /\
  (forall z a b,
     calculate_similarity_check ud encode cosine_similarity
       [ {| cat_matched_id := Some (IdInt z); cat_ref := Some a; cat_cmp := Some b |} ]
     = [ Some (cosine_similarity (encode a) (encode b)) ]).
Proof.
  intros _. split; [|split; [reflexivity|split]].
  - rewrite calculate_similarity_check_rowwise.
    apply Forall2_fmap_r, Forall_Forall2_diag, Forall_forall.
    intros r _. apply row_similarity_cases.
  - intros z. apply str_of_int_not_blank.
  - intros z a b. rewrite calculate_similarity_check_rowwise. cbn [map].
    unfold row_similarity, gate. cbn [cat_matched_id cat_ref cat_cmp isna fillna].
    pose proof (str_of_int_not_blank ud z) as Hz. cbn [astype_str].
    destruct (strip ud (str_of_int z)); [congruence | reflexivity].
Qed.

Lemma category_sim_present_iff_witness :
  (exists r, r ∈ Demo.demo_cat_rows /\ gate ucd_excerpt r = true) /\
  calculate_similarity_check ucd_excerpt (fun s : pystr => s)
    (fun a b : pystr => if decide (a = b) then 1 else 0) Demo.demo_cat_rows
  = [Some 1; None; None] /\
  forall z, strip ucd_excerpt (astype_str (IdInt z)) <> [].
Proof.
  assert (H : exists r, r ∈ Demo.demo_cat_rows /\ gate ucd_excerpt r = true).
  { eexists. split; [left | reflexivity]. }
  split; [exact H|]. split; [reflexivity|].
  exact (proj1 (proj2 (proj2
           (category_sim_present_iff ucd_excerpt (fun s : pystr => s)
              (fun a b : pystr => if decide (a = b) then 1 else 0) Demo.demo_cat_rows H)))).
Defined.
End CategoryMoreFacts.

(** ** The frame the Name Matcher returns *)
Module FramesMoreFacts.
Import Char Text NameMatcher Frames Demo FramesFacts FrameSamples.
Open Scope Q_scope.

Lemma copy_spec l σ l' σ' :
  copy l σ = Some (l', σ') ->
  exists f, σ !! l = Some f /\ σ !! l' = None /\ σ' = <[l' := f]> σ.
Proof.
  unfold copy. destruct (σ !! l) as [f|] eqn:Hl; [|discriminate].
  intros [= <- <-]. exists f. split; [reflexivity|]. split; [|reflexivity].
  apply not_elem_of_dom, is_fresh.
Qed.

Lemma set_column_spec l name col σ u σ' :
  set_column l name col σ = Some (u, σ') ->
  exists f, σ !! l = Some f /\ length col = nrows f /\
    σ' = <[l := {| nrows := nrows f; columns := <[name := col]> (columns f) |}]> σ.
Proof.
  unfold set_column. destruct (σ !! l) as [f|] eqn:Hl; [|discriminate].
  destruct (decide (length col = nrows f)) as [Hlen|]; [|discriminate].
  intros [= _ <-]. now exists f.
Qed.

(** X18: when [match_by_name] returns, its result is a new frame with the rows
    and the columns of the reference frame, except that the five match
    columns are there, each with one entry per row; the reference frame
    itself is as before. *)
Theorem match_by_name_adds_five_columns
    (ud : UnicodeData) (NON_PRIMARY_TOKENS : gset pystr)
    (WRatio partial_ratio token_sort_ratio token_set_ratio : pystr -> pystr -> Q)
    (reference_gdf compared_gdf : loc)
    (re_name_col comp_name_col comp_id comp_id_col : string) (threshold : Q)
    (σ σ' : store) (result : loc) (ref : frame) :
  match_by_name_df ud NON_PRIMARY_TOKENS WRatio partial_ratio token_sort_ratio
    token_set_ratio reference_gdf compared_gdf re_name_col comp_name_col comp_id comp_id_col
    threshold σ = Some (result, σ') ->
  σ !! reference_gdf = Some ref ->
  result <> reference_gdf /\
  σ' !! reference_gdf = Some ref /\
  exists f,
    σ' !! result = Some f /\
    nrows f = nrows ref /\
    (forall name, name ∉ match_columns -> columns f !! name = columns ref !! name) /\
    (forall name, name ∈ match_columns ->
       exists col, columns f !! name = Some col /\ length col = nrows ref).
Proof.
  unfold match_by_name_df. intros H Href.
  repeat step H.
  apply copy_spec in Hstep as (f0 & Hf0 & Hnew & ->).
  rewrite Href in Hf0. injection Hf0 as <-.
  repeat match goal with
  | Hs : set_column _ _ _ _ = Some (_, _) |- _ =>
      apply set_column_spec in Hs as (? & ? & ? & ->)
  end.
  apply mret_inv in H as [-> ->].
  repeat match goal with
  | Hl : (<[_ := _]> _) !! _ = Some _ |- _ =>
      rewrite lookup_insert_eq in Hl; injection Hl as <-
  end.
  cbn [nrows columns] in *.
  match goal with
  | Hfresh : σ !! ?l = None |- ?l <> _ /\ _ =>
      assert (Hne : l <> reference_gdf) by congruence
  end.
  split; [exact Hne|]. split.
  { rewrite !lookup_insert_ne by exact Hne. exact Href. }
  eexists. split; [apply lookup_insert_eq|]. cbn [nrows columns].
  split; [reflexivity|]. split.
  - intros name Hname. unfold match_columns in Hname.
    rewrite !not_elem_of_cons in Hname. destruct Hname as (? & ? & ? & ? & ? & _).
    rewrite !lookup_insert_ne by congruence. reflexivity.
  - intros name Hname. unfold match_columns in Hname.
    repeat (apply elem_of_cons in Hname as [-> | Hname]);
      [ .. | inversion Hname ];
      eexists;
      (split;
       [ repeat first [ apply lookup_insert_eq | rewrite lookup_insert_ne by discriminate ]
       | assumption ]).
Qed.

Lemma match_by_name_adds_five_columns_witness :
  exists result σ',
    match_by_name_df ucd_excerpt ∅ demo_WRatio demo_partial_ratio demo_token_sort_ratio
      demo_token_set_ratio 1%positive 2%positive "name" "name" "id" "cat_main" 80 sample_store
      = Some (result, σ') /\
    sample_store !! 1%positive = Some sample_reference_frame /\
    result <> 1%positive /\
    σ' !! 1%positive = Some sample_reference_frame.
Proof.
  destruct (match_by_name_df ucd_excerpt ∅ demo_WRatio demo_partial_ratio
              demo_token_sort_ratio demo_token_set_ratio 1%positive 2%positive
              "name" "name" "id" "cat_main" 80 sample_store) as [[result σ']|] eqn:Hrun.
  2:{ vm_compute in Hrun. discriminate. }
  exists result, σ'. split; [reflexivity|]. split; [reflexivity|].
  destruct (match_by_name_adds_five_columns ucd_excerpt ∅ demo_WRatio demo_partial_ratio
              demo_token_sort_ratio demo_token_set_ratio 1%positive 2%positive
              "name" "name" "id" "cat_main" 80 sample_store σ' result sample_reference_frame
              Hrun eq_refl) as (H1 & H2 & _).
  split; assumption.
Defined.

(** The run on the sample frames: the first row is matched to [c2], the
    second has no candidates. *)
Example match_by_name_df_sample :
  (match_by_name_df ucd_excerpt ∅ demo_WRatio demo_partial_ratio demo_token_sort_ratio
     demo_token_set_ratio 1%positive 2%positive "name" "name" "id" "cat_main" 80 sample_store
     ≫= fun '(result, σ') => σ' !! result ≫= fun f => columns f !! "matched_id"%string)
  = Some [Txt (cps "c2"); Null].
Proof. vm_compute. reflexivity. Qed.

(** Integers serve as identifiers as well as texts: the first row is
    matched to the record 102, and the category scorer, whose gate reads the
    identifier as text, scores the row. *)
Example match_by_name_df_integer_ids :
  (match_by_name_df ucd_excerpt ∅ demo_WRatio demo_partial_ratio demo_token_sort_ratio
     demo_token_set_ratio 1%positive 2%positive "name" "name" "id" "cat_main" 80
     numbered_store
     ≫= fun '(result, σ') => σ' !! result ≫= fun f => columns f !! "matched_id"%string)
  = Some [Num 102; Null].
Proof. vm_compute. reflexivity. Qed.

Example similarity_check_integer_id (ud : UnicodeData) {embedding : Type}
    (encode : pystr -> embedding) (cosine_similarity : embedding -> embedding -> Q) :
  (calculate_similarity_check_df ud encode cosine_similarity 1%positive
     "primary_type" "matched_cat_main" "matched_id" "category_sim"
     {[ 1%positive := numbered_matched_frame ]}
     ≫= fun '(df, σ') => σ' !! df ≫= fun f => columns f !! "category_sim"%string)
  = Some [Num (cosine_similarity (encode (cps "cafe")) (encode (cps "cafe"))); Null].
Proof. vm_compute. reflexivity. Qed.
End FramesMoreFacts.

(** ** Analysis: counts by category *)
Module AnalysisFacts.
Import Char Text Frames Analysis.
Open Scope Q_scope.

(** *** The order on texts *)

Lemma str_ltb_irrefl a : str_ltb a a = false.
Proof.
  induction a as [|x a IH]; [reflexivity|].
  cbn. rewrite N.ltb_irrefl, N.eqb_refl, IH. reflexivity.
Qed.

Lemma str_ltb_trans a b c : str_ltb a b = true -> str_ltb b c = true -> str_ltb a c = true.
Proof.
  revert b c. induction a as [|x a IH]; intros [|y b] [|z c]; cbn; try discriminate; auto.
  intros Hab Hbc.
  apply orb_true_iff in Hab as [Hxy | Hxy]; apply orb_true_iff in Hbc as [Hyz | Hyz];
    apply orb_true_iff.
  - left. apply N.ltb_lt in Hxy, Hyz. apply N.ltb_lt. lia.
  - apply andb_true_iff in Hyz as [Hyz _]. apply N.eqb_eq in Hyz. subst. now left.
  - apply andb_true_iff in Hxy as [Hxy _]. apply N.eqb_eq in Hxy. subst. now left.
  - apply andb_true_iff in Hxy as [Hxy Hab]. apply andb_true_iff in Hyz as [Hyz Hbc].
    apply N.eqb_eq in Hxy, Hyz. subst. right. rewrite N.eqb_refl. cbn. eauto.
Qed.

Lemma str_ltb_total a b : a <> b -> str_ltb a b = false -> str_ltb b a = true.
Proof.
  revert b. induction a as [|x a IH]; intros [|y b]; cbn; try congruence; auto.
  intros Hne H. apply orb_false_iff in H as [Hxy H].
  apply N.ltb_ge in Hxy. destruct (N.eqb_spec x y) as [->|Hxy'].
  - cbn in H. rewrite N.ltb_irrefl, N.eqb_refl. cbn. apply IH; [congruence | exact H].
  - apply orb_true_iff. left. apply N.ltb_lt. lia.
Qed.

(** *** Group keys *)

Section Keys.
Context {K : Type} `{EqDecision K}.
Variable ltb : K -> K -> bool.
Hypothesis ltb_irrefl : forall a, ltb a a = false.
Hypothesis ltb_trans : forall a b c, ltb a b = true -> ltb b c = true -> ltb a c = true.
Hypothesis ltb_total : forall a b, a <> b -> ltb a b = false -> ltb b a = true.

Lemma insert_key_elem k l x : x ∈ insert_key ltb k l <-> x = k \/ x ∈ l.
Proof.
  induction l as [|h t IH]; cbn.
  - rewrite list_elem_of_singleton. rewrite elem_of_nil. tauto.
  - destruct (decide (k = h)) as [->|Hne].
    + rewrite elem_of_cons. tauto.
    + destruct (ltb k h).
      * rewrite !elem_of_cons. tauto.
      * rewrite !elem_of_cons, IH. tauto.
Qed.

Lemma insert_key_sorted k l :
  StronglySorted (fun a b => ltb a b = true) l ->
  StronglySorted (fun a b => ltb a b = true) (insert_key ltb k l).
Proof using ltb_trans ltb_total.
  induction l as [|h t IH]; intros Hs; cbn.
  - repeat constructor.
  - apply StronglySorted_cons in Hs as [Hh Ht].
    destruct (decide (k = h)) as [->|Hne]; [now apply StronglySorted_cons|].
    destruct (ltb k h) eqn:E.
    + apply StronglySorted_cons. split; [|now apply StronglySorted_cons].
      constructor; [exact E|].
      eapply Forall_impl; [exact Hh|]. intros x Hx. eapply ltb_trans; eauto.
    + apply StronglySorted_cons. split; [|now apply IH].
      apply Forall_forall. intros x Hx. apply insert_key_elem in Hx as [-> | Hx].
      * now apply ltb_total.
      * rewrite Forall_forall in Hh. now apply Hh.
Qed.

Lemma sorted_keys_NoDup l : StronglySorted (fun a b => ltb a b = true) l -> NoDup l.
Proof using ltb_irrefl.
  induction 1 as [|x l Hs IH Hx]; constructor; [|exact IH].
  intros Hin. rewrite Forall_forall in Hx. specialize (Hx x Hin).
  now rewrite ltb_irrefl in Hx.
Qed.
End Keys.

Lemma group_keys_sorted col : StronglySorted str_lt (group_keys col).
Proof.
  induction col as [|[k|] col IH]; cbn; [constructor | | exact IH].
  apply (insert_key_sorted str_ltb str_ltb_trans str_ltb_total), IH.
Qed.

Lemma group_keys_elem col k : k ∈ group_keys col <-> Some k ∈ col.
Proof.
  induction col as [|[k'|] col IH]; cbn.
  - rewrite !elem_of_nil. tauto.
  - rewrite insert_key_elem, elem_of_cons, IH. split; intros [H|H]; auto; left; congruence.
  - rewrite elem_of_cons, IH. split; [auto | intros [H|H]; [discriminate | exact H]].
Qed.

Lemma sorted_NoDup l : StronglySorted str_lt l -> NoDup l.
Proof. apply (sorted_keys_NoDup str_ltb str_ltb_irrefl). Qed.

(** *** Counting *)




Lemma ratio_bounds a b : (a <= b)%nat -> (1 <= b)%nat -> 0 <= ratio a b /\ ratio a b <= 1.
Proof.
  intros Hab Hb. unfold ratio.
  assert (Hpos : 0 < inject_Z (Z.of_nat b)).
  { unfold Qlt, inject_Z. cbn. lia. }
  split.
  - apply Qle_shift_div_l; [exact Hpos|]. rewrite Qmult_0_l.
    unfold Qle, inject_Z. cbn. lia.
  - apply Qle_shift_div_r; [exact Hpos|]. rewrite Qmult_1_l.
    unfold Qle, inject_Z. cbn. lia.
Qed.


Lemma group_of_cons key r df :
  group_of key (r :: df)
    = if bool_decide (primary_cat r = Some key) then r :: group_of key df
      else group_of key df.
Proof. reflexivity. Qed.

Lemma list_sum_cons (x : nat) (l : list nat) : list_sum (x :: l) = (x + list_sum l)%nat.
Proof. reflexivity. Qed.

Lemma group_sizes_skip (keys : list pystr) r df :
  (forall k, k ∈ keys -> primary_cat r <> Some k) ->
  list_sum (map (fun key => length (group_of key (r :: df))) keys)
    = list_sum (map (fun key => length (group_of key df)) keys).
Proof.
  intros Hr. f_equal. apply map_ext_in. intros k Hk. rewrite group_of_cons.
  rewrite bool_decide_eq_false_2; [reflexivity|]. apply Hr. now apply list_elem_of_In.
Qed.

Lemma group_sizes_hit (keys : list pystr) r df c :
  NoDup keys -> c ∈ keys -> primary_cat r = Some c ->
  list_sum (map (fun key => length (group_of key (r :: df))) keys)
    = S (list_sum (map (fun key => length (group_of key df)) keys)).
Proof.
  intros Hnd Hin Hc. induction keys as [|k keys IH]; [inversion Hin|].
  apply NoDup_cons in Hnd as [Hk Hnd]. cbn [map].
  rewrite !list_sum_cons.
  rewrite group_of_cons. destruct (decide (k = c)) as [->|Hne].
  - rewrite bool_decide_eq_true_2 by exact Hc. cbn [length].
    rewrite group_sizes_skip; [reflexivity|].
    intros k Hkin H. rewrite Hc in H. injection H as ->. contradiction.
  - rewrite bool_decide_eq_false_2 by congruence.
    apply elem_of_cons in Hin as [-> | Hin]; [congruence|].
    rewrite (IH Hnd Hin). lia.
Qed.

(** The sum of a count over distinct keys that cover the column. *)
Lemma group_sizes_sum (keys : list pystr) (df : list stat_row) :
  NoDup keys ->
  (forall r k, r ∈ df -> primary_cat r = Some k -> k ∈ keys) ->
  list_sum (map (fun key => length (group_of key df)) keys)
    = length (List.filter (fun r => bool_decide (primary_cat r <> None)) df).
Proof.
  intros Hnd. induction df as [|r df IH]; intros Hcover.
  - clear Hnd Hcover. induction keys as [|k keys IHk]; [reflexivity | exact IHk].
  - assert (IH' := IH (fun r' k Hr' => Hcover r' k (list_elem_of_further _ _ _ Hr'))).
    cbn [List.filter]. destruct (primary_cat r) as [c|] eqn:Hc.
    + rewrite bool_decide_eq_true_2 by discriminate. cbn [length]. rewrite <- IH'.
      apply (group_sizes_hit keys r df c Hnd); [|exact Hc].
      apply (Hcover r c); [left | exact Hc].
    + rewrite bool_decide_eq_false_2 by (intros H; now apply H). rewrite <- IH'.
      apply group_sizes_skip. intros k _. congruence.
Qed.

(** X20: [process_stats] has one row per category that occurs in the frame, in
    ascending order of the category; together the rows count every record
    that has a category once, and the records without one not at all. *)
Theorem process_stats_groups (df : list stat_row) (source_name : pystr) :
  StronglySorted str_lt (map stats_cat (process_stats df source_name)) /\
  NoDup (map stats_cat (process_stats df source_name)) /\
  (forall c, c ∈ map stats_cat (process_stats df source_name) <->
             Some c ∈ map primary_cat df) /\
  list_sum (map total_count (process_stats df source_name))
    = length (List.filter (fun r => bool_decide (primary_cat r <> None)) df).
Proof.
  assert (Hcats : map stats_cat (process_stats df source_name)
                  = group_keys (map primary_cat df)).
  { unfold process_stats. rewrite map_map. cbn. apply map_id. }
  rewrite Hcats.
  pose proof (group_keys_sorted (map primary_cat df)) as Hs.
  split; [exact Hs|]. split; [now apply sorted_NoDup|]. split.
  - intros c. apply group_keys_elem.
  - unfold process_stats. rewrite map_map. cbn.
    apply group_sizes_sum; [now apply sorted_NoDup|].
    intros r k Hr Hk. apply group_keys_elem. apply list_elem_of_fmap. now exists r.
Qed.
End AnalysisFacts.

(** ** Analysis: match rates *)
Module MatchRateFacts.
Import Char Text Frames Analysis Summaries AnalysisFacts.
Open Scope Q_scope.







Section MatchRate.
Variable isin_true_values : cell -> bool.
Variable order_counts : list (pystr * nat) -> list (pystr * nat).
Variable sort_values : list (pystr * nat * nat * Q) -> list (pystr * nat * nat * Q).
Hypothesis order_counts_perm : forall l, order_counts l ≡ₚ l.
Hypothesis sort_values_perm : forall l, sort_values l ≡ₚ l.

Abbreviation value_counts := (Summaries.value_counts order_counts).





End MatchRate.

End MatchRateFacts.

(** ** Analysis: distance bins *)
Module DistBinFacts.
Import Char Text Frames Analysis Summaries AnalysisFacts MatchRateFacts.
Open Scope Q_scope.

Lemma pair_ltb_irrefl a : pair_ltb a a = false.
Proof.
  unfold pair_ltb. rewrite str_ltb_irrefl, Nat.ltb_irrefl. cbn. apply andb_false_r.
Qed.

Lemma str_ltb_asym a b : str_ltb a b = true -> str_ltb b a = false.
Proof.
  intros Hab. destruct (str_ltb b a) eqn:Hba; [|reflexivity].
  pose proof (str_ltb_trans _ _ _ Hab Hba) as H. now rewrite str_ltb_irrefl in H.
Qed.

Lemma pair_ltb_trans a b c : pair_ltb a b = true -> pair_ltb b c = true -> pair_ltb a c = true.
Proof.
  unfold pair_ltb. intros Hab Hbc.
  apply orb_true_iff in Hab as [Hab | Hab]; apply orb_true_iff in Hbc as [Hbc | Hbc];
    apply orb_true_iff.
  - left. eapply str_ltb_trans; eauto.
  - apply andb_true_iff in Hbc as [Hbc _]. apply bool_decide_eq_true in Hbc.
    rewrite <- Hbc. now left.
  - apply andb_true_iff in Hab as [Hab _]. apply bool_decide_eq_true in Hab.
    rewrite Hab. now left.
  - apply andb_true_iff in Hab as [Hab Hab']. apply andb_true_iff in Hbc as [Hbc Hbc'].
    apply bool_decide_eq_true in Hab, Hbc. apply Nat.ltb_lt in Hab', Hbc'.
    right. apply andb_true_iff. split; [apply bool_decide_eq_true; congruence|].
    apply Nat.ltb_lt. lia.
Qed.

Lemma pair_ltb_total a b : a <> b -> pair_ltb a b = false -> pair_ltb b a = true.
Proof.
  destruct a as [c1 b1], b as [c2 b2]. unfold pair_ltb. cbn [fst snd].
  intros Hne H. apply orb_false_iff in H as [Hs H]. apply orb_true_iff.
  destruct (decide (c1 = c2)) as [->|Hc].
  - right. rewrite bool_decide_eq_true_2 in H by reflexivity. cbn in H.
    rewrite bool_decide_eq_true_2 by reflexivity. cbn.
    apply Nat.ltb_ge in H. apply Nat.ltb_lt.
    assert (b1 <> b2) by congruence. lia.
  - left. apply str_ltb_total; [congruence | exact Hs].
Qed.

Lemma group_pairs_sorted df : StronglySorted pair_lt (group_pairs df).
Proof.
  unfold group_pairs. induction df as [|r df IH]; cbn; [constructor|].
  destruct (bin_cat r), (dist_bin r); try exact IH.
  apply (insert_key_sorted pair_ltb pair_ltb_trans pair_ltb_total), IH.
Qed.

Lemma group_pairs_elem df c b :
  (c, b) ∈ group_pairs df <-> exists r, r ∈ df /\ bin_cat r = Some c /\ dist_bin r = Some b.
Proof.
  unfold group_pairs. induction df as [|r df IH]; cbn.
  - rewrite elem_of_nil. split; [tauto | intros (r & Hr & _); inversion Hr].
  - assert (Hrest : (exists r0, r0 ∈ df /\ bin_cat r0 = Some c /\ dist_bin r0 = Some b) ->
                    exists r0, r0 ∈ r :: df /\ bin_cat r0 = Some c /\ dist_bin r0 = Some b).
    { intros (r0 & H0 & H1). exists r0. split; [now right | exact H1]. }
    destruct (bin_cat r) as [c'|] eqn:Hc, (dist_bin r) as [b'|] eqn:Hb.
    + rewrite insert_key_elem, IH. split.
      * intros [[= -> ->] | H]; [|auto]. exists r. split; [left | auto].
      * intros (r0 & H0 & H1 & H2). apply elem_of_cons in H0 as [-> | H0].
        -- left. congruence.
        -- right. eauto.
    + rewrite IH. split; [auto|]. intros (r0 & H0 & H1 & H2).
      apply elem_of_cons in H0 as [-> | H0]; [congruence | eauto].
    + rewrite IH. split; [auto|]. intros (r0 & H0 & H1 & H2).
      apply elem_of_cons in H0 as [-> | H0]; [congruence | eauto].
    + rewrite IH. split; [auto|]. intros (r0 & H0 & H1 & H2).
      apply elem_of_cons in H0 as [-> | H0]; [congruence | eauto].
Qed.

Lemma bin_group_nonempty df key :
  key ∈ group_pairs df -> (1 <= length (bin_group key df))%nat.
Proof.
  destruct key as [c b]. intros Hin. apply group_pairs_elem in Hin as (r & Hr & Hc & Hb).
  assert (Hg : r ∈ bin_group (c, b) df).
  { unfold bin_group. apply list_elem_of_In, filter_In. split; [now apply list_elem_of_In|].
    now apply bool_decide_eq_true. }
  destruct (bin_group (c, b) df); [inversion Hg | cbn; lia].
Qed.

Lemma filter_split_length {A} (p : A -> bool) (l : list A) :
  (length (List.filter p l) + length (List.filter (fun x => negb (p x)) l))%nat = length l.
Proof.
  induction l as [|x l IH]; [reflexivity|]. cbn. destruct (p x); cbn; lia.
Qed.

Lemma filter_le_length {A} (p q : A -> bool) (l : list A) :
  (forall x, p x = true -> q x = true) ->
  (length (List.filter p l) <= length (List.filter q l))%nat.
Proof.
  intros Hpq. induction l as [|x l IH]; [reflexivity|]. cbn.
  destruct (p x) eqn:Hp; [rewrite (Hpq x Hp); cbn; lia|].
  destruct (q x); cbn; lia.
Qed.

Lemma filter_two_le {A} (p q t : A -> bool) (l : list A) :
  (forall x, p x = true -> q x = false) ->
  (forall x, p x = true -> t x = true) ->
  (forall x, q x = true -> t x = true) ->
  (length (List.filter p l) + length (List.filter q l) <= length (List.filter t l))%nat.
Proof.
  intros Hpq Hp Hq. induction l as [|x l IH]; [reflexivity|]. cbn.
  destruct (p x) eqn:Ep.
  - rewrite (Hpq x Ep), (Hp x Ep). cbn. lia.
  - destruct (q x) eqn:Eq; [rewrite (Hq x Eq); cbn; lia|].
    destruct (t x); cbn; lia.
Qed.

(** *** Rounding *)

Lemma pow2_pos e : 0 < pow2 e.
Proof.
  unfold pow2. destruct (0 <=? e)%Z eqn:E.
  - apply Z.leb_le in E. rewrite <- (Zlt_Qlt 0). now apply Z.pow_pos_nonneg.
  - apply Z.leb_gt in E. apply Qlt_shift_div_l.
    + rewrite <- (Zlt_Qlt 0). apply Z.pow_pos_nonneg; lia.
    + rewrite Qmult_0_l. reflexivity.
Qed.

Lemma round_half_even_nonneg x : 0 <= x -> (0 <= round_half_even x)%Z.
Proof.
  intros Hx. unfold round_half_even.
  assert (Hf : (0 <= Qfloor x)%Z) by (apply (Qfloor_resp_le 0 x Hx)).
  destruct (Qcompare _ _); [destruct (Z.even _)|..]; lia.
Qed.

Lemma round_half_even_le x n : x <= inject_Z n -> (round_half_even x <= n)%Z.
Proof.
  intros Hx. unfold round_half_even.
  pose proof (Qfloor_le x) as Hf.
  assert (Hfn : (Qfloor x <= n)%Z) by (rewrite Zle_Qle; eapply Qle_trans; eauto).
  assert (Hup : 0 < x - inject_Z (Qfloor x) -> (Qfloor x + 1 <= n)%Z).
  { intros Hpos. assert (Hlt : inject_Z (Qfloor x) < inject_Z n).
    { eapply Qlt_le_trans; [|exact Hx]. lra. }
    rewrite <- Zlt_Qlt in Hlt. lia. }
  destruct (Qcompare (x - inject_Z (Qfloor x)) (1 # 2)) eqn:E.
  - destruct (Z.even (Qfloor x)); [exact Hfn|]. apply Hup.
    apply Qeq_alt in E. rewrite E. reflexivity.
  - exact Hfn.
  - apply Hup. apply Qgt_alt in E. eapply Qlt_trans; [|exact E]. reflexivity.
Qed.

Lemma floor_log2_le_0 a : 0 < a -> a <= 1 -> (floor_log2 a <= 0)%Z.
Proof.
  intros Hpos Hle. unfold floor_log2.
  assert (Hn : (Qnum a <= Z.pos (Qden a))%Z).
  { unfold Qle in Hle. cbn in Hle. lia. }
  pose proof (Z.log2_le_mono _ _ Hn) as Hl.
  destruct (Qle_bool _ a); lia.
Qed.

Lemma Qabs_of_nonneg x : 0 <= x -> Qabs x = x.
Proof.
  destruct x as [n d]. unfold Qle. cbn. intros H. f_equal. apply Z.abs_eq. lia.
Qed.

Lemma b64_nonneg x : 0 <= x -> 0 <= b64 x.
Proof.
  intros Hx. unfold b64. destruct (Qeq_bool x 0); [apply Qle_refl|].
  rewrite (proj2 (Qle_bool_iff 0 x) Hx). rewrite Qred_correct.
  apply Qmult_le_0_compat; [|apply Qlt_le_weak, pow2_pos].
  rewrite <- (Zle_Qle 0). apply round_half_even_nonneg.
  apply Qle_shift_div_l; [apply pow2_pos|]. rewrite Qmult_0_l. apply Qabs_nonneg.
Qed.

Lemma b64_le_1 x : 0 <= x -> x <= 1 -> b64 x <= 1.
Proof.
  intros Hx H1. unfold b64. destruct (Qeq_bool x 0) eqn:E0; [discriminate|].
  rewrite (proj2 (Qle_bool_iff 0 x) Hx). rewrite Qred_correct.
  rewrite (Qabs_of_nonneg x Hx).
  assert (Hpos : 0 < x).
  { apply Qle_lt_or_eq in Hx as [H | H]; [exact H|].
    symmetry in H. apply Qeq_bool_iff in H. congruence. }
  pose proof (floor_log2_le_0 x Hpos H1) as He.
  set (e := (Z.max (floor_log2 x) (-1022) - 52)%Z).
  assert (Hneg : (e < 0)%Z) by (unfold e; lia).
  assert (Hulp : pow2 e = 1 / inject_Z (2 ^ (- e))).
  { unfold pow2. destruct (0 <=? e)%Z eqn:E; [apply Z.leb_le in E; lia | reflexivity]. }
  assert (Hk : 0 < inject_Z (2 ^ (- e))).
  { rewrite <- (Zlt_Qlt 0). apply Z.pow_pos_nonneg; lia. }
  assert (Hm : (round_half_even (x / pow2 e) <= 2 ^ (- e))%Z).
  { apply round_half_even_le. rewrite Hulp.
    assert (Hq : x / (1 / inject_Z (2 ^ (- e))) == x * inject_Z (2 ^ (- e))).
    { field. intros H. rewrite H in Hk. exact (Qlt_irrefl _ Hk). }
    rewrite Hq. rewrite <- (Qmult_1_l (inject_Z (2 ^ (- e)))) at 2.
    apply Qmult_le_compat_r; [exact H1 | now apply Qlt_le_weak]. }
  rewrite Zle_Qle in Hm.
  set (m := round_half_even (x / pow2 e)) in *. clearbody m.
  rewrite Hulp.
  assert (Hq : inject_Z m * (1 / inject_Z (2 ^ (- e))) == inject_Z m / inject_Z (2 ^ (- e))).
  { field. intros H. rewrite H in Hk. exact (Qlt_irrefl _ Hk). }
  rewrite Hq. apply Qle_shift_div_r; [exact Hk|]. now rewrite Qmult_1_l.
Qed.

Lemma fdiv_nan a b : fdiv a b = NotANumber <-> b == 0 /\ a == 0.
Proof.
  unfold fdiv. destruct (Qeq_bool b 0) eqn:Eb.
  - apply Qeq_bool_iff in Eb. destruct (Qeq_bool a 0) eqn:Ea.
    + apply Qeq_bool_iff in Ea. tauto.
    + split; [discriminate|]. intros [_ Ha]. apply Qeq_bool_iff in Ha. congruence.
  - split.
    + destruct (Qle_bool _ _); discriminate.
    + intros [Hb _]. apply Qeq_bool_iff in Hb. congruence.
Qed.

Lemma fdiv_finite a b q : fdiv a b = Finite q -> ~ b == 0 /\ q = b64 (a / b).
Proof.
  unfold fdiv. destruct (Qeq_bool b 0) eqn:Eb.
  - destruct (Qeq_bool a 0); discriminate.
  - destruct (Qle_bool _ _); [discriminate|]. intros [= <-]. split; [|reflexivity].
    intros Hb. apply Qeq_bool_iff in Hb. congruence.
Qed.

Lemma fdiv_zero n b :
  b == 0 -> fdiv (count_Q n) b = if (n =? 0)%nat then NotANumber else Infinite.
Proof.
  intros Hb. unfold fdiv. rewrite (proj2 (Qeq_bool_iff b 0) Hb).
  destruct n; [reflexivity|]. cbn [Nat.eqb].
  destruct (Qeq_bool (count_Q (S n)) 0) eqn:E; [|reflexivity].
  apply Qeq_bool_iff in E. unfold count_Q, Qeq, inject_Z in E. cbn in E. lia.
Qed.

Section DistBins.
Variable interval_of : nat -> Q * Q.
Variable match_value : pystr.
Variable km2 : bool.

Abbreviation summarize_match_miss_by_dist_bin :=
  (Summaries.summarize_match_miss_by_dist_bin interval_of match_value km2).

Lemma summary_keys gdf :
  map (fun s => (bs_cat s, bs_bin s)) (summarize_match_miss_by_dist_bin gdf)
    = group_pairs gdf.
Proof.
  unfold Summaries.summarize_match_miss_by_dist_bin. cbn zeta.
  rewrite fmap_imap.
  rewrite (imap_ext _ (fun _ k => k)).
  - clear. induction (group_pairs gdf) as [|k l IH]; [reflexivity|].
    rewrite imap_cons. f_equal. exact IH.
  - intros i [c b] _. reflexivity.
Qed.
End DistBins.

(** X22: in the summary by category and distance bin every group has at
    least one record, every record of a group is a match or a non-match, and
    the records with the verdict "0" and those without a verdict are among
    the non-matches (when the matching verdict is not "0").  The two shares
    are the rounded quotients of the counts by the group size and lie between
    0 and 1.  A density that is finite is the rounded quotient of its count
    by the ring area; the total density is never NaN and is infinite on a
    ring of area zero; the density of the matches, or of the non-matches, is
    NaN exactly when the area and the count are both zero. *)
Theorem dist_bin_counts (interval_of : nat -> Q * Q) (match_value : pystr) (km2 : bool)
    (gdf : list bin_row) :
  Forall (fun s =>
            (1 <= n_total s)%nat /\
            (n_match s + n_nonmatch s = n_total s)%nat /\
            (match_value <> cps "0" ->
               (bs_n_mistake s + bs_n_miss s <= n_nonmatch s)%nat) /\
            match_c s = b64 (ratio (n_match s) (n_total s)) /\
            non_match_c s = b64 (ratio (n_nonmatch s) (n_total s)) /\
            (0 <= match_c s /\ match_c s <= 1) /\
            (0 <= non_match_c s /\ non_match_c s <= 1) /\
            (forall q, match_den s = Finite q ->
               q = b64 (count_Q (n_match s) / ring_area s)) /\
            (forall q, nonmatch_den s = Finite q ->
               q = b64 (count_Q (n_nonmatch s) / ring_area s)) /\
            (forall q, total_den s = Finite q ->
               q = b64 (count_Q (n_total s) / ring_area s)) /\
            total_den s <> NotANumber /\
            (ring_area s == 0 -> total_den s = Infinite) /\
            (match_den s = NotANumber <-> ring_area s == 0 /\ n_match s = 0%nat) /\
            (nonmatch_den s = NotANumber <-> ring_area s == 0 /\ n_nonmatch s = 0%nat))
    (summarize_match_miss_by_dist_bin interval_of match_value km2 gdf).
Proof.
  assert (Hcount : forall n, count_Q n == 0 <-> n = 0%nat).
  { intros n. unfold count_Q, Qeq, inject_Z. cbn. lia. }
  unfold summarize_match_miss_by_dist_bin. cbn zeta.
  apply Forall_forall. intros s Hs.
  apply elem_of_lookup_imap in Hs as (i & key & -> & Hkey). cbn.
  apply list_elem_of_lookup_2 in Hkey.
  pose proof (bin_group_nonempty gdf key Hkey) as Hone.
  set (x := bin_group key gdf) in *.
  pose proof (filter_split_length (true_match_eq match_value) x) as Hsplit.
  split; [exact Hone|]. split; [exact Hsplit|]. split.
  { intros Hmv. apply filter_two_le.
    + intros r. unfold true_match_eq, true_match_isna. now destruct (bin_true_match r).
    + intros r. unfold true_match_eq. destruct (bin_true_match r); try discriminate.
      intros H. apply bool_decide_eq_true in H. subst.
      now rewrite bool_decide_eq_false_2 by congruence.
    + intros r. unfold true_match_eq, true_match_isna. now destruct (bin_true_match r). }
  split; [reflexivity|]. split; [reflexivity|].
  split.
  { destruct (ratio_bounds (length (List.filter (true_match_eq match_value) x)) (length x))
      as [H0 H1]; [lia | exact Hone|].
    split; [now apply b64_nonneg | now apply b64_le_1]. }
  split.
  { destruct (ratio_bounds
                (length (List.filter (fun r => negb (true_match_eq match_value r)) x))
                (length x)) as [H0 H1]; [lia | exact Hone|].
    split; [now apply b64_nonneg | now apply b64_le_1]. }
  split; [intros q Hq; apply (fdiv_finite _ _ _ Hq)|].
  split; [intros q Hq; apply (fdiv_finite _ _ _ Hq)|].
  split; [intros q Hq; apply (fdiv_finite _ _ _ Hq)|].
  split.
  { intros Hnan. apply fdiv_nan in Hnan as [_ Hz]. apply Hcount in Hz. lia. }
  split.
  { intros Harea. rewrite fdiv_zero by exact Harea.
    destruct (length x); [lia | reflexivity]. }
  split; rewrite fdiv_nan, Hcount; reflexivity.
Qed.

Lemma filter_none {A} (p : A -> bool) (l : list A) :
  Forall (fun x => p x = false) l -> List.filter p l = [].
Proof.
  induction 1 as [|x l Hx _ IH]; [reflexivity|]. cbn. now rewrite Hx.
Qed.

(** In a sorted list of keys, the keys of a category before a position
    are the keys of the category with a lower bin. *)
Lemma rank_split (pre post : list (pystr * nat)) c b :
  StronglySorted pair_lt (pre ++ (c, b) :: post) ->
  List.filter (fun k => bool_decide (k.1 = c)) pre
    = List.filter (fun k => bool_decide (k.1 = c) && (k.2 <? b)%nat) (pre ++ (c, b) :: post).
Proof.
  intros Hs. rewrite List.filter_app.
  apply StronglySorted_app in Hs as (Hcross & Hbefore & Hafter).
  apply StronglySorted_cons in Hafter as [Hlater _].
  replace (List.filter (fun k => bool_decide (k.1 = c) && (k.2 <? b)%nat) ((c, b) :: post))
    with (@nil (pystr * nat)).
  - rewrite app_nil_r. apply List.filter_ext_in. intros k Hk.
    apply list_elem_of_In in Hk.
    assert (Hlt : pair_lt k (c, b)) by (apply Hcross; [exact Hk | left]).
    unfold pair_lt, pair_ltb in Hlt. cbn [fst snd] in Hlt.
    destruct (decide (k.1 = c)) as [Heq|Hne].
    + rewrite bool_decide_eq_true_2 by exact Heq. cbn.
      rewrite Heq, str_ltb_irrefl, bool_decide_eq_true_2 in Hlt by reflexivity.
      cbn in Hlt. now rewrite Hlt.
    + now rewrite bool_decide_eq_false_2 by exact Hne.
  - symmetry. apply filter_none. constructor.
    + cbn [fst snd]. rewrite Nat.ltb_irrefl. apply andb_false_r.
    + eapply Forall_impl; [exact Hlater|]. intros k Hlt.
      unfold pair_lt, pair_ltb in Hlt. cbn [fst snd] in Hlt.
      destruct (decide (k.1 = c)) as [Heq|Hne].
      * rewrite <- Heq, str_ltb_irrefl in Hlt. cbn in Hlt.
        apply andb_true_iff in Hlt as [_ Hlt]. apply Nat.ltb_lt in Hlt.
        rewrite bool_decide_eq_true_2 by exact Heq. cbn. apply Nat.ltb_ge. lia.
      * now rewrite bool_decide_eq_false_2 by exact Hne.
Qed.

Lemma rank_in_sorted (keys : list (pystr * nat)) i c b :
  StronglySorted pair_lt keys -> keys !! i = Some (c, b) ->
  List.filter (fun k => bool_decide (k.1 = c)) (take i keys)
    = List.filter (fun k => bool_decide (k.1 = c) && (k.2 <? b)%nat) keys.
Proof.
  intros Hs Hi. pose proof (take_drop_middle keys i (c, b) Hi) as Hsplit.
  rewrite <- Hsplit in Hs.
  transitivity (List.filter (fun k => bool_decide (k.1 = c) && (k.2 <? b)%nat)
                  (take i keys ++ (c, b) :: drop (S i) keys)).
  - apply rank_split, Hs.
  - now rewrite Hsplit.
Qed.

(** X23: the summary has one row per pair of a category and a bin that some
    record has, ordered by category and then by bin; and [bin_id] numbers the
    rows of a category from 1 on without gaps: it is one more than the number
    of bins below it in which the category has records, whatever the codes of
    the bins. *)
Theorem bin_id_ranks_observed_bins (interval_of : nat -> Q * Q) (match_value : pystr)
    (km2 : bool) (gdf : list bin_row) :
  StronglySorted pair_lt
    (map (fun s => (bs_cat s, bs_bin s))
       (summarize_match_miss_by_dist_bin interval_of match_value km2 gdf)) /\
  (forall c b,
     (c, b) ∈ map (fun s => (bs_cat s, bs_bin s))
                (summarize_match_miss_by_dist_bin interval_of match_value km2 gdf) <->
     exists r, r ∈ gdf /\ bin_cat r = Some c /\ dist_bin r = Some b) /\
  Forall (fun s =>
            bin_id s
              = S (length
                     (List.filter
                        (fun k => bool_decide (k.1 = bs_cat s) && (k.2 <? bs_bin s)%nat)
                        (map (fun s' => (bs_cat s', bs_bin s'))
                           (summarize_match_miss_by_dist_bin interval_of match_value km2
                              gdf)))))
    (summarize_match_miss_by_dist_bin interval_of match_value km2 gdf).
Proof.
  rewrite summary_keys.
  split; [apply group_pairs_sorted|]. split; [apply group_pairs_elem|].
  unfold summarize_match_miss_by_dist_bin. cbn zeta.
  apply Forall_forall. intros s Hs.
  apply elem_of_lookup_imap in Hs as (i & [c b] & -> & Hkey). cbn [bin_id bs_cat bs_bin fst snd].
  f_equal. f_equal. apply rank_in_sorted; [apply group_pairs_sorted | exact Hkey].
Qed.
End DistBinFacts.

Module AnalysisSampleFacts.
Import Char Text Frames Analysis Summaries AnalysisFacts MatchRateFacts DistBinFacts
  AnalysisSamples.
Open Scope Q_scope.

Lemma insert_desc_perm {A} (key : A -> nat) x l : insert_desc key x l ≡ₚ x :: l.
Proof.
  induction l as [|y r IH]; cbn [insert_desc]; [reflexivity|].
  destruct (key y <? key x)%nat; [reflexivity|]. rewrite IH. apply Permutation_swap.
Qed.


Lemma insert_desc_sorted {A} (key : A -> nat) x l :
  StronglySorted (fun a b => (key b <= key a)%nat) l ->
  StronglySorted (fun a b => (key b <= key a)%nat) (insert_desc key x l).
Proof.
  induction l as [|y r IH]; intros Hs; cbn [insert_desc]; [repeat constructor|].
  apply StronglySorted_cons in Hs as [Hy Hr].
  destruct (key y <? key x)%nat eqn:E.
  - apply Nat.ltb_lt in E. apply StronglySorted_cons. split.
    + constructor; [lia|]. eapply Forall_impl; [exact Hy|]. intros z Hz. cbn in Hz. lia.
    + now apply StronglySorted_cons.
  - apply Nat.ltb_ge in E. apply StronglySorted_cons. split; [|now apply IH].
    rewrite insert_desc_perm. now constructor.
Qed.

Lemma sort_desc_sorted {A} (key : A -> nat) l :
  StronglySorted (fun a b => (key b <= key a)%nat) (sort_desc key l).
Proof.
  unfold sort_desc. induction l as [|x l IH]; cbn [foldr]; [constructor|].
  now apply insert_desc_sorted.
Qed.


(** The summary of the sample: the bank, which has no true match, has no
    row, and the shares are taken of all six records. *)
Example sample_match_rate_rows :
  sample_match_rate
    = [ {| rate_cat := cps "cafe"; compare_count := 2; ref_count := 3;
           cat_per := ratio 3 6; match_rate := ratio 2 3 |};
        {| rate_cat := cps "park"; compare_count := 1; ref_count := 1;
           cat_per := ratio 1 6; match_rate := ratio 1 1 |} ].
Proof. vm_compute. reflexivity. Qed.

(** [process_stats] on the sample. *)
Example sample_process_stats :
  map (fun s => (stats_cat s, n_mistake s, n_miss s, total_count s))
      (process_stats sample_records (cps "OVE"))
    = [ (cps "bank", 0, 1, 1); (cps "cafe", 1, 0, 3); (cps "park", 0, 0, 1) ]%nat.
Proof. vm_compute. reflexivity. Qed.

(** The bins 3 and 7 get the identifiers 1 and 2; the record without a
    bin is in no group, and the record without a verdict is a non-match. *)
Example sample_bin_ids :
  map (fun s => (bs_bin s, bin_id s, n_total s, n_match s, n_nonmatch s, median_name_score s))
      (summarize_match_miss_by_dist_bin sample_interval (cps "1") false sample_binned)
    = [ (3%nat, 1%nat, 1%nat, 0%nat, 1%nat, Some 40);
        (7%nat, 2%nat, 2%nat, 1%nat, 1%nat, Some 90) ].
Proof. vm_compute. reflexivity. Qed.

(** The densities are rounded one by one, so those of the matches and of the
    non-matches need not add up to the total density: in the ring between
    700 m and 800 m one record and two records give 6.366197723675814e-06
    together, three records 6.366197723675813e-06. *)
Example densities_do_not_add_up :
  ~ sample_density 1 + sample_density 2 == sample_density 3.
Proof. vm_compute. discriminate. Qed.
End AnalysisSampleFacts.

(** ** OpenStreetMap records *)
Module OsmFacts.
Import Char Text TextFacts Osm.
Open Scope N_scope.

Section Addresses.
Variable ud : UnicodeData.
Variable lower : pystr -> pystr.

Abbreviation address_part := (Osm.address_part ud lower).
Abbreviation build_address := (Osm.build_address ud lower).

Lemma normalize_NA : normalize_value ud (TextValue (cps "N/A")) = NAValue.
Proof. reflexivity. Qed.

(** Without a usable street and house name the address is N/A. *)
Lemma build_address_fallback housenumber street housename :
  address_part street = [] ->
  strip ud (shown housename) = [] \/ nan_like lower (strip ud (shown housename)) = true ->
  build_address housenumber street housename = cps "N/A".
Proof.
  unfold Osm.build_address. intros -> [Hh | Hh].
  - rewrite Hh. now destruct (address_part housenumber).
  - rewrite Hh. destruct (address_part housenumber);
      now destruct (strip ud (shown housename)).
Qed.
End Addresses.

(** X24: [build_address] never returns an empty text; it uses the house
    number only together with a street (a record with a number and no usable
    street falls back to the house name); with a usable street it returns the
    street, preceded by the number and a space when there is one; and without
    a usable street and house name it returns N/A. *)
Theorem build_address_cases (ud : UnicodeData) (lower : pystr -> pystr)
    (housenumber street housename : option tag_value) :
  build_address ud lower housenumber street housename <> [] /\
  (address_part ud lower street = [] ->
     forall other,
       build_address ud lower housenumber street housename
         = build_address ud lower other street housename) /\
  (address_part ud lower street <> [] ->
     build_address ud lower housenumber street housename
       = match address_part ud lower housenumber with
         | [] => address_part ud lower street
         | num => num ++ [SPACE] ++ address_part ud lower street
         end) /\
  (address_part ud lower street = [] ->
     strip ud (shown housename) = [] \/ nan_like lower (strip ud (shown housename)) = true ->
     build_address ud lower housenumber street housename = cps "N/A").
Proof.
  split; [|split; [|split]].
  - unfold build_address.
    destruct (address_part ud lower street) as [|c st].
    + destruct (address_part ud lower housenumber);
        destruct (strip ud (shown housename)) as [|h hs]; try discriminate;
        destruct (nan_like lower (h :: hs)); discriminate.
    + destruct (address_part ud lower housenumber) as [|n ns]; [discriminate|].
      cbn. discriminate.
  - intros Hs other. unfold build_address. rewrite Hs.
    destruct (address_part ud lower housenumber), (address_part ud lower other); reflexivity.
  - intros Hs. unfold build_address.
    destruct (address_part ud lower street) as [|c st]; [congruence|].
    now destruct (address_part ud lower housenumber).
  - apply build_address_fallback.
Qed.

(** X25: [normalize_nulls] applied twice changes nothing more.  A cell
    becomes [pd.NA] exactly when it is a null, a blank text or a text of the
    list, and every other text is left as it is.  In particular the address
    N/A that [build_address] gives a record without a usable street and house
    name becomes a null. *)
Theorem normalize_nulls_cases (ud : UnicodeData) (lower : pystr -> pystr) (v : tag_value) :
  normalize_value ud (normalize_value ud v) = normalize_value ud v /\
  (normalize_value ud v = NAValue <->
     forall s, v = TextValue s -> forallb (Char.is_space ud) s = true \/ s ∈ null_texts) /\
  (forall s, v = TextValue s ->
     forallb (Char.is_space ud) s = false -> s ∉ null_texts ->
     normalize_value ud v = TextValue s) /\
  (forall housenumber street housename,
     address_part ud lower street = [] ->
     strip ud (shown housename) = [] ->
     normalize_value ud (TextValue (build_address ud lower housenumber street housename))
       = NAValue).
Proof.
  split; [|split; [|split]].
  - destruct v as [| | |s]; try reflexivity. unfold normalize_value.
    destruct (forallb (Char.is_space ud) s) eqn:E1; [reflexivity|].
    destruct (bool_decide (s ∈ null_texts)) eqn:E2; [reflexivity|].
    now rewrite E1, E2.
  - destruct v as [| | |s]; try (split; [discriminate | reflexivity]).
    unfold normalize_value.
    destruct (forallb (Char.is_space ud) s) eqn:E1.
    { split; [|reflexivity]. intros _ s' [= <-]. now left. }
    destruct (bool_decide (s ∈ null_texts)) eqn:E2.
    { split; [|reflexivity]. intros _ s' [= <-]. right.
      now apply bool_decide_eq_true in E2. }
    split; [discriminate|]. intros H. destruct (H s eq_refl) as [Hb | Hl].
    + congruence.
    + apply bool_decide_eq_false in E2. contradiction.
  - intros s -> E1 Hl. unfold normalize_value. rewrite E1.
    now rewrite bool_decide_eq_false_2.
  - intros housenumber street housename Hs Hh.
    rewrite (build_address_fallback ud lower housenumber street housename Hs (or_introl Hh)).
    apply normalize_NA.
Qed.

Section Tags.
Context {V : Type}.
Variable text_of_json : V -> option pystr.
Variable json_loads : pystr -> option (@json V).

Lemma first_tag_not_object (tags : @json V) keys :
  (forall members, tags <> JObject members) ->
  default None (first_tag text_of_json tags keys) = None.
Proof.
  intros Hno. induction keys as [|key rest IH]; [reflexivity|].
  destruct tags as [| | |s|l|members]; try reflexivity.
  - cbn. destruct (contains key s); [reflexivity | exact IH].
  - cbn. destruct (in_array text_of_json key l); [reflexivity | exact IH].
  - now specialize (Hno members).
Qed.

Lemma first_tag_object members pre key post v :
  Forall (fun k => member k members = None) pre ->
  member key members = Some v ->
  first_tag text_of_json (JObject members) (pre ++ key :: post) = Some v.
Proof.
  intros Hpre Hkey. induction Hpre as [|k pre Hk _ IH]; cbn.
  - now rewrite Hkey.
  - now rewrite Hk.
Qed.

Lemma first_tag_absent members keys :
  Forall (fun k => member k members = None) keys ->
  first_tag text_of_json (JObject members) keys = Some None.
Proof.
  induction 1 as [|k keys Hk _ IH]; cbn; [reflexivity|]. now rewrite Hk.
Qed.
End Tags.

(** X26: [extract_from_tags] looks at objects only: for a null argument, for
    a text that is not JSON and for JSON that is not an object it returns
    None.  On an object it returns the value of the first priority key the
    object has, also when that value is null, in which case a later key with
    a value is not consulted; and None when the object has none of the
    keys. *)
Theorem extract_from_tags_cases {V : Type} (text_of_json : V -> option pystr)
    (json_loads : pystr -> option (@json V)) (priority_keys : list pystr) :
  extract_from_tags text_of_json json_loads None priority_keys = None /\
  (forall s, json_loads s = None ->
     extract_from_tags text_of_json json_loads (Some s) priority_keys = None) /\
  (forall s tags, json_loads s = Some tags -> (forall members, tags <> JObject members) ->
     extract_from_tags text_of_json json_loads (Some s) priority_keys = None) /\
  (forall s members pre key post v,
     json_loads s = Some (JObject members) ->
     priority_keys = pre ++ key :: post ->
     Forall (fun k => member k members = None) pre ->
     member key members = Some v ->
     extract_from_tags text_of_json json_loads (Some s) priority_keys = v) /\
  (forall s members,
     json_loads s = Some (JObject members) ->
     Forall (fun k => member k members = None) priority_keys ->
     extract_from_tags text_of_json json_loads (Some s) priority_keys = None).
Proof.
  split; [reflexivity|]. split; [|split; [|split]].
  - intros s Hs. unfold extract_from_tags. now rewrite Hs.
  - intros s tags Hs Hno. unfold extract_from_tags. rewrite Hs.
    now apply first_tag_not_object.
  - intros s members pre key post v Hs -> Hpre Hkey. unfold extract_from_tags. rewrite Hs.
    now rewrite (first_tag_object text_of_json members pre key post v Hpre Hkey).
  - intros s members Hs Habs. unfold extract_from_tags. rewrite Hs.
    now rewrite (first_tag_absent text_of_json members priority_keys Habs).
Qed.

(** The last member of a repeated key is the one read, and a key that is
    not in the object is missing. *)
Lemma member_spec {V : Type} (key : pystr) (members : list (pystr * option V)) :
  (forall pre v post, members = pre ++ (key, v) :: post ->
     Forall (fun kv => kv.1 <> key) post -> member key members = Some v) /\
  (Forall (fun kv => kv.1 <> key) members -> member key members = None).
Proof.
  assert (Habs : forall l : list (pystr * option V),
            Forall (fun kv => kv.1 <> key) l -> member key l = None).
  { induction 1 as [|[k v] l Hk _ IH]; [reflexivity|]. cbn. rewrite IH.
    cbn in Hk. now rewrite decide_False. }
  split; [|apply Habs].
  intros pre v post -> Hpost. induction pre as [|[k w] pre IH]; cbn.
  - rewrite (Habs post Hpost). now rewrite decide_True.
  - now rewrite IH.
Qed.
End OsmFacts.

(** ** The grid of search circles *)
Module GridFacts.
Import Grid.
Open Scope Q_scope.

Lemma arange_elem start stop step x :
  x ∈ arange start stop step -> exists i : nat, x = start + inject_Z (Z.of_nat i) * step.
Proof.
  unfold arange. intros H. apply list_elem_of_fmap in H as (i & -> & _). now exists i.
Qed.

Lemma grid_centers_elem minx miny maxx maxy R c :
  c ∈ grid_centers minx miny maxx maxy R ->
  exists i j : nat,
    c = (minx + R + inject_Z (Z.of_nat i) * (2 * R),
         miny + R + inject_Z (Z.of_nat j) * (2 * R)).
Proof.
  unfold grid_centers.
  set (xs := arange (minx + R) _ _). set (ys := arange (miny + R) _ _).
  intros H.
  assert (H' : c ∈ flat_map (fun y => map (fun x => (x, y)) xs) ys).
  { destruct xs, ys; try (now inversion H); exact H. }
  apply list_elem_of_In, in_flat_map in H' as (y & Hy & Hc).
  apply in_map_iff in Hc as (x & <- & Hx).
  apply list_elem_of_In, arange_elem in Hx as [i ->].
  apply list_elem_of_In, arange_elem in Hy as [j ->].
  now exists i, j.
Qed.

(** The square of an odd multiple is at least the square. *)
Lemma odd_multiple_square (k : Z) (R : Q) :
  R * R <= (inject_Z (2 * k + 1) * R) * (inject_Z (2 * k + 1) * R).
Proof.
  assert (Hk : (1 <= (2 * k + 1) * (2 * k + 1))%Z) by nia.
  assert (Hq : 1 <= inject_Z (2 * k + 1) * inject_Z (2 * k + 1)).
  { rewrite <- inject_Z_mult. change 1 with (inject_Z 1). now rewrite <- Zle_Qle. }
  assert (HR : 0 <= R * R) by nra.
  nra.
Qed.

(** X27: the circles have the radius [R] and their centres are [2R] apart, so
    they leave the corners of the grid cells out: no point [(minx + 2aR,
    miny + 2bR)], the south-west corner of the box among them, is in any
    circle. *)
Theorem grid_circles_miss_cell_corners (minx miny maxx maxy R : Q) (a b : Z) :
  0 < R ->
  Forall (fun circle =>
            circle.2 = R /\
            ~ in_circle (minx + inject_Z a * (2 * R), miny + inject_Z b * (2 * R)) circle)
    (grid_circles minx miny maxx maxy R).
Proof.
  intros HR. unfold grid_circles. apply Forall_fmap, Forall_forall. intros c Hc.
  split; [reflexivity|].
  apply grid_centers_elem in Hc as (i & j & ->).
  unfold in_circle. cbn [fst snd]. intros Hin.
  pose proof (odd_multiple_square (a - Z.of_nat i - 1) R) as Hx.
  pose proof (odd_multiple_square (b - Z.of_nat j - 1) R) as Hy.
  assert (Ex : minx + inject_Z a * (2 * R) - (minx + R + inject_Z (Z.of_nat i) * (2 * R))
               == inject_Z (2 * (a - Z.of_nat i - 1) + 1) * R).
  { unfold Z.sub. rewrite !inject_Z_plus, !inject_Z_mult, !inject_Z_plus, !inject_Z_opp.
    change (inject_Z 2) with 2. change (inject_Z 1) with 1. ring. }
  assert (Ey : miny + inject_Z b * (2 * R) - (miny + R + inject_Z (Z.of_nat j) * (2 * R))
               == inject_Z (2 * (b - Z.of_nat j - 1) + 1) * R).
  { unfold Z.sub. rewrite !inject_Z_plus, !inject_Z_mult, !inject_Z_plus, !inject_Z_opp.
    change (inject_Z 2) with 2. change (inject_Z 1) with 1. ring. }
  rewrite Ex, Ey in Hin.
  assert (HRR : 0 < R * R) by (apply Qmult_lt_0_compat; exact HR).
  set (X := inject_Z (2 * (a - Z.of_nat i - 1) + 1) * R) in *.
  set (Y := inject_Z (2 * (b - Z.of_nat j - 1) + 1) * R) in *.
  set (S := R * R) in *.
  set (XX := X * X) in *. set (YY := Y * Y) in *.
  lra.
Qed.

Lemma grid_circles_miss_cell_corners_witness :
  0 < 500 /\
  grid_centers 0 0 2000 1000 500 = [(500, 500); (1500, 500)] /\
  Forall (fun circle => ~ in_circle (1000, 0) circle) (grid_circles 0 0 2000 1000 500).
Proof.
  assert (H : 0 < 500) by reflexivity.
  split; [exact H|]. split; [vm_compute; reflexivity|].
  eapply Forall_impl.
  - exact (grid_circles_miss_cell_corners 0 0 2000 1000 500 1 0 H).
  - intros circle [_ Hout] Hin. apply Hout.
    unfold in_circle in *. cbn [fst snd] in *.
    assert (E1 : 0 + inject_Z 1 * (2 * 500) == 1000) by reflexivity.
    assert (E2 : 0 + inject_Z 0 * (2 * 500) == 0) by reflexivity.
    rewrite E1, E2. exact Hin.
Defined.
End GridFacts.
